(** * Compression portal: Huffman coding and run-length encoding

    A shallow embedding of [backend/algorithms/huffman.js] and
    [backend/algorithms/rle.js], and the properties of the two codecs
    proved on it.

    Layout: the part of the JavaScript runtime the two files rely on
    (module [JS]), the run-length codecs and the run statistics (module
    [RLE]), the Huffman codec (module [Huffman]), the helper of the
    server that tells binary files from text (module [Server]), then
    the lemmas and theorems. *)

From Stdlib Require Import ZArith NArith List String Ascii Lia Bool.
From Stdlib Require Import DecimalString DecimalPos Permutation.
From Stdlib Require Import Floats.SpecFloat.
From stdpp Require Import base list.

Local Open Scope string_scope.
Local Open Scope list_scope.
Local Open Scope nat_scope.

(** ** The JavaScript values the codecs handle *)

Module JS.

(** A JavaScript string is a sequence of UTF-16 code units. *)
Abbreviation jsstring := (list N).

(** The code units of an ASCII literal. *)
Definition js (s : string) : jsstring :=
  map N_of_ascii (list_ascii_of_string s).

(** The values that occur as symbols, as item fields and in results.
    Numbers are integers (byte values, counts, what [parseInt] returns),
    taken exactly: JavaScript agrees below 2^53. [VNaN] is the one other
    number that can arise. *)
Inductive value : Type :=
| VUndefined
| VNull
| VNaN
| VNum (z : Z)
| VStr (s : jsstring).

Global Instance value_eq_dec : EqDecision value.
Proof. solve_decision. Defined.

(** [a === b] *)
Definition strict_eq (a b : value) : bool :=
  match a, b with
  | VNaN, _ | _, VNaN => false
  | _, _ => bool_decide (a = b)
  end.

(** [String(z)] for an integer [z]: decimal digits, a leading minus sign
    when negative. This is what JavaScript writes for every integer below
    2^53 in magnitude; above, a JavaScript number is the nearest binary64
    and is written with the fewest digits that identify it, in exponent
    notation from 10^21. *)
Definition Number_toString (z : Z) : jsstring :=
  js (NilZero.string_of_int (Z.to_int z)).

(** The string an array element contributes to [Array.prototype.join]:
    [undefined] and [null] contribute nothing. *)
Definition join_piece (v : value) : jsstring :=
  match v with
  | VUndefined | VNull => []
  | VNaN => js "NaN"
  | VNum z => Number_toString z
  | VStr s => s
  end.

(** [arr.join('')] *)
Definition join (arr : list value) : jsstring :=
  concat (map join_piece arr).

(** [ToString(v)], as applied to a property key or to the argument of
    [parseInt]. *)
Definition ToString (v : value) : jsstring :=
  match v with
  | VUndefined => js "undefined"
  | VNull => js "null"
  | VNaN => js "NaN"
  | VNum z => Number_toString z
  | VStr s => s
  end.

(** *** [parseInt(string)] with no radix argument *)

(** White space and line terminators skipped by [parseInt]. *)
Definition is_white_space (c : N) : bool :=
  existsb (N.eqb c)
    [9; 10; 11; 12; 13; 32; 160; 5760; 8232; 8233; 8239; 8287; 12288;
     65279]%N
  || ((8192 <=? c) && (c <=? 8202))%N.

Fixpoint skip_white_space (s : jsstring) : jsstring :=
  match s with
  | c :: t => if is_white_space c then skip_white_space t else s
  | [] => []
  end.

(** The value of a code unit as a digit in the given radix. *)
Definition digit_value (radix : N) (c : N) : option N :=
  let d :=
    if ((48 <=? c) && (c <=? 57))%N then Some (c - 48)%N
    else if ((97 <=? c) && (c <=? 122))%N then Some (c - 87)%N
    else if ((65 <=? c) && (c <=? 90))%N then Some (c - 55)%N
    else None in
  match d with
  | Some v => if (v <? radix)%N then Some v else None
  | None => None
  end.

(** Reads the longest prefix of digits; [None] when there is none. *)
Fixpoint parse_digits (radix : N) (acc : option N) (s : jsstring)
  : option N :=
  match s with
  | c :: t =>
      match digit_value radix c with
      | Some d =>
          parse_digits radix
            (Some (match acc with Some a => a * radix + d | None => d end)%N) t
      | None => acc
      end
  | [] => acc
  end.

(** The digits are read as the exact whole number they write, which is
    the result of JavaScript for every result below 2^53 in magnitude;
    above, JavaScript returns the nearest binary64. *)
Definition parseInt (s : jsstring) : value :=
  let s1 := skip_white_space s in
  let '(negative, s2) :=
    match s1 with
    | 45%N :: t => (true, t)
    | 43%N :: t => (false, t)
    | _ => (false, s1)
    end in
  let '(radix, s3) :=
    match s2 with
    | 48%N :: 120%N :: t => (16%N, t)
    | 48%N :: 88%N :: t => (16%N, t)
    | _ => (10%N, s2)
    end in
  match parse_digits radix None s3 with
  | Some n => VNum (if negative then - Z.of_N n else Z.of_N n)
  | None => VNaN
  end.

(** *** Plain objects used as dictionaries *)

(** An object is its own properties in creation order; keys are strings
    and occur once. The keys of the codecs (one code point, the decimal
    string of a number) never name a property inherited from
    [Object.prototype], so reading a key the object does not have gives
    [undefined], here [None]. *)
Abbreviation object V := (list (jsstring * V)).

Section Object.
Context {V : Type}.

(** [o[k]] *)
Fixpoint get (o : object V) (k : jsstring) : option V :=
  match o with
  | (k', v) :: rest => if bool_decide (k' = k) then Some v else get rest k
  | [] => None
  end.

(** [o[k] = v]: an existing property keeps its place, a new one is
    created last. *)
Fixpoint set (o : object V) (k : jsstring) (v : V) : object V :=
  match o with
  | (k', v') :: rest =>
      if bool_decide (k' = k) then (k', v) :: rest
      else (k', v') :: set rest k v
  | [] => [(k, v)]
  end.

(** A key is an array index when it is the canonical decimal form of
    an integer below [2^32 - 1]. *)
Definition array_index (k : jsstring) : option N :=
  match k with
  | [] => None
  | c :: t =>
      if forallb (fun c => (48 <=? c) && (c <=? 57))%N k
         && (negb (N.eqb c 48) || bool_decide (t = []))
      then
        match parse_digits 10 None k with
        | Some n => if (n <? 4294967295)%N then Some n else None
        | None => None
        end
      else None
  end.

Fixpoint insert_by_index (e : N * (jsstring * V))
    (l : list (N * (jsstring * V))) : list (N * (jsstring * V)) :=
  match l with
  | [] => [e]
  | e' :: rest =>
      if (fst e <=? fst e')%N then e :: l
      else e' :: insert_by_index e rest
  end.

Definition index_entries (o : object V) : list (N * (jsstring * V)) :=
  omap (fun kv => match array_index (fst kv) with
                  | Some n => Some (n, kv)
                  | None => None
                  end) o.

(** [Object.entries(o)]: array-index keys in ascending numeric order,
    then the other keys in creation order. *)
Definition entries (o : object V) : list (jsstring * V) :=
  map snd (foldr insert_by_index [] (index_entries o))
  ++ filter (fun kv => array_index (fst kv) = None) o.
End Object.

(** *** Exceptions *)

(** The errors the codecs throw, named as in the specification, each
    with the message of its [new Error(...)]. *)
Inductive error : Type :=
| EmptyInputError       (* 'Input data is empty' *)
| MalformedPayloadError (* 'Invalid compressed data format' *)
| LengthMismatchError   (* 'Decompression failed: length mismatch...' *)
| UnknownItemTypeError  (* 'Invalid compressed item type...' *)
| TypeError             (* raised by the runtime: property read on null
                           or undefined *)
| OutOfModel.           (* not JavaScript: a loop of the embedding ran out
                           of fuel, or a path the embedding leaves out *)

Inductive result (A : Type) : Type :=
| Ok (a : A)
| Throw (e : error).
Global Arguments Ok {A} a.
Global Arguments Throw {A} e.

(** Sequencing: [x ← r; k] runs [k] on the value of [r], and a throw
    propagates. *)
Global Instance result_bind : MBind result := fun A B k r =>
  match r with
  | Ok a => k a
  | Throw e => Throw e
  end.

(** The input of a compressor: a string, an array of numbers, or nothing
    ([null] or [undefined]). *)
Inductive data : Type :=
| DAbsent
| DStr (s : jsstring)
| DArr (a : list Z).

(** [Array.isArray(data)] *)
Definition isArray (d : data) : bool :=
  match d with DArr _ => true | _ => false end.

(** [data.length] *)
Definition data_length (d : data) : nat :=
  match d with
  | DAbsent => 0
  | DStr s => length s
  | DArr a => length a
  end.

(** [data[i]]: a one-unit string, a number, or [undefined] out of range. *)
Definition data_at (d : data) (i : nat) : value :=
  match d with
  | DAbsent => VUndefined
  | DStr s => match s !! i with Some c => VStr [c] | None => VUndefined end
  | DArr a => match a !! i with Some z => VNum z | None => VUndefined end
  end.

(** The guard shared by the three compressors:
    [!data || (typeof data === 'string' && data.length === 0) ||
     (Array.isArray(data) && data.length === 0)]. *)
Definition is_empty_input (d : data) : bool :=
  match d with
  | DAbsent => true
  | DStr s => length s =? 0
  | DArr a => length a =? 0
  end.

(** [for (const char of s)]: the string iterator yields code points, so
    a surrogate pair comes out as one two-unit string. *)
Definition is_high_surrogate (c : N) : bool :=
  ((55296 <=? c) && (c <=? 56319))%N.
Definition is_low_surrogate (c : N) : bool :=
  ((56320 <=? c) && (c <=? 57343))%N.

Fixpoint string_iterator (s : jsstring) : list jsstring :=
  match s with
  | [] => []
  | c :: t =>
      match t with
      | c2 :: t' =>
          if is_high_surrogate c && is_low_surrogate c2
          then [c; c2] :: string_iterator t'
          else [c] :: string_iterator t
      | [] => [[c]]
      end
  end.

(** What a decompressor returns: a string or an array. *)
Inductive output : Type :=
| OStr (s : jsstring)
| OArr (a : list value).

(** *** Numbers that are not whole

    The quotients and products of counters are binary64 numbers, computed
    with the operations of IEEE 754 at 53 bits of precision. A counter as
    a JavaScript number is the binary64 number of value [n], for every
    [n] below 2^53. *)
Definition number (n : nat) : spec_float :=
  binary_normalize 53 1024 (Z.of_nat n) 0 false.

End JS.

Import JS.

(** ** Run-length encoding ([rle.js]) *)

Module RLE.

(** An item object of the [compressed] array. A field the object does
    not carry reads as [undefined]: [element] is then [VUndefined], and
    [count] and [elements] are [None]. [count] is a whole number when
    present, and [elements] the array that [...item.elements] spreads.
    A [type] that is missing or is not a string compares unequal to
    every tag, as a string that no decoder knows does. *)
Record item : Type := mkItem {
  type : string;
  element : value;
  count : option Z;
  elements : option (list value)
}.

(** The object literals the compressors push. *)
Definition run (e : value) (n : nat) : item :=
  mkItem "run" e (Some (Z.of_nat n)) None.
Definition single (e : value) : item :=
  mkItem "single" e None None.
Definition short_run (e : value) (n : nat) : item :=
  mkItem "short_run" e (Some (Z.of_nat n)) None.
Definition sequence (es : list value) : item :=
  mkItem "sequence" VUndefined None (Some es).

(** An entry of the [compressed] array: an item object, or [None] for
    [null], which a payload that arrives as JSON may hold in place of an
    object. *)
Abbreviation entry := (option item).

(** The object returned by a compressor and read by a decompressor; a
    field is [None] when the object does not have it. *)
Record payload : Type := mkPayload {
  compressed : option (list entry);
  originalLength : option nat;
  isArrayData : option bool;
  algorithm : option string
}.

(** The inner loop shared by the compressors:
    [while (i + count < length && data[i + count] === currentElement)
       count++;] *)
Fixpoint countRun (fuel : nat) (d : data) (length i : nat)
    (currentElement : value) (count : nat) : result nat :=
  if (i + count <? length)
     && strict_eq (data_at d (i + count)) currentElement
  then
    match fuel with
    | 0 => Throw OutOfModel
    | S fuel' => countRun fuel' d length i currentElement (S count)
    end
  else Ok count.

(** The outer loop of [rleCompress]: [while (i < length) { ... }]. *)
Fixpoint rleLoop (fuel : nat) (d : data) (length i : nat)
    (compressed : list entry) : result (list entry) :=
  if i <? length then
    match fuel with
    | 0 => Throw OutOfModel
    | S fuel' =>
        let currentElement := data_at d i in
        count ← countRun length d length i currentElement 1;
        let compressed :=
          if 1 <? count then compressed ++ [Some (run currentElement count)]
          else compressed ++ [Some (single currentElement)] in
        rleLoop fuel' d length (i + count) compressed
    end
  else Ok compressed.

Definition rleCompress (d : data) : result payload :=
  if is_empty_input d then Throw EmptyInputError
  else
    let isArrayData := isArray d in
    let length := data_length d in
    compressed ← rleLoop length d length 0 [];
    Ok (mkPayload (Some compressed) (Some length) (Some isArrayData) None).

(** [for (let i = 0; i < item.count; i++) decompressed.push(item.element)] *)
Definition expandRun (decompressed : list value) (it : item) : list value :=
  match count it with
  | Some n => decompressed ++ replicate (Z.to_nat n) (element it)
  | None => decompressed
  end.

(** [for (const item of compressed) { ... }] of [rleDecompress]; the
    first item of another type throws, and reading [item.type] of a
    [null] entry is a [TypeError]. *)
Fixpoint expandItems (compressed : list entry) (decompressed : list value)
  : result (list value) :=
  match compressed with
  | [] => Ok decompressed
  | None :: _ => Throw TypeError
  | Some it :: rest =>
      if String.eqb (type it) "run" then
        expandItems rest (expandRun decompressed it)
      else if String.eqb (type it) "single" then
        expandItems rest (decompressed ++ [element it])
      else Throw UnknownItemTypeError
  end.

(** The tail shared by the decompressors: the length check, then the
    result as an array or joined into a string. *)
Definition finish (decompressed : list value) (p : payload)
  : result output :=
  if bool_decide (Some (length decompressed) = originalLength p) then
    match isArrayData p with
    | Some true => Ok (OArr decompressed)
    | _ => Ok (OStr (join decompressed))
    end
  else Throw LengthMismatchError.

Definition rleDecompress (compressedData : option payload)
  : result output :=
  match compressedData with
  | None => Throw MalformedPayloadError
  | Some p =>
      match compressed p with
      | None => Throw MalformedPayloadError
      | Some items =>
          decompressed ← expandItems items [];
          finish decompressed p
      end
  end.

(** The sequence-collecting loop of [rleCompressAdvanced]:
    [while (i < length && sequence.length < 255) { ... }]; returns the
    index reached and the sequence. *)
Fixpoint collectSingles (fuel : nat) (d : data) (length i : nat)
    (sequence : list value) : result (nat * list value) :=
  if (i <? length) && (List.length sequence <? 255) then
    match fuel with
    | 0 => Throw OutOfModel
    | S fuel' =>
        let nextElement := data_at d i in
        nextCount ← countRun length d length i nextElement 1;
        if 2 <=? nextCount then Ok (i, sequence)
        else collectSingles fuel' d length (i + 1) (sequence ++ [nextElement])
    end
  else Ok (i, sequence).

(** The outer loop of [rleCompressAdvanced]. *)
Fixpoint advancedLoop (fuel : nat) (d : data) (length i : nat)
    (compressed : list entry) : result (list entry) :=
  if i <? length then
    match fuel with
    | 0 => Throw OutOfModel
    | S fuel' =>
        let currentElement := data_at d i in
        count ← countRun length d length i currentElement 1;
        if 4 <=? count then
          advancedLoop fuel' d length (i + count)
            (compressed ++ [Some (run currentElement count)])
        else if 2 <=? count then
          advancedLoop fuel' d length (i + count)
            (compressed ++ [Some (short_run currentElement count)])
        else
          '(i', sequence) ←
            collectSingles length d length (i + 1) [currentElement];
          advancedLoop fuel' d length i'
            (compressed ++ [Some (RLE.sequence sequence)])
    end
  else Ok compressed.

Definition rleCompressAdvanced (d : data) : result payload :=
  if is_empty_input d then Throw EmptyInputError
  else
    let isArrayData := isArray d in
    let length := data_length d in
    compressed ← advancedLoop length d length 0 [];
    Ok (mkPayload (Some compressed) (Some length) (Some isArrayData)
          (Some "advanced_rle")).

(** The [switch (item.type)] loop of [rleDecompressAdvanced]. Reading
    [item.type] of a [null] entry is a [TypeError], and so is spreading
    the [elements] of a sequence item that has none:
    [decompressed.push(...undefined)]. *)
Fixpoint expandItemsAdvanced (compressed : list entry)
    (decompressed : list value) : result (list value) :=
  match compressed with
  | [] => Ok decompressed
  | None :: _ => Throw TypeError
  | Some it :: rest =>
      if String.eqb (type it) "run" || String.eqb (type it) "short_run" then
        expandItemsAdvanced rest (expandRun decompressed it)
      else if String.eqb (type it) "sequence" then
        match elements it with
        | Some elements => expandItemsAdvanced rest (decompressed ++ elements)
        | None => Throw TypeError
        end
      else if String.eqb (type it) "single" then
        expandItemsAdvanced rest (decompressed ++ [element it])
      else Throw UnknownItemTypeError
  end.

Definition rleDecompressAdvanced (compressedData : option payload)
  : result output :=
  match compressedData with
  | None => Throw MalformedPayloadError
  | Some p =>
      match compressed p with
      | None => Throw MalformedPayloadError
      | Some items =>
          decompressed ← expandItemsAdvanced items [];
          finish decompressed p
      end
  end.

(** *** The run statistics

    The counters of [analyzeRLEEffectiveness] are whole numbers; its
    quotients and the product [length * 0.1] are binary64 numbers. *)

(** The literal [0.1]: 7205759403792794 * 2^-56, the binary64 number
    nearest to one tenth. *)
Definition tenth : spec_float := S754_finite false 7205759403792794 (-56).

(** The object [analyzeRLEEffectiveness] returns. *)
Record analysis : Type := mkAnalysis {
  totalRuns : nat;
  averageRunLength : spec_float;
  maxRunLength : nat;
  compressionPotential : spec_float;
  recommendRLE : bool
}.

(** The loop of [analyzeRLEEffectiveness]; returns [runs],
    [totalRunLength] and [maxRunLength]. *)
Fixpoint analyzeLoop (fuel : nat) (d : data) (length i : nat)
    (runs totalRunLength maxRunLength : nat) : result (nat * nat * nat) :=
  if i <? length then
    match fuel with
    | 0 => Throw OutOfModel
    | S fuel' =>
        let currentElement := data_at d i in
        count ← countRun length d length i currentElement 1;
        if 1 <? count then
          analyzeLoop fuel' d length (i + count) (runs + 1)
            (totalRunLength + count) (Nat.max maxRunLength count)
        else
          analyzeLoop fuel' d length (i + count) runs totalRunLength
            maxRunLength
    end
  else Ok (runs, totalRunLength, maxRunLength).

(** Reading [data.length] of [null] or [undefined] is a [TypeError]. *)
Definition analyzeRLEEffectiveness (d : data) : result analysis :=
  match d with
  | DAbsent => Throw TypeError
  | _ =>
      let length := data_length d in
      '(runs, totalRunLength, maxRunLength) ←
        analyzeLoop length d length 0 0 0 0;
      Ok (mkAnalysis runs
            (if 0 <? runs
             then SFdiv 53 1024 (number totalRunLength) (number runs)
             else S754_zero false)
            maxRunLength
            (SFdiv 53 1024 (number totalRunLength) (number length))
            (SFltb (SFmul 53 1024 (number length) tenth) (number runs)
             || (4 <? maxRunLength)))
  end.

End RLE.

(** ** Huffman coding ([huffman.js]) *)

Module Huffman.

(** [class HuffmanNode]: [char] is [null] on the nodes made by a merge,
    [freq] is a count, [left] and [right] are [null] or a node. *)
#[local] Unset Elimination Schemes.
Inductive HuffmanNode : Type := mkNode {
  char : option jsstring;
  freq : N;
  left : option HuffmanNode;
  right : option HuffmanNode
}.

#[local] Set Elimination Schemes.

Definition isLeaf (n : HuffmanNode) : bool :=
  match left n, right n with
  | None, None => true
  | _, _ => false
  end.

(** *** [class MinHeap], as the array [this.heap] *)

(** [Math.floor((index - 1) / 2)], called with [index > 0] only. *)
Definition getParentIndex (index : nat) : nat := (index - 1) / 2.
Definition getLeftChildIndex (index : nat) : nat := 2 * index + 1.
Definition getRightChildIndex (index : nat) : nat := 2 * index + 2.

(** [[heap[i1], heap[i2]] = [heap[i2], heap[i1]]]. Both callers have
    read [heap[i1].freq] and [heap[i2].freq] before, so both indices are
    in range; outside it the model leaves the array as it is. *)
Definition swap (heap : list HuffmanNode) (index1 index2 : nat)
  : list HuffmanNode :=
  match heap !! index1, heap !! index2 with
  | Some a, Some b => <[index2 := a]> (<[index1 := b]> heap)
  | _, _ => heap
  end.

(** [this.heap[i].freq]: a [TypeError] when [heap[i]] is [undefined]. *)
Definition freq_at (heap : list HuffmanNode) (i : nat) : result N :=
  match heap !! i with
  | Some n => Ok (freq n)
  | None => Throw TypeError
  end.

Fixpoint heapifyUp (fuel : nat) (heap : list HuffmanNode) (index : nat)
  : result (list HuffmanNode) :=
  if 0 <? index then
    match fuel with
    | 0 => Throw OutOfModel
    | S fuel' =>
        let parentIndex := getParentIndex index in
        fp ← freq_at heap parentIndex;
        fi ← freq_at heap index;
        if (fp <=? fi)%N then Ok heap
        else heapifyUp fuel' (swap heap parentIndex index) parentIndex
    end
  else Ok heap.

Definition insert (heap : list HuffmanNode) (node : HuffmanNode)
  : result (list HuffmanNode) :=
  let heap := heap ++ [node] in
  heapifyUp (length heap) heap (length heap - 1).

Fixpoint heapifyDown (fuel : nat) (heap : list HuffmanNode) (index : nat)
  : result (list HuffmanNode) :=
  if getLeftChildIndex index <? length heap then
    match fuel with
    | 0 => Throw OutOfModel
    | S fuel' =>
        let leftChildIndex := getLeftChildIndex index in
        let rightChildIndex := getRightChildIndex index in
        smallestIndex ←
          (if rightChildIndex <? length heap then
             fr ← freq_at heap rightChildIndex;
             fl ← freq_at heap leftChildIndex;
             Ok (if (fr <? fl)%N then rightChildIndex else leftChildIndex)
           else Ok leftChildIndex);
        fi ← freq_at heap index;
        fs ← freq_at heap smallestIndex;
        if (fi <=? fs)%N then Ok heap
        else heapifyDown fuel' (swap heap index smallestIndex) smallestIndex
    end
  else Ok heap.

(** [extractMin()]: the node returned ([null] on an empty heap) and the
    array left. *)
Definition extractMin (heap : list HuffmanNode)
  : result (option HuffmanNode * list HuffmanNode) :=
  match heap with
  | [] => Ok (None, heap)
  | [n] => Ok (Some n, [])
  | min :: _ =>
      let popped := List.last heap min in
      let heap := <[0 := popped]> (removelast heap) in
      heap ← heapifyDown (length heap) heap 0;
      Ok (Some min, heap)
  end.

(** *** The frequency table *)

(** [freqTable[k] = (freqTable[k] || 0) + 1] *)
Definition countSymbol (freqTable : object N) (k : jsstring) : object N :=
  set freqTable k (default 0%N (get freqTable k) + 1)%N.

(** The property keys the loops over [data] use: the decimal string of
    each byte of an array, each code point of a string. Iterating
    [null] is a [TypeError]. *)
Definition symbols (d : data) : result (list jsstring) :=
  match d with
  | DArr a => Ok (map (fun byte => ToString (VNum byte)) a)
  | DStr s => Ok (string_iterator s)
  | DAbsent => Throw TypeError
  end.

Definition buildFrequencyTable (d : data) : result (object N) :=
  syms ← symbols d;
  Ok (fold_left countSymbol syms []).

(** *** The tree *)

(** The loop [for (const [char, freq] of Object.entries(freqTable))]. *)
Fixpoint insertLeaves (es : list (jsstring * N)) (heap : list HuffmanNode)
  : result (list HuffmanNode) :=
  match es with
  | [] => Ok heap
  | (c, f) :: rest =>
      heap ← insert heap (mkNode (Some c) f None None);
      insertLeaves rest heap
  end.

(** [node.freq] and the like on the result of [extractMin()]: a
    [TypeError] on [null]. *)
Definition nonNull (n : option HuffmanNode) : result HuffmanNode :=
  match n with
  | Some n => Ok n
  | None => Throw TypeError
  end.

(** One turn of [while (heap.size() > 1)]. *)
Definition mergeStep (heap : list HuffmanNode) : result (list HuffmanNode) :=
  '(l, heap) ← extractMin heap;
  '(r, heap) ← extractMin heap;
  l ← nonNull l;
  r ← nonNull r;
  let merged := mkNode None (freq l + freq r)%N (Some l) (Some r) in
  insert heap merged.

Fixpoint mergeLoop (fuel : nat) (heap : list HuffmanNode)
  : result (list HuffmanNode) :=
  if 1 <? length heap then
    match fuel with
    | 0 => Throw OutOfModel
    | S fuel' =>
        heap ← mergeStep heap;
        mergeLoop fuel' heap
    end
  else Ok heap.

(** Returns [null] ([None]) on an empty table. *)
Definition buildHuffmanTree (freqTable : object N)
  : result (option HuffmanNode) :=
  heap ← insertLeaves (entries freqTable) [];
  if length heap =? 1 then
    '(node, _) ← extractMin heap;
    node ← nonNull node;
    Ok (Some (mkNode None (freq node) (Some node) None))
  else
    heap ← mergeLoop (length heap) heap;
    '(root, _) ← extractMin heap;
    Ok root.

(** *** The code table *)

(** A code is a string over '0' and '1'; [false] stands for '0' and
    [true] for '1'. *)
Abbreviation bits := (list bool).

(** The property key [codes[node.char]] writes to. *)
Definition char_key (c : option jsstring) : jsstring :=
  match c with
  | Some s => s
  | None => ToString VNull
  end.

Fixpoint traverse (node : HuffmanNode) (code : bits) (codes : object bits)
  : object bits :=
  if isLeaf node then set codes (char_key (char node)) code
  else
    let codes :=
      match left node with
      | Some l => traverse l (code ++ [false]) codes
      | None => codes
      end in
    match right node with
    | Some r => traverse r (code ++ [true]) codes
    | None => codes
    end.

Definition buildCodes (root : option HuffmanNode) : result (object bits) :=
  root ← nonNull root;
  if isLeaf root then Ok (set [] (char_key (char root)) [false])
  else Ok (traverse root [] []).

(** *** The payload *)

(** The tagged objects [serializeTree] builds: a leaf with its [char]
    and [freq], an internal node with its [freq] and two children, each
    [null] or an object. *)
#[local] Unset Elimination Schemes.
Inductive serialized : Type :=
| SLeaf (char : option jsstring) (freq : N)
| SInternal (freq : N) (left right : option serialized).
#[local] Set Elimination Schemes.

Fixpoint serializeNode (node : HuffmanNode) : serialized :=
  if isLeaf node then SLeaf (char node) (freq node)
  else
    SInternal (freq node)
      (match left node with
       | Some l => Some (serializeNode l)
       | None => None
       end)
      (match right node with
       | Some r => Some (serializeNode r)
       | None => None
       end).

(** [serializeTree(node)], [null] for [null]. *)
Definition serializeTree (node : option HuffmanNode) : option serialized :=
  match node with
  | Some n => Some (serializeNode n)
  | None => None
  end.

Fixpoint deserializeNode (s : serialized) : HuffmanNode :=
  match s with
  | SLeaf c f => mkNode c f None None
  | SInternal f l r =>
      mkNode None f
        (match l with
         | Some l => Some (deserializeNode l)
         | None => None
         end)
        (match r with
         | Some r => Some (deserializeNode r)
         | None => None
         end)
  end.

(** [deserializeTree(serialized)], [null] for [null]. *)
Definition deserializeTree (s : option serialized) : option HuffmanNode :=
  match s with
  | Some s => Some (deserializeNode s)
  | None => None
  end.

(** The object [huffmanCompress] returns and [huffmanDecompress] reads;
    a field is [None] when the object does not have it ([tree] also
    when it is [null]). *)
Record payload : Type := mkPayload {
  encodedData : option (list N);
  tree : option serialized;
  originalLength : option nat;
  paddingBits : option nat;
  isArrayData : option bool
}.

(** *** Compression *)

(** [encodedBits += codes[k]] over the symbols. A symbol without a code
    would append the text of [undefined]; the model stops there. *)
Fixpoint encode (codes : object bits) (syms : list jsstring)
    (encodedBits : bits) : result bits :=
  match syms with
  | [] => Ok encodedBits
  | k :: rest =>
      match get codes k with
      | Some code => encode codes rest (encodedBits ++ code)
      | None => Throw OutOfModel
      end
  end.

(** [s.slice(i, j)] for [0 <= i <= j]. *)
Definition slice {A} (i j : nat) (s : list A) : list A :=
  take (j - i) (drop i s).

(** [s.padEnd(n, '0')] and [s.padStart(n, '0')] *)
Definition padEnd (n : nat) (s : bits) : bits :=
  s ++ replicate (n - length s) false.
Definition padStart (n : nat) (s : bits) : bits :=
  replicate (n - length s) false ++ s.

(** [parseInt(s, 2)] on a string of binary digits. *)
Definition parseBinary (s : bits) : N :=
  fold_left (fun acc (b : bool) => (2 * acc + (if b then 1 else 0))%N) s 0%N.

(** [for (let i = 0; i < encodedBits.length; i += 8) { ... }] *)
Fixpoint packLoop (fuel : nat) (encodedBits : bits) (i : nat)
    (encodedBytes : list N) : result (list N) :=
  if i <? length encodedBits then
    match fuel with
    | 0 => Throw OutOfModel
    | S fuel' =>
        let byte := padEnd 8 (slice i (i + 8) encodedBits) in
        packLoop fuel' encodedBits (i + 8) (encodedBytes ++ [parseBinary byte])
    end
  else Ok encodedBytes.

Definition huffmanCompress (d : data) : result payload :=
  if is_empty_input d then Throw EmptyInputError
  else
    freqTable ← buildFrequencyTable d;
    root ← buildHuffmanTree freqTable;
    codes ← buildCodes root;
    syms ← symbols d;
    encodedBits ← encode codes syms [];
    encodedBytes ← packLoop (length encodedBits) encodedBits 0 [];
    Ok (mkPayload (Some encodedBytes) (serializeTree root)
          (Some (data_length d))
          (Some ((8 - length encodedBits mod 8) mod 8))
          (Some (isArray d))).

(** *** Decompression *)

(** [n.toString(2)]: most significant digit first, "0" for zero. *)
Definition toBinary (n : N) : bits :=
  match n with
  | N0 => [false]
  | Npos p =>
      (fix go (p : positive) (acc : bits) : bits :=
         match p with
         | xH => true :: acc
         | xO p' => go p' (false :: acc)
         | xI p' => go p' (true :: acc)
         end) p []
  end.

(** What [decoded.push(node.char)] stores. *)
Definition char_value (c : option jsstring) : value :=
  match c with
  | Some s => VStr s
  | None => VNull
  end.

(** [for (const bit of bitString) { ... }], with [current] carried from
    one turn to the next. Reading [isLeaf] on a [null] child is a
    [TypeError]. *)
Fixpoint decodeLoop (root current : HuffmanNode) (bitString : bits)
    (decoded : list value) : result (list value) :=
  match bitString with
  | [] => Ok decoded
  | bit :: rest =>
      if isLeaf root then
        decodeLoop root current rest (decoded ++ [char_value (char root)])
      else
        match (if bit then right current else left current) with
        | None => Throw TypeError
        | Some current =>
            if isLeaf current then
              decodeLoop root root rest
                (decoded ++ [char_value (char current)])
            else decodeLoop root current rest decoded
        end
  end.

Definition huffmanDecompress (compressedData : option payload)
  : result output :=
  match compressedData with
  | None => Throw MalformedPayloadError
  | Some p =>
      match encodedData p, deserializeTree (tree p) with
      | Some encodedData, Some root =>
          let bitString :=
            flat_map (fun byte => padStart 8 (toBinary byte)) encodedData in
          let bitString :=
            match paddingBits p with
            | Some (S n) => take (length bitString - S n) bitString
            | _ => bitString
            end in
          decoded ← decodeLoop root root bitString [];
          match isArrayData p with
          | Some true =>
              Ok (OArr (map (fun char => parseInt (ToString char)) decoded))
          | _ => Ok (OStr (join decoded))
          end
      | _, _ => Throw MalformedPayloadError
      end
  end.

End Huffman.

(** ** The server: telling binary files from text *)

Module Server.

(** The literal [0.3]: 5404319552844595 * 2^-54, the binary64 number
    nearest to three tenths. *)
Definition three_tenths : spec_float :=
  S754_finite false 5404319552844595 (-54).

(** [byte === 0 || (byte < 32 && byte !== 9 && byte !== 10 &&
    byte !== 13)] *)
Definition binary_looking (byte : Z) : bool :=
  (byte =? 0)%Z
  || ((byte <? 32)%Z && negb (byte =? 9)%Z && negb (byte =? 10)%Z
      && negb (byte =? 13)%Z).

(** [isBinaryData(buffer)], on the bytes of the buffer: the share of
    binary-looking bytes among the first 512 is compared with 0.3. *)
Definition isBinaryData (buffer : list Z) : bool :=
  let sample := take (Nat.min (length buffer) 512) buffer in
  let binaryBytes :=
    fold_left (fun binaryBytes byte =>
                 if binary_looking byte then binaryBytes + 1
                 else binaryBytes) sample 0 in
  SFltb three_tenths
    (SFdiv 53 1024 (number binaryBytes) (number (length sample))).

End Server.

(** ** Reference definitions

    The symbols, runs, trees and paths the statements are written with,
    the item lists in the words of the specification, and the inputs of
    the examples. *)

(** *** Inputs and results *)

(** The symbols of an input, as [data[i]] reads them. *)
Definition elems (d : data) : list value :=
  match d with
  | DAbsent => []
  | DStr s => map (fun c => VStr [c]) s
  | DArr a => map VNum a
  end.

(** The input as a decompressor hands it back: a string for a string, an
    array of the same numbers for an array. *)
Definition output_of (d : data) : output :=
  match d with
  | DArr a => OArr (map VNum a)
  | DStr s => OStr s
  | DAbsent => OStr []
  end.

(** The inputs with a byte in every cell of an array. *)
Definition byte_input (d : data) : Prop :=
  match d with
  | DArr a => Forall (fun z => (0 <= z < 256)%Z) a
  | _ => True
  end.

(** The whole numbers a JavaScript number holds exactly, those below
    2^53 in magnitude, and the inputs with such a number in every cell of
    an array. *)
Definition safe_integer (z : Z) : Prop := (- 2 ^ 53 < z < 2 ^ 53)%Z.

Definition safe_input (d : data) : Prop :=
  match d with
  | DArr a => Forall safe_integer a
  | _ => True
  end.

(** The keys symbols are filed under in the frequency table and in the
    code table: one code point of a string, or the decimal string of a
    byte. *)
Definition symbol_key (k : jsstring) : Prop :=
  string_iterator k = [k]
  \/ exists z, (0 <= z < 256)%Z /\ k = ToString (VNum z).

(** The bytes 0, 1, ..., 255. *)
Definition all_bytes : list Z := map Z.of_nat (seq 0 256).

(** *** Runs and the items of the specification *)

(** The number of leading elements of [l] equal to [x]. *)
Fixpoint run_len (x : value) (l : list value) : nat :=
  match l with
  | y :: t => if strict_eq y x then S (run_len x t) else 0
  | [] => 0
  end.

(** The maximal runs of identical consecutive symbols, left to right:
    [runs_from x n l] has seen [n] copies of [x] before [l]. *)
Fixpoint runs_from (x : value) (n : nat) (l : list value)
  : list (value * nat) :=
  match l with
  | [] => [(x, n)]
  | y :: t =>
      if strict_eq y x then runs_from x (S n) t
      else (x, n) :: runs_from y 1 t
  end.

Definition runs (l : list value) : list (value * nat) :=
  match l with
  | [] => []
  | x :: t => runs_from x 1 t
  end.

(** The symbols a list of runs stands for. *)
Definition flatten (gs : list (value * nat)) : list value :=
  flat_map (fun g => replicate (snd g) (fst g)) gs.

(** Basic RLE, in the words of the specification: a run emits [Run] when
    its count exceeds 1, else [Single]. *)
Definition spec_basic_item (g : value * nat) : RLE.item :=
  if 1 <? snd g then RLE.run (fst g) (snd g) else RLE.single (fst g).

Definition spec_basic_items (l : list value) : list RLE.item :=
  map spec_basic_item (runs l).

(** The item an open sequence closes into; none when no sequence is
    open. *)
Definition flush (pending : list value) : list RLE.item :=
  match pending with
  | [] => []
  | _ => [RLE.sequence pending]
  end.

(** Adaptive RLE, in the words of the specification: a run of 4 or more
    emits [Run], a run of 2 or 3 emits [ShortRun], and a run of 1 starts a
    [Sequence] or joins the open one, which closes at 255 symbols or at
    the next run of 2 or more. [pending] is the open sequence. *)
Fixpoint spec_adaptive_from (pending : list value) (gs : list (value * nat))
  : list RLE.item :=
  match gs with
  | [] => flush pending
  | (x, n) :: rest =>
      if 4 <=? n then
        flush pending ++ RLE.run x n :: spec_adaptive_from [] rest
      else if 2 <=? n then
        flush pending ++ RLE.short_run x n :: spec_adaptive_from [] rest
      else if length pending <? 255 then
        spec_adaptive_from (pending ++ [x]) rest
      else RLE.sequence pending :: spec_adaptive_from [x] rest
  end.

Definition spec_adaptive_items (l : list value) : list RLE.item :=
  spec_adaptive_from [] (runs l).

(** The types [rleDecompress] accepts, and those [rleDecompressAdvanced]
    accepts. *)
Definition basic_types : list string := ["run"; "single"].

Definition advanced_types : list string :=
  ["run"; "short_run"; "sequence"; "single"].

(** The item variants the specification defines for the adaptive codec. *)
Definition spec_adaptive_variants : list string :=
  ["run"; "short_run"; "sequence"].

(** *** Trees, paths and bits *)

(** A property of the child of a node, when there is one. *)
Definition on_child (P : Huffman.HuffmanNode -> Prop)
    (c : option Huffman.HuffmanNode) : Prop :=
  match c with
  | Some n => P n
  | None => True
  end.

(** The nodes [buildHuffmanTree] puts in the heap: a leaf for an entry of
    the table, and what a merge makes of two nodes. *)
Definition leaf_of (e : jsstring * N) : Huffman.HuffmanNode :=
  Huffman.mkNode (Some (fst e)) (snd e) None None.

Definition merged (l r : Huffman.HuffmanNode) : Huffman.HuffmanNode :=
  Huffman.mkNode None (Huffman.freq l + Huffman.freq r)%N (Some l) (Some r).

(** The node returned for a table of one entry: the leaf under a parent
    with no right child. *)
Definition wrapper (e : jsstring * N) : Huffman.HuffmanNode :=
  Huffman.mkNode None (snd e) (Some (leaf_of e)) None.

(** The [char] of each leaf under a node, left to right. *)
Fixpoint leaves (n : Huffman.HuffmanNode) : list (option jsstring) :=
  if Huffman.isLeaf n then [Huffman.char n]
  else
    match Huffman.left n with Some l => leaves l | None => [] end
    ++ match Huffman.right n with Some r => leaves r | None => [] end.

(** Every internal node under [n] has exactly two children, and its
    frequency is the sum of theirs. *)
Fixpoint two_children_sum (n : Huffman.HuffmanNode) : Prop :=
  match Huffman.left n, Huffman.right n with
  | None, None => True
  | Some l, Some r =>
      Huffman.freq n = (Huffman.freq l + Huffman.freq r)%N
      /\ two_children_sum l /\ two_children_sum r
  | _, _ => False
  end.

(** Leaves carry a character and internal nodes carry none. *)
Fixpoint labelled (n : Huffman.HuffmanNode) : Prop :=
  match Huffman.left n, Huffman.right n with
  | None, None => is_Some (Huffman.char n)
  | l, r =>
      Huffman.char n = None
      /\ match l with Some l => labelled l | None => True end
      /\ match r with Some r => labelled r | None => True end
  end.

(** The path from a node to each leaf under it, left to right: [false] for
    a left edge, [true] for a right edge. *)
Fixpoint paths (n : Huffman.HuffmanNode)
  : list (option jsstring * Huffman.bits) :=
  if Huffman.isLeaf n then [(Huffman.char n, [])]
  else
    map (fun p => (fst p, false :: snd p))
      (match Huffman.left n with Some l => paths l | None => [] end)
    ++ map (fun p => (fst p, true :: snd p))
         (match Huffman.right n with Some r => paths r | None => [] end).

(** The same with each leaf under the key [buildCodes] files it under. *)
Definition key_paths (n : Huffman.HuffmanNode)
  : list (jsstring * Huffman.bits) :=
  map (fun p => (Huffman.char_key (fst p), snd p)) (paths n).

(** The code of a symbol in a code table, empty for a symbol without. *)
Definition code_of (codes : object Huffman.bits) (k : jsstring)
  : Huffman.bits :=
  default [] (get codes k).

(** The eight binary digits [huffmanDecompress] reads back from a byte. *)
Definition byte_bits (byte : N) : Huffman.bits :=
  Huffman.padStart 8 (Huffman.toBinary byte).

(** The number of zeros [huffmanCompress] pads [n] bits with. *)
Definition padding (n : nat) : nat := (8 - n mod 8) mod 8.

(** *** Example inputs *)

(** An array of bytes with runs of one, two, three and five. *)
Definition sample_bytes : data :=
  DArr [7; 200; 200; 0; 0; 0; 255; 255; 255; 255; 255]%Z.

(** The frequency table of the text "abcabc". *)
Definition table_abc : object N :=
  [(js "a", 2%N); (js "b", 2%N); (js "c", 2%N)].

(** An RLE payload of one single item, as the basic compressor makes of
    the text "a". *)
Definition single_payload : RLE.payload :=
  RLE.mkPayload (Some [Some (RLE.single (VStr (js "a")))])
    (Some 1) (Some false) None.

(** An item of type "bogus". *)
Definition bogus : RLE.item := RLE.mkItem "bogus" (VStr (js "b")) None None.

(** An RLE payload with an item of type "bogus" after a genuine run. *)
Definition bogus_payload : RLE.payload :=
  RLE.mkPayload (Some [Some (RLE.run (VStr (js "a")) 2); Some bogus])
    (Some 3) (Some false) None.

(** The same with [null] in place of the run, and with a sequence item
    that has no elements in its place. *)
Definition null_payload : RLE.payload :=
  RLE.mkPayload (Some [None; Some bogus]) (Some 3) (Some false) None.

Definition headless_payload : RLE.payload :=
  RLE.mkPayload
    (Some [Some (RLE.mkItem "sequence" VUndefined None None); Some bogus])
    (Some 3) (Some false) None.

(** A Huffman payload whose bits decode to eight symbols and whose
    recorded original length is five. *)
Definition mismatched_payload : Huffman.payload :=
  Huffman.mkPayload (Some [0%N])
    (Some (Huffman.SInternal 2
             (Some (Huffman.SLeaf (Some (js "a")) 1))
             (Some (Huffman.SLeaf (Some (js "b")) 1))))
    (Some 5) (Some 0) (Some false).

(** The same bytes and tree and no other field. *)
Definition bare_payload : Huffman.payload :=
  Huffman.mkPayload (Huffman.encodedData mismatched_payload)
    (Huffman.tree mismatched_payload) None None None.

(** A Huffman payload without its packed bytes. *)
Definition payload_without_bytes : Huffman.payload :=
  Huffman.mkPayload None (Huffman.tree mismatched_payload)
    (Some 6) (Some 6) (Some false).

(** *** Three claims as the specification states them *)

(** C7, for the adaptive decoder: an item whose type is none of the three
    adaptive variants makes decoding fail. *)
Definition adaptive_rejects_other_variants : Prop :=
  forall (p : RLE.payload) (items : list RLE.item),
    RLE.compressed p = Some (map Some items) ->
    Exists (fun it => ~ In (RLE.type it) spec_adaptive_variants) items ->
    RLE.rleDecompressAdvanced (Some p) = Throw UnknownItemTypeError.

(** *** The entries a decoder reads

    An entry whose type the decoder knows, and an entry that
    [rleDecompressAdvanced] reads without a [TypeError]: an object, with
    its elements when it is a sequence. *)
Definition known (types : list string) (e : RLE.entry) : Prop :=
  match e with
  | Some it => In (RLE.type it) types
  | None => False
  end.

Definition spreadable (e : RLE.entry) : Prop :=
  match e with
  | Some it => RLE.type it = "sequence" -> is_Some (RLE.elements it)
  | None => False
  end.

(** C6: under every node of every tree returned, an internal node has two
    children and the sum of their frequencies. *)
Definition every_tree_two_children_sum : Prop :=
  forall (t : object N) (root : Huffman.HuffmanNode),
    Huffman.buildHuffmanTree t = Ok (Some root) -> two_children_sum root.

(** C4: a payload missing any of its five fields is rejected as
    malformed. *)
Definition missing_field (p : Huffman.payload) : Prop :=
  Huffman.encodedData p = None \/ Huffman.tree p = None
  \/ Huffman.originalLength p = None \/ Huffman.paddingBits p = None
  \/ Huffman.isArrayData p = None.

Definition every_missing_field_rejected : Prop :=
  forall p, missing_field p ->
    Huffman.huffmanDecompress (Some p) = Throw MalformedPayloadError.

(** *** The order of the heap *)

(** The order [MinHeap] keeps: no node is lighter than its parent. *)
Definition heap_ordered (heap : list Huffman.HuffmanNode) : Prop :=
  forall i p c,
    0 < i -> heap !! Huffman.getParentIndex i = Some p -> heap !! i = Some c ->
    (Huffman.freq p <= Huffman.freq c)%N.

(** The order while [heapifyUp] is at index [k]: it holds everywhere but
    between [k] and its parent, and the children of [k] are no lighter than
    the parent of [k]. *)
Definition ordered_but_up (heap : list Huffman.HuffmanNode) (k : nat) : Prop :=
  (forall i p c,
     0 < i -> i <> k ->
     heap !! Huffman.getParentIndex i = Some p -> heap !! i = Some c ->
     (Huffman.freq p <= Huffman.freq c)%N)
  /\ (forall i g c,
        0 < k -> 0 < i -> Huffman.getParentIndex i = k ->
        heap !! Huffman.getParentIndex k = Some g -> heap !! i = Some c ->
        (Huffman.freq g <= Huffman.freq c)%N).

(** The order while [heapifyDown] is at index [k]: it holds everywhere but
    between [k] and its children, and the children of [k] are no lighter
    than the parent of [k]. *)
Definition ordered_but_down (heap : list Huffman.HuffmanNode) (k : nat) : Prop :=
  (forall i p c,
     0 < i -> Huffman.getParentIndex i <> k ->
     heap !! Huffman.getParentIndex i = Some p -> heap !! i = Some c ->
     (Huffman.freq p <= Huffman.freq c)%N)
  /\ (forall i g c,
        0 < k -> 0 < i -> Huffman.getParentIndex i = k ->
        heap !! Huffman.getParentIndex k = Some g -> heap !! i = Some c ->
        (Huffman.freq g <= Huffman.freq c)%N).

(** A heap of three leaves, the lightest first. *)
Definition sample_heap : list Huffman.HuffmanNode :=
  [leaf_of (js "a", 1%N); leaf_of (js "b", 3%N); leaf_of (js "c", 2%N)].

(** *** Counts *)

(** The number of times [k] occurs among the symbols. *)
Fixpoint occurrences (k : jsstring) (syms : list jsstring) : N :=
  match syms with
  | [] => 0
  | s :: rest => (if bool_decide (s = k) then 1 else 0) + occurrences k rest
  end%N.

(** The sum of the frequencies of a table. *)
Definition total (t : object N) : N :=
  fold_right (fun e acc => (snd e + acc)%N) 0%N t.

(** The [char] and [freq] of each leaf under a node, left to right. *)
Fixpoint leaf_entries (n : Huffman.HuffmanNode) : list (option jsstring * N) :=
  if Huffman.isLeaf n then [(Huffman.char n, Huffman.freq n)]
  else
    match Huffman.left n with Some l => leaf_entries l | None => [] end
    ++ match Huffman.right n with Some r => leaf_entries r | None => [] end.

(** *** Serialized trees *)

(** Every internal object of a serialized tree has a child. *)
Fixpoint has_children (s : Huffman.serialized) : Prop :=
  match s with
  | Huffman.SLeaf _ _ => True
  | Huffman.SInternal _ l r =>
      (l <> None \/ r <> None)
      /\ match l with Some l => has_children l | None => True end
      /\ match r with Some r => has_children r | None => True end
  end.

(** *** The bits the decoder walks *)

(** The bit string [huffmanDecompress] walks: eight digits for each byte,
    less the padding at the end. *)
Definition kept_bits (encodedData : list N) (paddingBits : option nat)
  : Huffman.bits :=
  take (length (flat_map byte_bits encodedData) - default 0 paddingBits)
    (flat_map byte_bits encodedData).

(** What [huffmanDecompress] returns for the decoded symbols. *)
Definition decoded_output_of (isArrayData : option bool) (decoded : list value)
  : output :=
  match isArrayData with
  | Some true => OArr (map (fun char => parseInt (ToString char)) decoded)
  | _ => OStr (join decoded)
  end.

(** The serialized tree of an input with one distinct symbol [k]. *)
Definition single_symbol_tree (k : jsstring) (f f' : N) : Huffman.serialized :=
  Huffman.SInternal f (Some (Huffman.SLeaf (Some k) f')) None.

(** Every node of a full tree has two children or none. *)
Fixpoint full (n : Huffman.HuffmanNode) : Prop :=
  match Huffman.left n, Huffman.right n with
  | None, None => True
  | Some l, Some r => full l /\ full r
  | _, _ => False
  end.

(** A serialized tree of three leaves: "a" under 0, "b" under 10 and "c"
    under 11. *)
Definition tree_abc : Huffman.serialized :=
  Huffman.SInternal 6
    (Some (Huffman.SLeaf (Some (js "a")) 2))
    (Some (Huffman.SInternal 4
             (Some (Huffman.SLeaf (Some (js "b")) 2))
             (Some (Huffman.SLeaf (Some (js "c")) 2)))).

(** *** Items *)

(** The number of symbols an item stands for in the decoders: the count of
    a run, nothing when the count is missing or negative, the elements of
    a sequence that has them, one for a single. *)
Definition item_size (it : RLE.item) : nat :=
  if String.eqb (RLE.type it) "run" || String.eqb (RLE.type it) "short_run"
  then match RLE.count it with Some n => Z.to_nat n | None => 0 end
  else if String.eqb (RLE.type it) "sequence"
  then match RLE.elements it with Some es => length es | None => 0 end
  else 1.

Definition total_size (items : list RLE.item) : nat :=
  list_sum (map item_size items).

(** [R] holds between every element of a list and the next one. *)
Definition neighbours {A : Type} (R : A -> A -> Prop) (l : list A) : Prop :=
  forall i a b, l !! i = Some a -> l !! S i = Some b -> R a b.

(** The shapes of the items of the two compressors. *)
Definition basic_shape (it : RLE.item) : Prop :=
  (exists x n, it = RLE.run x n /\ 2 <= n) \/ (exists x, it = RLE.single x).

Definition adaptive_shape (it : RLE.item) : Prop :=
  (exists x n, it = RLE.run x n /\ 4 <= n)
  \/ (exists x n, it = RLE.short_run x n /\ 2 <= n <= 3)
  \/ (exists es, it = RLE.sequence es /\ 1 <= length es <= 255).

(** A sequence right before another sequence is full. *)
Definition full_before (a b : RLE.item) : Prop :=
  RLE.type a = "sequence" -> RLE.type b = "sequence" ->
  exists es, RLE.elements a = Some es /\ length es = 255.

(** A text of two long runs, and one with a short run in the middle. *)
Definition long_runs : data := DStr (js "aaaabbbbb").
Definition mixed_runs : data := DStr (js "aaaabbcdddd").

(** A payload whose items stand for four symbols and whose recorded
    length is five. *)
Definition short_payload : RLE.payload :=
  RLE.mkPayload
    (Some [Some (RLE.run (VStr (js "a")) 3); Some (RLE.single (VStr (js "b")))])
    (Some 5) (Some false) None.

(** *** Run statistics *)

(** The maximal runs of two symbols or more. *)
Definition repeats (l : list value) : list (value * nat) :=
  List.filter (fun g => 1 <? snd g) (runs l).

(** The entries that are items of type "run". *)
Definition run_items (entries : list RLE.entry) : list RLE.entry :=
  List.filter (fun e => match e with
                        | Some it => String.eqb (RLE.type it) "run"
                        | None => false
                        end) entries.

(** *** The length of the encoded text *)

(** The frequency and the depth of each leaf under a node that sits at
    depth [d], left to right. *)
Fixpoint leaf_depths (n : Huffman.HuffmanNode) (d : nat) : list (N * nat) :=
  if Huffman.isLeaf n then [(Huffman.freq n, d)]
  else
    match Huffman.left n with Some l => leaf_depths l (S d) | None => [] end
    ++ match Huffman.right n with Some r => leaf_depths r (S d) | None => [] end.

(** The weighted path length: each leaf counts its depth, the length of
    its code, as often as its frequency. *)
Definition weighted_length (p : list (N * nat)) : N :=
  fold_right (fun e acc => (fst e * N.of_nat (snd e) + acc)%N) 0%N p.

Definition cost (n : Huffman.HuffmanNode) : N :=
  weighted_length (leaf_depths n 0).

(** The longest way down from a node. *)
Fixpoint height (n : Huffman.HuffmanNode) : nat :=
  match Huffman.left n, Huffman.right n with
  | None, None => 0
  | l, r =>
      S (Nat.max (match l with Some l => height l | None => 0 end)
                 (match r with Some r => height r | None => 0 end))
  end.

(** The lists of depths that the leaves of a full tree can have: one leaf
    at depth 0, and what splitting a leaf in two gives when no leaf lies
    deeper than the two new ones. *)
Inductive splits : list nat -> Prop :=
| splits_leaf : splits [0]
| splits_split (D : nat) (rest : list nat) :
    splits (D :: rest) -> Forall (fun d => d <= S D) rest ->
    splits (S D :: S D :: rest)
| splits_perm (l l' : list nat) : l ≡ₚ l' -> splits l -> splits l'.

(** [greedy ws c]: merging the two lightest of the weights [ws] into
    their sum, again and again until one weight is left, adds up to [c]
    when each merge counts the sum it makes. *)
Inductive greedy : list N -> N -> Prop :=
| greedy_one (w : N) : greedy [w] 0%N
| greedy_merge (ws : list N) (a b : N) (rest : list N) (c : N) :
    ws ≡ₚ a :: b :: rest -> (a <= b)%N -> Forall (fun w => (b <= w)%N) rest ->
    greedy ((a + b)%N :: rest) c ->
    greedy ws (a + b + c)%N.

(** A node with one child gives way to the child: the full tree with the
    same leaves, none of them deeper. *)
Fixpoint contract (n : Huffman.HuffmanNode) : Huffman.HuffmanNode :=
  match Huffman.left n, Huffman.right n with
  | Some l, Some r =>
      Huffman.mkNode (Huffman.char n) (Huffman.freq n)
        (Some (contract l)) (Some (contract r))
  | Some c, None | None, Some c => contract c
  | None, None => n
  end.

(** ** The runtime model: basic facts *)

(** Comparisons stay folded under [simpl], to be decided by case. *)
#[local] Arguments Nat.leb : simpl never.
#[local] Arguments Nat.ltb : simpl never.
#[local] Arguments Nat.eqb : simpl never.

(** Induction on the length of a list: [IH] holds of every shorter list. *)
Ltac induction_on_length l IH :=
  let k := fresh "k" in
  let Hk := fresh "Hk" in
  remember (length l) as k eqn:Hk;
  revert l Hk; induction k as [k IH] using lt_wf_ind; intros l Hk.

Lemma bind_Ok {A B} (a : A) (k : A -> result B) : (x ← Ok a; k x) = k a.
Proof. reflexivity. Qed.

Lemma bind_Throw {A B} (e : error) (k : A -> result B) :
  (x ← Throw e; k x) = Throw e.
Proof. reflexivity. Qed.

Lemma strict_eq_eq (a b : value) : strict_eq a b = true -> a = b.
Proof.
  unfold strict_eq.
  destruct a, b; cbv beta iota; try discriminate;
    intros H; now apply bool_decide_eq_true in H.
Qed.

Lemma strict_eq_ne (a b : value) : a <> b -> strict_eq a b = false.
Proof.
  intros Hne. destruct (strict_eq a b) eqn:E; [|reflexivity].
  destruct Hne. now apply strict_eq_eq.
Qed.

Lemma data_length_elems (d : data) : data_length d = length (elems d).
Proof. destruct d; simpl; now rewrite ?length_map. Qed.

Lemma data_at_elems (d : data) (i : nat) :
  data_at d i = default VUndefined (elems d !! i).
Proof.
  destruct d as [|s|a]; simpl; [reflexivity| |];
    rewrite list_lookup_fmap; now destruct (_ !! i).
Qed.

Lemma data_at_drop (d : data) (i : nat) :
  i < length (elems d) ->
  drop i (elems d) = data_at d i :: drop (S i) (elems d).
Proof.
  intros Hi. rewrite data_at_elems.
  destruct (lookup_lt_is_Some_2 _ _ Hi) as [x Hx].
  rewrite Hx. simpl. now apply drop_S.
Qed.

Lemma join_units (s : jsstring) : join (map (fun c => VStr [c]) s) = s.
Proof.
  unfold join. induction s as [|c s IH]; simpl; [reflexivity|].
  now f_equal.
Qed.

Lemma empty_input_length (d : data) :
  is_empty_input d = false -> 0 < data_length d.
Proof.
  destruct d; simpl; try discriminate;
    intros H; apply Nat.eqb_neq in H; lia.
Qed.

(** ** Runs *)

Lemma runs_from_run_len (l : list value) : forall x n,
  runs_from x n l = (x, n + run_len x l) :: runs (drop (run_len x l) l).
Proof.
  induction l as [|y t IH]; intros x n; simpl.
  - now rewrite Nat.add_0_r.
  - destruct (strict_eq y x) eqn:E.
    + rewrite IH. simpl. now rewrite Nat.add_succ_r.
    + simpl. now rewrite Nat.add_0_r.
Qed.

Lemma runs_cons (x : value) (t : list value) :
  runs (x :: t) = (x, S (run_len x t)) :: runs (drop (run_len x t) t).
Proof. simpl. now rewrite runs_from_run_len. Qed.

Lemma run_len_le (x : value) (l : list value) : run_len x l <= length l.
Proof.
  induction l as [|y t IH]; simpl; [lia|].
  destruct (strict_eq y x); lia.
Qed.

Lemma run_len_replicate (x : value) (l : list value) :
  replicate (run_len x l) x ++ drop (run_len x l) l = l.
Proof.
  induction l as [|y t IH]; simpl; [reflexivity|].
  destruct (strict_eq y x) eqn:E; [|reflexivity].
  apply strict_eq_eq in E. subst y. simpl. now rewrite IH.
Qed.

(** The runs of a list, laid end to end, are the list. *)
Lemma flatten_runs (l : list value) : flatten (runs l) = l.
Proof.
  induction_on_length l IH.
  destruct l as [|x t]; [reflexivity|].
  rewrite runs_cons. unfold flatten in *. simpl.
  rewrite (IH (length (drop (run_len x t) t))).
  - now rewrite run_len_replicate.
  - subst k. rewrite length_drop. simpl. lia.
  - reflexivity.
Qed.

(** Every run holds at least one symbol. *)
Lemma runs_positive (l : list value) : Forall (fun g => 1 <= snd g) (runs l).
Proof.
  induction_on_length l IH.
  destruct l as [|x t]; [constructor|].
  rewrite runs_cons. constructor; [simpl; lia|].
  apply (IH (length (drop (run_len x t) t))); [|reflexivity].
  subst k. rewrite length_drop. simpl. lia.
Qed.

(** Runs are maximal: two neighbours hold different symbols. *)
Lemma runs_maximal (l : list value) (i : nat) (g g' : value * nat) :
  runs l !! i = Some g -> runs l !! S i = Some g' ->
  strict_eq (fst g') (fst g) = false.
Proof.
  remember (length l) as k eqn:Hk.
  revert l i Hk. induction k as [k IH] using lt_wf_ind. intros l i Hk.
  destruct l as [|x t]; [discriminate|].
  rewrite runs_cons.
  destruct i as [|i]; simpl.
  - intros [= <-]. simpl.
    pose proof (run_len_replicate x t) as Hr.
    destruct (drop (run_len x t) t) as [|y t'] eqn:Hd; [discriminate|].
    rewrite runs_cons. intros [= <-]. simpl.
    destruct (strict_eq y x) eqn:E; [|reflexivity].
    exfalso.
    assert (Hlen : run_len x t < length t).
    { assert (length (drop (run_len x t) t) = S (length t')) as Hl
        by now rewrite Hd.
      rewrite length_drop in Hl. lia. }
    clear IH Hk Hr. revert y t' Hd E Hlen.
    induction t as [|z t IHt]; intros y t' Hd E Hlen; simpl in *; [lia|].
    destruct (strict_eq z x) eqn:Ez.
    + simpl in Hd. apply (IHt y t' Hd E). lia.
    + simpl in Hd. injection Hd as -> _. congruence.
  - apply (IH (length (drop (run_len x t) t))); [|reflexivity].
    subst k. rewrite length_drop. simpl. lia.
Qed.

Lemma spec_adaptive_from_cons (pending : list value) (x : value) (n : nat)
    (rest : list (value * nat)) :
  spec_adaptive_from pending ((x, n) :: rest)
  = if 4 <=? n then
      flush pending ++ RLE.run x n :: spec_adaptive_from [] rest
    else if 2 <=? n then
      flush pending ++ RLE.short_run x n :: spec_adaptive_from [] rest
    else if length pending <? 255 then
      spec_adaptive_from (pending ++ [x]) rest
    else RLE.sequence pending :: spec_adaptive_from [x] rest.
Proof. reflexivity. Qed.

(** ** The loops of the run-length compressors *)

Section RLELoops.
Variable d : data.
Let len := length (elems d).

Lemma countRun_spec (cur : value) : forall fuel i count,
  len - (i + count) <= fuel ->
  RLE.countRun fuel d len i cur count
  = Ok (count + run_len cur (drop (i + count) (elems d))).
Proof.
  induction fuel as [|fuel IH]; intros i count Hfuel.
  - simpl. destruct (i + count <? len) eqn:Hlt.
    + apply Nat.ltb_lt in Hlt. lia.
    + apply Nat.ltb_ge in Hlt. simpl.
      rewrite drop_ge by (fold len; lia). simpl. now rewrite Nat.add_0_r.
  - simpl. destruct (i + count <? len) eqn:Hlt; simpl.
    + apply Nat.ltb_lt in Hlt.
      rewrite (data_at_drop d (i + count)) by exact Hlt. simpl.
      destruct (strict_eq (data_at d (i + count)) cur) eqn:E.
      * rewrite IH by lia.
        replace (i + S count) with (S (i + count)) by lia.
        f_equal. lia.
      * now rewrite Nat.add_0_r.
    + apply Nat.ltb_ge in Hlt.
      rewrite drop_ge by (fold len; lia). simpl. now rewrite Nat.add_0_r.
Qed.

(** At an index inside the input, the count the compressors compute is
    the length of the run that starts there. *)
Lemma countRun_runs (i : nat) :
  i < len ->
  exists count,
    RLE.countRun len d len i (data_at d i) 1 = Ok count
    /\ 1 <= count /\ i + count <= len
    /\ runs (drop i (elems d))
       = (data_at d i, count) :: runs (drop (i + count) (elems d)).
Proof.
  intros Hi.
  exists (1 + run_len (data_at d i) (drop (i + 1) (elems d))).
  split; [apply countRun_spec; lia|].
  pose proof (run_len_le (data_at d i) (drop (i + 1) (elems d))) as Hle.
  rewrite length_drop in Hle. fold len in Hle.
  split; [lia|]. split; [lia|].
  rewrite (data_at_drop d i) by exact Hi. rewrite runs_cons.
  replace (i + 1) with (S i) by lia.
  rewrite drop_drop. do 3 f_equal. lia.
Qed.

Lemma rleLoop_spec : forall fuel i acc,
  len - i <= fuel ->
  RLE.rleLoop fuel d len i acc
  = Ok (acc ++ map Some (spec_basic_items (drop i (elems d)))).
Proof.
  unfold spec_basic_items.
  induction fuel as [|fuel IH]; intros i acc Hfuel; simpl;
    destruct (i <? len) eqn:Hlt;
    try (apply Nat.ltb_ge in Hlt;
         rewrite drop_ge by (fold len; lia); simpl;
         now rewrite app_nil_r).
  - apply Nat.ltb_lt in Hlt. lia.
  - apply Nat.ltb_lt in Hlt.
    destruct (countRun_runs i Hlt) as (count & Hc & H1 & Hle & Hruns).
    rewrite Hc, bind_Ok, Hruns. simpl map.
    unfold spec_basic_item at 1. simpl fst. simpl snd.
    destruct (1 <? count); rewrite IH by lia;
      now rewrite <- app_assoc.
Qed.

Lemma flush_nonempty (seq : list value) :
  seq <> [] -> flush seq = [RLE.sequence seq].
Proof. now destruct seq. Qed.

(** A full sequence, or one followed by a run of two or more, closes. *)
Lemma spec_adaptive_close (seq : list value) (gs : list (value * nat)) :
  seq <> [] ->
  (255 <= length seq \/ match gs with (_, n) :: _ => 2 <= n | [] => True end) ->
  spec_adaptive_from seq gs = RLE.sequence seq :: spec_adaptive_from [] gs.
Proof.
  intros Hne Hclose. destruct gs as [|[x n] rest].
  - now apply flush_nonempty.
  - rewrite !spec_adaptive_from_cons. rewrite (flush_nonempty seq Hne).
    simpl flush. simpl app.
    destruct (4 <=? n) eqn:H4; [reflexivity|].
    destruct (2 <=? n) eqn:H2; [reflexivity|].
    apply Nat.leb_gt in H2.
    destruct Hclose as [Hfull|Hn]; [|lia].
    destruct (length seq <? 255) eqn:Hl; [apply Nat.ltb_lt in Hl; lia|].
    reflexivity.
Qed.

Lemma collectSingles_spec : forall fuel i seq,
  len - i <= fuel -> seq <> [] ->
  exists i' seq',
    RLE.collectSingles fuel d len i seq = Ok (i', seq')
    /\ i <= i' /\
    spec_adaptive_from seq (runs (drop i (elems d)))
    = RLE.sequence seq' :: spec_adaptive_from [] (runs (drop i' (elems d))).
Proof.
  induction fuel as [|fuel IH]; intros i seq Hfuel Hne; simpl.
  - destruct (i <? len) eqn:Hlt; [apply Nat.ltb_lt in Hlt; lia|].
    simpl. exists i, seq. split; [reflexivity|]. split; [lia|].
    apply spec_adaptive_close; [exact Hne|].
    apply Nat.ltb_ge in Hlt. right.
    now rewrite drop_ge by (fold len; lia).
  - destruct (i <? len) eqn:Hlt; simpl.
    2:{ exists i, seq. split; [reflexivity|]. split; [lia|].
        apply spec_adaptive_close; [exact Hne|].
        apply Nat.ltb_ge in Hlt. right.
        now rewrite drop_ge by (fold len; lia). }
    apply Nat.ltb_lt in Hlt.
    destruct (length seq <? 255) eqn:Hfull.
    2:{ exists i, seq. split; [reflexivity|]. split; [lia|].
        apply spec_adaptive_close; [exact Hne|].
        apply Nat.ltb_ge in Hfull. now left. }
    destruct (countRun_runs i Hlt) as (count & Hc & H1 & Hle & Hruns).
    rewrite Hc, bind_Ok, Hruns.
    destruct (2 <=? count) eqn:H2.
    + exists i, seq. split; [reflexivity|]. split; [lia|].
      rewrite <- Hruns.
      apply spec_adaptive_close; [exact Hne|].
      right. rewrite Hruns. now apply Nat.leb_le in H2.
    + apply Nat.leb_gt in H2. assert (count = 1) as -> by lia.
      destruct (IH (i + 1) (seq ++ [data_at d i])) as (i' & seq' & Hr & Hi' & Hs).
      * lia.
      * now destruct seq.
      * exists i', seq'. split; [exact Hr|]. split; [lia|].
        rewrite spec_adaptive_from_cons.
        replace (4 <=? 1) with false by reflexivity.
        replace (2 <=? 1) with false by reflexivity.
        rewrite Hfull. exact Hs.
Qed.

Lemma advancedLoop_spec : forall fuel i acc,
  len - i <= fuel ->
  RLE.advancedLoop fuel d len i acc
  = Ok (acc ++ map Some (spec_adaptive_items (drop i (elems d)))).
Proof.
  unfold spec_adaptive_items.
  induction fuel as [|fuel IH]; intros i acc Hfuel; simpl;
    destruct (i <? len) eqn:Hlt;
    try (apply Nat.ltb_ge in Hlt;
         rewrite drop_ge by (fold len; lia); simpl;
         now rewrite app_nil_r).
  - apply Nat.ltb_lt in Hlt. lia.
  - apply Nat.ltb_lt in Hlt.
    destruct (countRun_runs i Hlt) as (count & Hc & H1 & Hle & Hruns).
    rewrite Hc, bind_Ok, Hruns. rewrite spec_adaptive_from_cons.
    simpl flush. simpl app.
    destruct (4 <=? count) eqn:H4.
    { rewrite IH by lia. now rewrite <- app_assoc. }
    destruct (2 <=? count) eqn:H2.
    { rewrite IH by lia. now rewrite <- app_assoc. }
    apply Nat.leb_gt in H2. assert (count = 1) as -> by lia.
    destruct (collectSingles_spec len (i + 1) [data_at d i])
      as (i' & seq' & Hr & Hi' & Hs); [lia|discriminate|].
    rewrite Hr, bind_Ok. rewrite IH by lia.
    change (length [] <? 255) with true. cbv iota.
    simpl app at 2. rewrite Hs. now rewrite <- app_assoc.
Qed.
End RLELoops.

(** ** The run-length decompressors on what the compressors emit *)

Lemma expandRun_run (acc : list value) (x : value) (n : nat) :
  RLE.expandRun acc (RLE.run x n) = acc ++ replicate n x.
Proof. unfold RLE.expandRun, RLE.run. simpl. now rewrite Nat2Z.id. Qed.

Lemma expandRun_short_run (acc : list value) (x : value) (n : nat) :
  RLE.expandRun acc (RLE.short_run x n) = acc ++ replicate n x.
Proof. unfold RLE.expandRun, RLE.short_run. simpl. now rewrite Nat2Z.id. Qed.

Lemma flatten_cons (x : value) (n : nat) (gs : list (value * nat)) :
  flatten ((x, n) :: gs) = replicate n x ++ flatten gs.
Proof. reflexivity. Qed.

Lemma expandItems_basic (gs : list (value * nat)) :
  Forall (fun g => 1 <= snd g) gs ->
  forall acc,
    RLE.expandItems (map Some (map spec_basic_item gs)) acc
    = Ok (acc ++ flatten gs).
Proof.
  induction 1 as [|[x n] gs Hn _ IH]; intros acc.
  - simpl. now rewrite app_nil_r.
  - simpl in Hn. rewrite flatten_cons. simpl map.
    unfold spec_basic_item at 1. simpl fst. simpl snd.
    destruct (1 <? n) eqn:E.
    + simpl. rewrite IH, expandRun_run. now rewrite <- app_assoc.
    + apply Nat.ltb_ge in E. assert (n = 1) as -> by lia.
      simpl. rewrite IH. now rewrite <- app_assoc.
Qed.

Lemma expandItemsAdvanced_basic (gs : list (value * nat)) :
  Forall (fun g => 1 <= snd g) gs ->
  forall acc,
    RLE.expandItemsAdvanced (map Some (map spec_basic_item gs)) acc
    = Ok (acc ++ flatten gs).
Proof.
  induction 1 as [|[x n] gs Hn _ IH]; intros acc.
  - simpl. now rewrite app_nil_r.
  - simpl in Hn. rewrite flatten_cons. simpl map.
    unfold spec_basic_item at 1. simpl fst. simpl snd.
    destruct (1 <? n) eqn:E.
    + simpl. rewrite IH, expandRun_run. now rewrite <- app_assoc.
    + apply Nat.ltb_ge in E. assert (n = 1) as -> by lia.
      simpl. rewrite IH. now rewrite <- app_assoc.
Qed.

Lemma expandItemsAdvanced_flush (pending : list value) (rest : list RLE.item)
    (acc : list value) :
  RLE.expandItemsAdvanced (map Some (flush pending ++ rest)) acc
  = RLE.expandItemsAdvanced (map Some rest) (acc ++ pending).
Proof.
  destruct pending as [|v pending]; simpl.
  - now rewrite app_nil_r.
  - reflexivity.
Qed.

Lemma expandItemsAdvanced_adaptive (gs : list (value * nat)) :
  Forall (fun g => 1 <= snd g) gs ->
  forall pending acc,
    RLE.expandItemsAdvanced (map Some (spec_adaptive_from pending gs)) acc
    = Ok (acc ++ pending ++ flatten gs).
Proof.
  induction 1 as [|[x n] gs Hn _ IH]; intros pending acc.
  - simpl spec_adaptive_from.
    rewrite <- (app_nil_r (flush pending)), expandItemsAdvanced_flush.
    simpl. now rewrite app_nil_r.
  - simpl in Hn. rewrite spec_adaptive_from_cons, flatten_cons.
    destruct (4 <=? n) eqn:H4; [|destruct (2 <=? n) eqn:H2].
    + rewrite expandItemsAdvanced_flush. simpl.
      rewrite IH, expandRun_run. simpl. now rewrite <- !app_assoc.
    + rewrite expandItemsAdvanced_flush. simpl.
      rewrite IH, expandRun_short_run. simpl. now rewrite <- !app_assoc.
    + apply Nat.leb_gt in H2. assert (n = 1) as -> by lia.
      destruct (length pending <? 255).
      * rewrite IH. now rewrite <- !app_assoc.
      * simpl. rewrite IH. simpl. now rewrite <- !app_assoc.
Qed.

Lemma finish_elems (d : data) (items : option (list RLE.entry))
    (alg : option string) :
  is_empty_input d = false ->
  RLE.finish (elems d)
    (RLE.mkPayload items (Some (data_length d)) (Some (isArray d)) alg)
  = Ok (output_of d).
Proof.
  intros Hne. unfold RLE.finish. simpl.
  rewrite data_length_elems, bool_decide_eq_true_2 by reflexivity.
  destruct d as [|s|a]; simpl in *; [discriminate| |reflexivity].
  now rewrite join_units.
Qed.

(** ** What the run-length compressors return *)

Lemma rleCompress_spec (d : data) :
  is_empty_input d = false ->
  RLE.rleCompress d
  = Ok (RLE.mkPayload (Some (map Some (spec_basic_items (elems d))))
          (Some (data_length d)) (Some (isArray d)) None).
Proof.
  intros Hne. unfold RLE.rleCompress. rewrite Hne.
  rewrite data_length_elems, rleLoop_spec by lia.
  reflexivity.
Qed.

Lemma rleCompressAdvanced_spec (d : data) :
  is_empty_input d = false ->
  RLE.rleCompressAdvanced d
  = Ok (RLE.mkPayload (Some (map Some (spec_adaptive_items (elems d))))
          (Some (data_length d)) (Some (isArray d)) (Some "advanced_rle")).
Proof.
  intros Hne. unfold RLE.rleCompressAdvanced. rewrite Hne.
  rewrite data_length_elems, advancedLoop_spec by lia.
  reflexivity.
Qed.

Lemma rle_round_trip (d : data) :
  is_empty_input d = false ->
  (p ← RLE.rleCompress d; RLE.rleDecompress (Some p)) = Ok (output_of d).
Proof.
  intros Hne. rewrite (rleCompress_spec d Hne), bind_Ok.
  unfold RLE.rleDecompress, spec_basic_items. simpl RLE.compressed.
  cbv iota.
  rewrite expandItems_basic by apply runs_positive.
  rewrite bind_Ok, flatten_runs. simpl app.
  now apply finish_elems.
Qed.

Lemma rle_advanced_round_trip (d : data) :
  is_empty_input d = false ->
  (p ← RLE.rleCompressAdvanced d; RLE.rleDecompressAdvanced (Some p))
  = Ok (output_of d).
Proof.
  intros Hne. rewrite (rleCompressAdvanced_spec d Hne), bind_Ok.
  unfold RLE.rleDecompressAdvanced, spec_adaptive_items.
  simpl RLE.compressed. cbv iota.
  rewrite expandItemsAdvanced_adaptive by apply runs_positive.
  rewrite bind_Ok, flatten_runs. simpl app.
  now apply finish_elems.
Qed.

(** ** Unrecognized item types *)

Lemma expandItems_unknown (before rest : list RLE.entry) (bad : RLE.item) :
  Forall is_Some before -> ~ In (RLE.type bad) basic_types ->
  forall acc,
    RLE.expandItems (before ++ Some bad :: rest) acc
    = Throw UnknownItemTypeError.
Proof.
  intros Hbefore Hbad.
  induction Hbefore as [|e before [it ->] _ IH]; intros acc; simpl.
  - destruct (String.eqb_spec (RLE.type bad) "run") as [Hr|Hr].
    { destruct Hbad. rewrite Hr. simpl. tauto. }
    destruct (String.eqb_spec (RLE.type bad) "single") as [Hs|Hs].
    { destruct Hbad. rewrite Hs. simpl. tauto. }
    reflexivity.
  - destruct (String.eqb (RLE.type it) "run"); [apply IH|].
    destruct (String.eqb (RLE.type it) "single"); [apply IH|reflexivity].
Qed.

Lemma expandItemsAdvanced_unknown (before rest : list RLE.entry)
    (bad : RLE.item) :
  Forall spreadable before -> ~ In (RLE.type bad) advanced_types ->
  forall acc,
    RLE.expandItemsAdvanced (before ++ Some bad :: rest) acc
    = Throw UnknownItemTypeError.
Proof.
  intros Hbefore Hbad.
  induction Hbefore as [|[it|] before He _ IH]; intros acc; simpl.
  - destruct (String.eqb_spec (RLE.type bad) "run") as [Hr|Hr].
    { destruct Hbad. rewrite Hr. simpl. tauto. }
    destruct (String.eqb_spec (RLE.type bad) "short_run") as [Hh|Hh].
    { destruct Hbad. rewrite Hh. simpl. tauto. }
    simpl.
    destruct (String.eqb_spec (RLE.type bad) "sequence") as [Hq|Hq].
    { destruct Hbad. rewrite Hq. simpl. tauto. }
    destruct (String.eqb_spec (RLE.type bad) "single") as [Hs|Hs].
    { destruct Hbad. rewrite Hs. simpl. tauto. }
    reflexivity.
  - destruct (String.eqb (RLE.type it) "run"
              || String.eqb (RLE.type it) "short_run"); [apply IH|].
    destruct (String.eqb_spec (RLE.type it) "sequence") as [Hq|Hq].
    { destruct (He Hq) as [es ->]. apply IH. }
    destruct (String.eqb (RLE.type it) "single"); [apply IH|reflexivity].
  - destruct He.
Qed.

Lemma Exists_split {A : Type} (P : A -> Prop) (l : list A) :
  Exists P l -> exists before x rest, l = before ++ x :: rest /\ P x.
Proof.
  induction 1 as [x l Hx|y l _ (before & x & rest & -> & Hx)].
  - now exists [], x, l.
  - now exists (y :: before), x, rest.
Qed.

Lemma objects_are_objects (items : list RLE.item) :
  Forall is_Some (map Some items).
Proof.
  apply List.Forall_forall. intros e He.
  apply in_map_iff in He as (it & <- & _). now exists it.
Qed.

(** An array of objects with an item of a type [rleDecompress] does not
    know. *)
Lemma expandItems_objects_unknown (items : list RLE.item) :
  Exists (fun it => ~ In (RLE.type it) basic_types) items ->
  forall acc,
    RLE.expandItems (map Some items) acc = Throw UnknownItemTypeError.
Proof.
  intros Hex acc.
  apply Exists_split in Hex as (before & bad & rest & -> & Hbad).
  rewrite map_app. simpl map.
  apply expandItems_unknown; [apply objects_are_objects|exact Hbad].
Qed.

(** A [null] entry stops [rleDecompress] when the entries before it are
    items it knows. *)
Lemma expandItems_null (before rest : list RLE.entry) :
  Forall (known basic_types) before ->
  forall acc, RLE.expandItems (before ++ None :: rest) acc = Throw TypeError.
Proof.
  induction 1 as [|[it|] before He _ IH]; intros acc; simpl;
    [reflexivity| |destruct He].
  destruct He as [<-|[<-|[]]]; simpl; apply IH.
Qed.

(** What is not [spreadable]: [null], and a sequence item without
    elements. *)
Lemma not_spreadable (e : RLE.entry) :
  ~ spreadable e ->
  e = None
  \/ exists it, e = Some it /\ RLE.type it = "sequence"
                /\ RLE.elements it = None.
Proof.
  destruct e as [it|]; [|now left]. intros Hn. right. exists it.
  split; [reflexivity|].
  destruct (String.eqb_spec (RLE.type it) "sequence") as [Hq|Hq].
  - split; [exact Hq|].
    destruct (RLE.elements it) as [es|] eqn:E; [|reflexivity].
    destruct Hn. intros _. rewrite E. now exists es.
  - destruct Hn. intros Hq'. contradiction.
Qed.

(** A [null] entry or a sequence item without elements stops
    [rleDecompressAdvanced] when the entries before it are items it
    reads. *)
Lemma expandItemsAdvanced_unreadable (before rest : list RLE.entry)
    (bad : RLE.entry) :
  Forall (fun e => known advanced_types e /\ spreadable e) before ->
  ~ spreadable bad ->
  forall acc,
    RLE.expandItemsAdvanced (before ++ bad :: rest) acc = Throw TypeError.
Proof.
  intros Hbefore Hbad.
  induction Hbefore as [|[it|] before [He Hs] _ IH]; intros acc; simpl.
  - destruct (not_spreadable bad Hbad) as [->|(it & -> & Hq & Hel)];
      [reflexivity|].
    now rewrite Hq, Hel.
  - destruct He as [Ht|[Ht|[Ht|[Ht|[]]]]].
    + rewrite <- Ht. simpl. apply IH.
    + rewrite <- Ht. simpl. apply IH.
    + destruct (Hs (eq_sym Ht)) as [es Hes].
      rewrite <- Ht, Hes. simpl. apply IH.
    + rewrite <- Ht. simpl. apply IH.
  - destruct He.
Qed.

(** ** Sequences of symbols that do not repeat *)

Lemma runs_from_NoDup (l : list value) : forall x n,
  NoDup (x :: l) -> runs_from x n l = (x, n) :: map (fun y => (y, 1)) l.
Proof.
  induction l as [|y t IH]; intros x n Hnd; simpl; [reflexivity|].
  apply NoDup_cons in Hnd as [Hx Hnd].
  rewrite strict_eq_ne.
  - now rewrite IH.
  - intros ->. apply Hx. now left.
Qed.

Lemma runs_NoDup (l : list value) :
  NoDup l -> runs l = map (fun y => (y, 1)) l.
Proof.
  destruct l as [|x t]; [reflexivity|]. intros Hnd. simpl.
  now apply runs_from_NoDup.
Qed.

Lemma spec_adaptive_singles (l : list value) : forall pending gs,
  length pending + length l <= 255 ->
  spec_adaptive_from pending (map (fun y => (y, 1)) l ++ gs)
  = spec_adaptive_from (pending ++ l) gs.
Proof.
  induction l as [|y t IH]; intros pending gs Hlen.
  - simpl. now rewrite app_nil_r.
  - simpl map. simpl app. rewrite spec_adaptive_from_cons.
    replace (4 <=? 1) with false by reflexivity.
    replace (2 <=? 1) with false by reflexivity.
    simpl in Hlen.
    destruct (length pending <? 255) eqn:E;
      [|apply Nat.ltb_ge in E; lia].
    rewrite IH by (rewrite length_app; simpl; lia).
    now rewrite <- app_assoc.
Qed.

Lemma spec_adaptive_256 (l : list value) :
  length l = 256 -> NoDup l ->
  spec_adaptive_items l = [RLE.sequence (take 255 l); RLE.sequence (drop 255 l)].
Proof.
  intros Hlen Hnd. unfold spec_adaptive_items. rewrite (runs_NoDup l Hnd).
  rewrite <- (take_drop 255 l) at 1. rewrite map_app.
  rewrite spec_adaptive_singles
    by (rewrite length_take; change (length (@nil value)) with 0; lia).
  simpl app at 1.
  destruct (drop 255 l) as [|z [|z' t]] eqn:Hd.
  - apply (f_equal length) in Hd. rewrite length_drop in Hd. simpl in Hd. lia.
  - simpl map. rewrite spec_adaptive_from_cons.
    replace (4 <=? 1) with false by reflexivity.
    replace (2 <=? 1) with false by reflexivity.
    rewrite length_take, Hlen. reflexivity.
  - apply (f_equal length) in Hd. rewrite length_drop in Hd. simpl in Hd. lia.
Qed.

(** ** The run-length codecs: theorems *)

(** C9: [rleCompress] applied to the string "aaaabbbcc" returns exactly the
    items run(a,4), run(b,3), run(c,2), in this order, and [rleDecompress]
    of that payload returns "aaaabbbcc". In general the items of
    [rleCompress] are, run by run, a run item when the count exceeds 1 and
    a single item otherwise. *)
Theorem rleCompress_aaaabbbcc :
  RLE.rleCompress (DStr (js "aaaabbbcc"))
  = Ok (RLE.mkPayload
          (Some (map Some [RLE.run (VStr (js "a")) 4; RLE.run (VStr (js "b")) 3;
                           RLE.run (VStr (js "c")) 2]))
          (Some 9) (Some false) None)
  /\ (p ← RLE.rleCompress (DStr (js "aaaabbbcc")); RLE.rleDecompress (Some p))
     = Ok (OStr (js "aaaabbbcc"))
  /\ (forall d : data,
        is_empty_input d = false ->
        exists p, RLE.rleCompress d = Ok p
                  /\ RLE.compressed p
                     = Some (map Some (spec_basic_items (elems d)))).
Proof.
  split; [reflexivity|]. split; [reflexivity|].
  intros d Hne. eexists. split; [now apply rleCompress_spec|reflexivity].
Qed.

(** C10: the adaptive decoder accepts the single items of the basic codec,
    so it decodes what the basic compressor emits: for every non-empty
    input, [rleDecompressAdvanced(rleCompress(I))] is [I], a single item
    contributing its one symbol. *)
Theorem advanced_decodes_basic (d : data) :
  is_empty_input d = false ->
  (p ← RLE.rleCompress d; RLE.rleDecompressAdvanced (Some p))
  = Ok (output_of d)
  /\ (forall e rest acc,
        RLE.expandItemsAdvanced (Some (RLE.single e) :: rest) acc
        = RLE.expandItemsAdvanced rest (acc ++ [e])).
Proof.
  intros Hne. split; [|reflexivity].
  rewrite (rleCompress_spec d Hne), bind_Ok.
  unfold RLE.rleDecompressAdvanced, spec_basic_items.
  simpl RLE.compressed. cbv iota.
  rewrite expandItemsAdvanced_basic by apply runs_positive.
  rewrite bind_Ok, flatten_runs. simpl app.
  now apply finish_elems.
Qed.

(** The text "abbc": a single, a run and a single. *)
Lemma advanced_decodes_basic_abbc :
  (p ← RLE.rleCompress (DStr (js "abbc")); RLE.rleDecompressAdvanced (Some p))
  = Ok (output_of (DStr (js "abbc")))
  /\ (forall e rest acc,
        RLE.expandItemsAdvanced (Some (RLE.single e) :: rest) acc
        = RLE.expandItemsAdvanced rest (acc ++ [e])).
Proof. apply (advanced_decodes_basic (DStr (js "abbc"))). reflexivity. Defined.

(** C5: the items of [rleCompressAdvanced] classify the maximal runs of
    the input: a run of 4 or more is a run item, a run of 2 or 3 a
    short_run item, and the runs of 1 are gathered into sequence items of
    at most 255 symbols, a sequence ending before a run of 2 or more. So
    256 distinct symbols give two sequence items, of the first 255 symbols
    and of the last one. *)
Theorem rleCompressAdvanced_classifies (d : data) :
  is_empty_input d = false ->
  exists p,
    RLE.rleCompressAdvanced d = Ok p
    /\ RLE.compressed p = Some (map Some (spec_adaptive_items (elems d)))
    /\ (data_length d = 256 -> NoDup (elems d) ->
        RLE.compressed p
        = Some (map Some [RLE.sequence (take 255 (elems d));
                          RLE.sequence (drop 255 (elems d))])
        /\ length (take 255 (elems d)) = 255
        /\ length (drop 255 (elems d)) = 1).
Proof.
  intros Hne. eexists. split; [now apply rleCompressAdvanced_spec|].
  split; [reflexivity|]. intros Hlen Hnd. simpl RLE.compressed.
  rewrite data_length_elems in Hlen.
  rewrite spec_adaptive_256 by assumption.
  rewrite length_take, length_drop, Hlen. now split.
Qed.

(** The 256 bytes are 256 distinct symbols. *)
Lemma all_bytes_distinct :
  data_length (DArr all_bytes) = 256 /\ NoDup (elems (DArr all_bytes)).
Proof.
  split; [reflexivity|]. unfold elems, all_bytes.
  assert (Inj eq eq VNum) by (intros ? ? [=]; assumption).
  apply (NoDup_fmap_2 VNum), (NoDup_fmap_2 Z.of_nat), NoDup_seq.
Qed.

(** The scenario of the specification on the 256 bytes in order. *)
Lemma rleCompressAdvanced_classifies_bytes :
  exists p,
    RLE.rleCompressAdvanced (DArr all_bytes) = Ok p
    /\ RLE.compressed p
       = Some (map Some [RLE.sequence (take 255 (elems (DArr all_bytes)));
                         RLE.sequence (drop 255 (elems (DArr all_bytes)))]).
Proof.
  destruct (rleCompressAdvanced_classifies (DArr all_bytes) eq_refl)
    as (p & Hp & _ & H256).
  exists p. split; [exact Hp|].
  now apply H256; apply all_bytes_distinct.
Defined.




(** ** The heap: every operation keeps the nodes *)

Lemma insert_swap_out {A} (l : list A) : forall i x y,
  l !! i = Some x -> y :: l ≡ₚ x :: <[i:=y]> l.
Proof.
  induction l as [|a l IH]; intros [|i] x y Hi; simpl in *; try discriminate.
  - injection Hi as ->. apply perm_swap.
  - rewrite perm_swap. rewrite (IH i x y Hi). apply perm_swap.
Qed.

Lemma swap_length (heap : list Huffman.HuffmanNode) (i j : nat) :
  length (Huffman.swap heap i j) = length heap.
Proof.
  unfold Huffman.swap.
  destruct (heap !! i), (heap !! j); now rewrite ?length_insert.
Qed.

Lemma swap_perm (heap : list Huffman.HuffmanNode) (i j : nat) :
  Huffman.swap heap i j ≡ₚ heap.
Proof.
  unfold Huffman.swap.
  destruct (heap !! i) as [a|] eqn:Hi; [|reflexivity].
  destruct (heap !! j) as [b|] eqn:Hj; [|reflexivity].
  apply (Permutation_cons_inv (a := b)).
  rewrite (insert_swap_out heap i a b Hi).
  symmetry. apply insert_swap_out.
  destruct (decide (i = j)) as [->|Hne].
  - apply list_lookup_insert_eq. now apply lookup_lt_Some with a.
  - now rewrite list_lookup_insert_ne.
Qed.

Lemma freq_at_ok (heap : list Huffman.HuffmanNode) (i : nat) :
  i < length heap -> exists f, Huffman.freq_at heap i = Ok f.
Proof.
  intros Hi. unfold Huffman.freq_at.
  destruct (lookup_lt_is_Some_2 heap i Hi) as [n ->]. now eexists.
Qed.

Lemma getParentIndex_lt (index : nat) :
  0 < index -> Huffman.getParentIndex index < index.
Proof.
  intros H. unfold Huffman.getParentIndex.
  apply Nat.le_lt_trans with (index - 1); [|lia].
  apply Nat.Div0.div_le_upper_bound. lia.
Qed.

Lemma heapifyUp_ok : forall fuel heap index,
  index <= fuel -> index < length heap ->
  exists heap', Huffman.heapifyUp fuel heap index = Ok heap' /\ heap' ≡ₚ heap.
Proof.
  induction fuel as [|fuel IH]; intros heap index Hfuel Hidx; simpl.
  - replace (0 <? index) with false by (symmetry; apply Nat.ltb_ge; lia).
    now exists heap.
  - destruct (0 <? index) eqn:Hpos; [|now exists heap].
    apply Nat.ltb_lt in Hpos.
    pose proof (getParentIndex_lt index Hpos) as Hp.
    destruct (freq_at_ok heap (Huffman.getParentIndex index)) as [fp ->]; [lia|].
    destruct (freq_at_ok heap index) as [fi ->]; [lia|].
    rewrite !bind_Ok.
    destruct (fp <=? fi)%N; [now exists heap|].
    destruct (IH (Huffman.swap heap (Huffman.getParentIndex index) index)
                (Huffman.getParentIndex index)) as (heap' & -> & Hperm).
    + lia.
    + rewrite swap_length. lia.
    + exists heap'. split; [reflexivity|].
      now rewrite Hperm, swap_perm.
Qed.

Lemma insert_ok (heap : list Huffman.HuffmanNode) (node : Huffman.HuffmanNode) :
  exists heap', Huffman.insert heap node = Ok heap' /\ heap' ≡ₚ node :: heap.
Proof.
  unfold Huffman.insert.
  destruct (heapifyUp_ok (length (heap ++ [node])) (heap ++ [node])
              (length (heap ++ [node]) - 1)) as (heap' & -> & Hperm).
  - lia.
  - rewrite length_app. simpl. lia.
  - exists heap'. split; [reflexivity|].
    rewrite Hperm. symmetry. apply Permutation_cons_append.
Qed.

Lemma heapifyDown_ok : forall fuel heap index,
  length heap - index <= fuel ->
  exists heap', Huffman.heapifyDown fuel heap index = Ok heap' /\ heap' ≡ₚ heap.
Proof.
  induction fuel as [|fuel IH]; intros heap index Hfuel; simpl;
    unfold Huffman.getLeftChildIndex, Huffman.getRightChildIndex;
    destruct (2 * index + 1 <? length heap) eqn:Hl;
    try (now exists heap).
  - apply Nat.ltb_lt in Hl. lia.
  - apply Nat.ltb_lt in Hl.
    assert (Hsmall : exists s,
      (if 2 * index + 2 <? length heap
       then fr ← Huffman.freq_at heap (2 * index + 2);
            fl ← Huffman.freq_at heap (2 * index + 1);
            Ok (if (fr <? fl)%N then 2 * index + 2 else 2 * index + 1)
       else Ok (2 * index + 1)) = Ok s
      /\ index < s < length heap).
    { destruct (2 * index + 2 <? length heap) eqn:Hr.
      - apply Nat.ltb_lt in Hr.
        destruct (freq_at_ok heap (2 * index + 2) Hr) as [fr ->].
        destruct (freq_at_ok heap (2 * index + 1) Hl) as [fl ->].
        rewrite !bind_Ok. destruct (fr <? fl)%N; eexists; (split; [reflexivity|lia]).
      - eexists; (split; [reflexivity|lia]). }
    destruct Hsmall as (s & -> & Hs). rewrite bind_Ok.
    destruct (freq_at_ok heap index) as [fi ->]; [lia|].
    destruct (freq_at_ok heap s) as [fs ->]; [lia|].
    rewrite !bind_Ok.
    destruct (fi <=? fs)%N; [now exists heap|].
    destruct (IH (Huffman.swap heap index s) s) as (heap' & -> & Hperm).
    + rewrite swap_length. lia.
    + exists heap'. split; [reflexivity|].
      now rewrite Hperm, swap_perm.
Qed.

Lemma extractMin_ok (heap : list Huffman.HuffmanNode) :
  heap <> [] ->
  exists min heap',
    Huffman.extractMin heap = Ok (Some min, heap') /\ min :: heap' ≡ₚ heap.
Proof.
  intros Hne. destruct heap as [|min [|n rest]]; [congruence| |].
  - now exists min, [].
  - unfold Huffman.extractMin.
    set (heap := min :: n :: rest).
    assert (Hlast : <[0 := List.last heap min]> (removelast heap)
                    = List.last (n :: rest) min :: removelast (n :: rest))
      by reflexivity.
    rewrite Hlast.
    destruct (heapifyDown_ok
                (length (List.last (n :: rest) min :: removelast (n :: rest)))
                (List.last (n :: rest) min :: removelast (n :: rest)) 0)
      as (heap' & -> & Hperm); [lia|].
    exists min, heap'. split; [reflexivity|].
    subst heap. apply perm_skip. rewrite Hperm.
    rewrite (app_removelast_last min (l := n :: rest)) at 3 by discriminate.
    apply Permutation_cons_append.
Qed.

Lemma extractMin_nil : Huffman.extractMin [] = Ok (None, []).
Proof. reflexivity. Qed.

(** ** Trees *)

(** Induction on a node, with the property known of the children. *)
Lemma HuffmanNode_induction (P : Huffman.HuffmanNode -> Prop) :
  (forall c f l r, on_child P l -> on_child P r -> P (Huffman.mkNode c f l r)) ->
  forall n, P n.
Proof.
  intros H. fix IH 1. intros [c f l r].
  apply H; [destruct l as [l|]|destruct r as [r|]]; simpl;
    first [apply IH|exact I].
Qed.

Lemma leaves_leaf_of (e : jsstring * N) : leaves (leaf_of e) = [Some (fst e)].
Proof. reflexivity. Qed.

Lemma leaves_merged (l r : Huffman.HuffmanNode) :
  leaves (merged l r) = leaves l ++ leaves r.
Proof. reflexivity. Qed.

Lemma leaves_nonempty (n : Huffman.HuffmanNode) :
  two_children_sum n -> leaves n <> [].
Proof.
  induction n as [c f l r IHl IHr] using HuffmanNode_induction.
  destruct l as [l|], r as [r|]; simpl; try tauto; try discriminate.
  intros (_ & Hl & _) Happ. apply app_eq_nil in Happ as [Hnil _].
  now apply (IHl Hl).
Qed.

(** ** Building the tree *)

Lemma insertLeaves_ok (es : list (jsstring * N)) : forall heap,
  exists heap',
    Huffman.insertLeaves es heap = Ok heap' /\ heap' ≡ₚ map leaf_of es ++ heap.
Proof.
  induction es as [|[c f] es IH]; intros heap; simpl.
  - now exists heap.
  - destruct (insert_ok heap (Huffman.mkNode (Some c) f None None))
      as (heap1 & -> & H1).
    rewrite bind_Ok. destruct (IH heap1) as (heap' & -> & H').
    exists heap'. split; [reflexivity|].
    rewrite H', H1. symmetry. apply Permutation_middle.
Qed.

Lemma mergeStep_ok (heap : list Huffman.HuffmanNode) :
  2 <= length heap ->
  exists l r rest heap',
    Huffman.mergeStep heap = Ok heap'
    /\ heap ≡ₚ l :: r :: rest
    /\ heap' ≡ₚ merged l r :: rest.
Proof.
  intros Hlen. unfold Huffman.mergeStep.
  destruct (extractMin_ok heap) as (l & h1 & -> & Hl).
  { intros ->. simpl in Hlen. lia. }
  rewrite bind_Ok.
  destruct (extractMin_ok h1) as (r & h2 & -> & Hr).
  { intros ->. apply Permutation_length in Hl. simpl in Hl. lia. }
  rewrite bind_Ok. simpl Huffman.nonNull. rewrite !bind_Ok.
  destruct (insert_ok h2 (merged l r)) as (heap' & Hins & H').
  exists l, r, h2, heap'. split; [exact Hins|]. split; [|exact H'].
  now rewrite <- Hl, <- Hr.
Qed.

Section MergeLoop.
Variable P : Huffman.HuffmanNode -> Prop.
Hypothesis P_merged : forall l r, P l -> P r -> P (merged l r).

Lemma mergeStep_keeps (heap : list Huffman.HuffmanNode) :
  2 <= length heap -> Forall P heap ->
  exists heap',
    Huffman.mergeStep heap = Ok heap'
    /\ S (length heap') = length heap
    /\ Forall P heap'
    /\ flat_map leaves heap' ≡ₚ flat_map leaves heap.
Proof.
  intros Hlen HP.
  destruct (mergeStep_ok heap Hlen) as (l & r & rest & heap' & Hstep & Hh & H').
  exists heap'. split; [exact Hstep|].
  rewrite Hh in HP. apply Forall_cons in HP as [Pl HP].
  apply Forall_cons in HP as [Pr HP].
  split; [|split].
  - apply Permutation_length in Hh, H'. simpl in *. lia.
  - rewrite H'. apply Forall_cons. split; [now apply P_merged|exact HP].
  - rewrite (Permutation_flat_map leaves H'), (Permutation_flat_map leaves Hh).
    simpl. now rewrite <- app_assoc.
Qed.

Lemma mergeLoop_ok : forall fuel heap,
  length heap <= fuel -> heap <> [] -> Forall P heap ->
  exists root,
    Huffman.mergeLoop fuel heap = Ok [root]
    /\ P root /\ leaves root ≡ₚ flat_map leaves heap.
Proof.
  induction fuel as [|fuel IH]; intros heap Hfuel Hne HP.
  - destruct heap; [congruence|simpl in Hfuel; lia].
  - simpl. destruct (1 <? length heap) eqn:Hlen.
    + apply Nat.ltb_lt in Hlen.
      destruct (mergeStep_keeps heap Hlen HP) as (heap' & -> & Hl & HP' & Hlv).
      rewrite bind_Ok.
      destruct (IH heap') as (root & -> & Proot & Hroot).
      * lia.
      * intros ->. simpl in Hl. lia.
      * exact HP'.
      * exists root. split; [reflexivity|]. split; [exact Proot|].
        now rewrite Hroot.
    + apply Nat.ltb_ge in Hlen.
      destruct heap as [|root [|? ?]]; [congruence| |simpl in Hlen; lia].
      exists root. split; [reflexivity|].
      apply Forall_cons in HP as [Proot _]. split; [exact Proot|].
      simpl. now rewrite app_nil_r.
Qed.
End MergeLoop.

Lemma flat_map_leaves_leaf_of (es : list (jsstring * N)) :
  flat_map leaves (map leaf_of es) = map (fun e => Some (fst e)) es.
Proof. induction es as [|e es IH]; simpl; [reflexivity|now f_equal]. Qed.

(** What [buildHuffmanTree] returns, by the number of entries. *)
Lemma buildHuffmanTree_entries (t : object N) :
  match entries t with
  | [] => Huffman.buildHuffmanTree t = Ok None
  | [e] => Huffman.buildHuffmanTree t = Ok (Some (wrapper e))
  | es =>
      exists root,
        Huffman.buildHuffmanTree t = Ok (Some root)
        /\ two_children_sum root /\ labelled root
        /\ leaves root ≡ₚ map (fun e => Some (fst e)) es
  end.
Proof.
  unfold Huffman.buildHuffmanTree.
  destruct (insertLeaves_ok (entries t) []) as (heap & -> & Hheap).
  rewrite bind_Ok, app_nil_r in *.
  destruct (entries t) as [|e [|e' es]] eqn:Hes.
  - apply Permutation_nil_r in Hheap. subst heap. reflexivity.
  - simpl in Hheap. apply Permutation_singleton_r in Hheap. subst heap.
    destruct e as [c f]. reflexivity.
  - set (P := fun n => two_children_sum n /\ labelled n).
    assert (Hlen : length heap = S (S (length es))).
    { apply Permutation_length in Hheap. simpl in Hheap.
      now rewrite length_map in Hheap. }
    replace (length heap =? 1) with false
      by (symmetry; apply Nat.eqb_neq; lia).
    destruct (mergeLoop_ok P) with (fuel := length heap) (heap := heap)
      as (root & -> & [Hsum Hlab] & Hlv).
    + intros l r [? ?] [? ?]. split; simpl; [tauto|].
      split; [reflexivity|tauto].
    + lia.
    + intros ->. simpl in Hlen. lia.
    + rewrite Hheap. apply List.Forall_forall. intros n Hn.
      apply in_map_iff in Hn as ([c f] & <- & _). split; simpl; eauto.
    + rewrite bind_Ok. exists root. split; [reflexivity|].
      split; [exact Hsum|]. split; [exact Hlab|].
      rewrite Hlv, (Permutation_flat_map leaves Hheap).
      now rewrite flat_map_leaves_leaf_of.
Qed.

(** ** Objects *)

Section ObjectFacts.
Context {V : Type}.
Implicit Types (o : object V) (k : jsstring) (v : V).

Lemma get_set_eq o k v : get (set o k v) k = Some v.
Proof.
  induction o as [|[k' v'] o IH]; simpl.
  - now rewrite bool_decide_eq_true_2.
  - destruct (bool_decide (k' = k)) eqn:E; simpl; now rewrite E.
Qed.

Lemma get_set_ne o k k' v : k <> k' -> get (set o k v) k' = get o k'.
Proof.
  intros Hne. induction o as [|[k1 v1] o IH]; simpl.
  - now rewrite bool_decide_eq_false_2.
  - destruct (bool_decide (k1 = k)) eqn:E; simpl.
    + apply bool_decide_eq_true in E. subst k1.
      now rewrite bool_decide_eq_false_2.
    + now rewrite IH.
Qed.

Lemma get_Some_In o k v : get o k = Some v -> In (k, v) o.
Proof.
  induction o as [|[k1 v1] o IH]; simpl; [discriminate|].
  destruct (bool_decide (k1 = k)) eqn:E.
  - apply bool_decide_eq_true in E. intros [= ->]. left. now subst.
  - intros H. right. now apply IH.
Qed.

Lemma get_None_keys o k : get o k = None <-> ~ In k (map fst o).
Proof.
  induction o as [|[k1 v1] o IH]; simpl; [tauto|].
  destruct (bool_decide (k1 = k)) eqn:E.
  - apply bool_decide_eq_true in E. split; [discriminate|tauto].
  - apply bool_decide_eq_false in E. rewrite IH. tauto.
Qed.

Lemma get_is_Some_keys o k : is_Some (get o k) <-> In k (map fst o).
Proof.
  destruct (get o k) as [v|] eqn:E.
  - split; [intros _|eauto].
    apply get_Some_In in E. apply in_map_iff. now exists (k, v).
  - apply get_None_keys in E. split; [intros [? [=]]|tauto].
Qed.

Lemma keys_set o k v :
  forall k', In k' (map fst (set o k v)) <-> k' = k \/ In k' (map fst o).
Proof.
  intros k'. induction o as [|[k1 v1] o IH]; simpl; [intuition congruence|].
  destruct (bool_decide (k1 = k)) eqn:E; simpl.
  - apply bool_decide_eq_true in E. subst k1. intuition congruence.
  - rewrite IH. tauto.
Qed.

Lemma NoDup_keys_set o k v :
  NoDup (map fst o) -> NoDup (map fst (set o k v)).
Proof.
  induction o as [|[k1 v1] o IH]; simpl; intros Hnd.
  - apply NoDup_singleton.
  - apply NoDup_cons in Hnd as [Hk1 Hnd].
    destruct (bool_decide (k1 = k)) eqn:E; simpl.
    + apply NoDup_cons. now split.
    + apply bool_decide_eq_false in E.
      apply NoDup_cons. split; [|now apply IH].
      rewrite list_elem_of_In, keys_set. rewrite list_elem_of_In in Hk1.
      intros [->|?]; tauto.
Qed.

Lemma insert_by_index_perm (e : N * (jsstring * V)) l :
  insert_by_index e l ≡ₚ e :: l.
Proof.
  induction l as [|e' l IH]; simpl; [reflexivity|].
  destruct (fst e <=? fst e')%N; [reflexivity|].
  rewrite IH. apply perm_swap.
Qed.

(** [Object.entries] lists every property once. *)
Lemma entries_perm o : entries o ≡ₚ o.
Proof.
  unfold entries, index_entries.
  induction o as [|kv o IH]; [reflexivity|].
  rewrite filter_cons. simpl omap.
  destruct (decide (array_index (fst kv) = None)) as [E|E].
  - rewrite E. rewrite <- Permutation_middle. now rewrite IH.
  - destruct (array_index (fst kv)) as [n|]; [|congruence].
    simpl. rewrite insert_by_index_perm. simpl. now rewrite IH.
Qed.

Lemma get_In_NoDup o k v : NoDup (map fst o) -> In (k, v) o -> get o k = Some v.
Proof.
  induction o as [|[k1 v1] o IH]; simpl; [tauto|].
  intros Hnd [[= -> ->]|Hin].
  - now rewrite bool_decide_eq_true_2.
  - apply NoDup_cons in Hnd as [Hk1 Hnd].
    rewrite bool_decide_eq_false_2; [now apply IH|].
    intros ->. apply Hk1. rewrite list_elem_of_In.
    apply in_map_iff. now exists (k, v).
Qed.
End ObjectFacts.

(** ** The frequency table *)

Lemma fold_countSymbol (syms : list jsstring) : forall t : object N,
  NoDup (map fst t) ->
  NoDup (map fst (fold_left Huffman.countSymbol syms t))
  /\ forall k, In k (map fst (fold_left Huffman.countSymbol syms t))
               <-> In k syms \/ In k (map fst t).
Proof.
  induction syms as [|s syms IH]; intros t Hnd; simpl.
  - split; [exact Hnd|tauto].
  - destruct (IH (Huffman.countSymbol t s)) as [Hnd' Hkeys].
    { now apply NoDup_keys_set. }
    split; [exact Hnd'|].
    intros k. rewrite Hkeys. unfold Huffman.countSymbol.
    rewrite keys_set. intuition congruence.
Qed.

(** The keys of the frequency table are the symbols of the input, each
    once. *)
Lemma buildFrequencyTable_keys (d : data) (syms : list jsstring) :
  Huffman.symbols d = Ok syms ->
  exists t,
    Huffman.buildFrequencyTable d = Ok t
    /\ NoDup (map fst t)
    /\ forall k, In k (map fst t) <-> In k syms.
Proof.
  intros Hs. unfold Huffman.buildFrequencyTable. rewrite Hs, bind_Ok.
  eexists. split; [reflexivity|].
  destruct (fold_countSymbol syms []) as [Hnd Hkeys]; [constructor|].
  split; [exact Hnd|]. intros k. rewrite Hkeys. simpl. tauto.
Qed.

(** ** The code table *)

Lemma fold_left_ext {A B} (f g : A -> B -> A) (l : list B) :
  (forall a x, f a x = g a x) -> forall a, fold_left f l a = fold_left g l a.
Proof.
  intros Hfg. induction l as [|x l IH]; intros a; simpl; [reflexivity|].
  now rewrite Hfg, IH.
Qed.

Lemma fold_left_map {A B C} (f : A -> B -> A) (g : C -> B) (l : list C) :
  forall a, fold_left f (map g l) a = fold_left (fun a x => f a (g x)) l a.
Proof. induction l as [|x l IH]; intros a; simpl; [reflexivity|apply IH]. Qed.

(** [traverse] files the leaves under [node] one after the other. *)
Lemma traverse_paths (n : Huffman.HuffmanNode) : forall code codes,
  Huffman.traverse n code codes
  = fold_left (fun o p => set o (Huffman.char_key (fst p)) (code ++ snd p))
      (paths n) codes.
Proof.
  induction n as [c f l r IHl IHr] using HuffmanNode_induction.
  intros code codes.
  assert (Hchild : forall (b : bool) (m : option Huffman.HuffmanNode) o,
    on_child (fun n => forall code codes,
      Huffman.traverse n code codes
      = fold_left (fun o p => set o (Huffman.char_key (fst p)) (code ++ snd p))
          (paths n) codes) m ->
    match m with
    | Some m => Huffman.traverse m (code ++ [b]) o
    | None => o
    end
    = fold_left (fun o p => set o (Huffman.char_key (fst p)) (code ++ snd p))
        (map (fun p => (fst p, b :: snd p))
           (match m with Some m => paths m | None => [] end)) o).
  { intros b [m|] o Hm; simpl; [|reflexivity].
    rewrite Hm, fold_left_map. apply fold_left_ext.
    intros a x. simpl. now rewrite <- app_assoc. }
  destruct l as [l|], r as [r|]; simpl; rewrite ?app_nil_r;
    try reflexivity; rewrite ?fold_left_app.
  - pose proof (Hchild false (Some l) codes IHl) as Hl. simpl in Hl.
    rewrite <- Hl.
    now pose proof (Hchild true (Some r)
                      (Huffman.traverse l (code ++ [false]) codes) IHr) as Hr.
  - now pose proof (Hchild false (Some l) codes IHl) as Hl.
  - now pose proof (Hchild true (Some r) codes IHr) as Hr.
Qed.

Lemma paths_leaves (n : Huffman.HuffmanNode) : map fst (paths n) = leaves n.
Proof.
  induction n as [c f l r IHl IHr] using HuffmanNode_induction.
  destruct l as [l|], r as [r|]; simpl in *;
    rewrite ?map_app, ?map_map; simpl;
    rewrite ?map_id, ?app_nil_r; try reflexivity;
    try (change (map (fun x => fst x) (paths l)) with (map fst (paths l)));
    try (change (map (fun x => fst x) (paths r)) with (map fst (paths r)));
    congruence.
Qed.

(** The paths to two leaves are never one a prefix of the other. *)
Lemma paths_prefix (n : Huffman.HuffmanNode) : forall p q,
  In p (paths n) -> In q (paths n) -> snd p `prefix_of` snd q -> p = q.
Proof.
  induction n as [c f l r IHl IHr] using HuffmanNode_induction.
  intros p q Hp Hq Hpre.
  destruct (Huffman.isLeaf (Huffman.mkNode c f l r)) eqn:Hleaf.
  - simpl in Hp, Hq. rewrite Hleaf in Hp, Hq.
    destruct Hp as [<-|[]], Hq as [<-|[]]. reflexivity.
  - simpl in Hp, Hq. rewrite Hleaf in Hp, Hq.
    apply in_app_or in Hp, Hq.
    destruct Hp as [Hp|Hp], Hq as [Hq|Hq];
      apply in_map_iff in Hp as (p' & <- & Hp);
      apply in_map_iff in Hq as (q' & <- & Hq); simpl in Hpre.
    + destruct l as [l|]; [|destruct Hp]. simpl in IHl.
      apply prefix_cons_inv_2 in Hpre. now rewrite (IHl p' q' Hp Hq Hpre).
    + apply prefix_cons_inv_1 in Hpre. discriminate.
    + apply prefix_cons_inv_1 in Hpre. discriminate.
    + destruct r as [r|]; [|destruct Hp]. simpl in IHr.
      apply prefix_cons_inv_2 in Hpre. now rewrite (IHr p' q' Hp Hq Hpre).
Qed.

Lemma paths_nonempty (n : Huffman.HuffmanNode) (p : option jsstring * Huffman.bits) :
  Huffman.isLeaf n = false -> In p (paths n) -> snd p <> [].
Proof.
  intros Hleaf Hp. destruct n as [c f l r]. simpl in Hp. rewrite Hleaf in Hp.
  apply in_app_or in Hp as [Hp|Hp];
    apply in_map_iff in Hp as (p' & <- & _); discriminate.
Qed.

Lemma fold_set_get (kvs : list (jsstring * Huffman.bits)) :
  forall o : object Huffman.bits,
    NoDup (map fst kvs) -> NoDup (map fst o) ->
    let codes := fold_left (fun o p => set o (fst p) (snd p)) kvs o in
    NoDup (map fst codes)
    /\ (forall k c, In (k, c) kvs -> get codes k = Some c)
    /\ (forall k, ~ In k (map fst kvs) -> get codes k = get o k).
Proof.
  induction kvs as [|[k0 c0] kvs IH]; intros o Hnd Ho; simpl.
  - split; [exact Ho|]. split; [tauto|reflexivity].
  - simpl in Hnd. apply NoDup_cons in Hnd as [Hk0 Hnd].
    rewrite list_elem_of_In in Hk0.
    destruct (IH (set o k0 c0) Hnd (NoDup_keys_set o k0 c0 Ho))
      as (Hnd' & Hin & Hout).
    split; [exact Hnd'|]. split.
    + intros k c [[= -> ->]|Hkc]; [|now apply Hin].
      rewrite (Hout k Hk0). apply get_set_eq.
    + intros k Hk. rewrite Hout by tauto.
      apply get_set_ne. intros ->. tauto.
Qed.

(** The code table of a tree whose root is not a leaf and whose leaves
    have different keys: each leaf's key is filed with its path. *)
Lemma buildCodes_paths (root : Huffman.HuffmanNode) :
  Huffman.isLeaf root = false ->
  NoDup (map fst (key_paths root)) ->
  exists codes,
    Huffman.buildCodes (Some root) = Ok codes
    /\ NoDup (map fst codes)
    /\ forall k c, get codes k = Some c <-> In (k, c) (key_paths root).
Proof.
  intros Hleaf Hnd. unfold Huffman.buildCodes. simpl Huffman.nonNull.
  rewrite bind_Ok, Hleaf, traverse_paths. eexists. split; [reflexivity|].
  rewrite (fold_left_ext _ (fun o p => set o (fst (Huffman.char_key (fst p), snd p))
                                         (snd (Huffman.char_key (fst p), snd p))))
    by reflexivity.
  rewrite <- (fold_left_map (fun o p => set o (fst p) (snd p))
                (fun p => (Huffman.char_key (fst p), snd p))).
  fold (key_paths root).
  destruct (fold_set_get (key_paths root) [] Hnd) as (Hnd' & Hin & Hout);
    [constructor|].
  split; [exact Hnd'|]. intros k c. split; [|apply Hin].
  intros Hget.
  destruct (decide (k ∈ map fst (key_paths root))) as [Hk|Hk];
    rewrite list_elem_of_In in Hk.
  - apply in_map_iff in Hk as ([k' c'] & Hk' & Hkc). simpl in Hk'. subst k'.
    rewrite (Hin k c' Hkc) in Hget. now injection Hget as <-.
  - rewrite (Hout k Hk) in Hget. discriminate.
Qed.

(** ** The tree of a non-empty table *)

Lemma isLeaf_leaves (n : Huffman.HuffmanNode) :
  Huffman.isLeaf n = true -> leaves n = [Huffman.char n].
Proof. intros H. destruct n as [c f l r]. simpl. now rewrite H. Qed.

Lemma buildHuffmanTree_nonempty (t : object N) :
  t <> [] ->
  exists root,
    Huffman.buildHuffmanTree t = Ok (Some root)
    /\ Huffman.isLeaf root = false
    /\ labelled root
    /\ leaves root ≡ₚ map (fun e => Some (fst e)) t.
Proof.
  intros Hne. pose proof (buildHuffmanTree_entries t) as H.
  pose proof (entries_perm t) as Hperm.
  destruct (entries t) as [|e [|e' es]] eqn:Hes.
  - apply Permutation_nil in Hperm. congruence.
  - exists (wrapper e). split; [exact H|]. split; [reflexivity|].
    split; [simpl; eauto|]. simpl. now rewrite <- Hperm.
  - destruct H as (root & Hb & Hsum & Hlab & Hlv).
    exists root. split; [exact Hb|]. split; [|split; [exact Hlab|]].
    + destruct (Huffman.isLeaf root) eqn:Hleaf; [|reflexivity].
      apply Permutation_length in Hlv.
      rewrite (isLeaf_leaves root Hleaf) in Hlv. simpl in Hlv. lia.
    + now rewrite Hlv, Hperm.
Qed.

Lemma key_paths_keys (root : Huffman.HuffmanNode) (t : object N) :
  leaves root ≡ₚ map (fun e => Some (fst e)) t ->
  map fst (key_paths root) ≡ₚ map fst t.
Proof.
  intros Hlv. unfold key_paths. rewrite map_map. simpl.
  rewrite <- (map_map fst Huffman.char_key), paths_leaves, Hlv.
  rewrite map_map. reflexivity.
Qed.

(** ** The Huffman tree and code table: theorems *)

(** C3: for every frequency table with at least one symbol, the code table
    of its tree has exactly the symbols of the table as keys, each once and
    with a non-empty code, and no code is a prefix of the code of another
    symbol. A frequency table is an object whose keys are symbol keys, the
    keys the model of objects is written for. *)
Theorem code_table_prefix_free (t : object N) :
  NoDup (map fst t) -> Forall symbol_key (map fst t) -> t <> [] ->
  exists codes,
    (root ← Huffman.buildHuffmanTree t; Huffman.buildCodes root) = Ok codes
    /\ NoDup (map fst codes)
    /\ (forall k, In k (map fst t) <-> In k (map fst codes))
    /\ (forall k c, get codes k = Some c -> c <> [])
    /\ (forall k1 k2 c1 c2,
          k1 <> k2 -> get codes k1 = Some c1 -> get codes k2 = Some c2 ->
          ~ exists rest, c2 = c1 ++ rest).
Proof.
  intros Hnd _ Hne.
  destruct (buildHuffmanTree_nonempty t Hne) as (root & -> & Hleaf & _ & Hlv).
  rewrite bind_Ok.
  pose proof (key_paths_keys root t Hlv) as Hkeys.
  destruct (buildCodes_paths root Hleaf) as (codes & -> & Hnd' & Hget).
  { now rewrite Hkeys. }
  exists codes. split; [reflexivity|]. split; [exact Hnd'|].
  assert (Hpath : forall k c, get codes k = Some c ->
            exists p, In p (paths root)
                      /\ Huffman.char_key (fst p) = k /\ snd p = c).
  { intros k c Hk. apply Hget in Hk. unfold key_paths in Hk.
    apply in_map_iff in Hk as (p & [= <- <-] & Hp). now exists p. }
  split; [|split].
  - intros k. rewrite <- (get_is_Some_keys codes). split.
    + intros Hk. apply (Permutation_in _ (Permutation_sym Hkeys)) in Hk.
      apply in_map_iff in Hk as ([k' c] & <- & Hkc).
      exists c. now apply Hget.
    + intros [c Hc]. apply Hget in Hc. apply (Permutation_in _ Hkeys).
      apply in_map_iff. now exists (k, c).
  - intros k c Hk. destruct (Hpath k c Hk) as (p & Hp & _ & <-).
    now apply (paths_nonempty root).
  - intros k1 k2 c1 c2 Hk Hc1 Hc2 Hpre.
    destruct (Hpath k1 c1 Hc1) as (p1 & Hp1 & <- & <-).
    destruct (Hpath k2 c2 Hc2) as (p2 & Hp2 & <- & <-).
    apply Hk. now rewrite (paths_prefix root p1 p2 Hp1 Hp2 Hpre).
Qed.

(** The code table of the text "abcabc". *)
Lemma code_table_prefix_free_abc :
  exists codes,
    (root ← Huffman.buildHuffmanTree table_abc; Huffman.buildCodes root) = Ok codes
    /\ NoDup (map fst codes)
    /\ (forall k, In k (map fst table_abc) <-> In k (map fst codes))
    /\ (forall k c, get codes k = Some c -> c <> [])
    /\ (forall k1 k2 c1 c2,
          k1 <> k2 -> get codes k1 = Some c1 -> get codes k2 = Some c2 ->
          ~ exists rest, c2 = c1 ++ rest).
Proof.
  apply (code_table_prefix_free table_abc); [| |discriminate].
  - apply (bool_decide_unpack _). vm_compute. exact I.
  - repeat constructor; left; reflexivity.
Defined.

(** C6, as stated, fails: the tree of a table of one symbol is an internal
    node whose only child is the leaf. *)
Lemma single_symbol_tree_one_child :
  Huffman.buildHuffmanTree [(js "a", 5%N)]
  = Ok (Some (Huffman.mkNode None 5
                (Some (Huffman.mkNode (Some (js "a")) 5 None None)) None))
  /\ ~ every_tree_two_children_sum.
Proof.
  split; [reflexivity|]. intros H.
  exact (H [(js "a", 5%N)] _ eq_refl).
Qed.

(** C6 (amended): in the tree returned for a table of two or more symbols,
    every internal node has exactly two children and the sum of their
    frequencies as its frequency; the tree returned for a table of one
    symbol is the leaf under a parent of the same frequency with no right
    child. Each merge step takes two nodes out of the heap and puts in the
    node with these two as children and the sum of their frequencies. *)
Theorem buildHuffmanTree_two_children_sum (t : object N) :
  (2 <= length t ->
   exists root,
     Huffman.buildHuffmanTree t = Ok (Some root) /\ two_children_sum root)
  /\ (forall e, t = [e] ->
      Huffman.buildHuffmanTree t
      = Ok (Some (Huffman.mkNode None (snd e)
                    (Some (Huffman.mkNode (Some (fst e)) (snd e) None None))
                    None)))
  /\ (forall heap,
        2 <= length heap -> Forall two_children_sum heap ->
        exists l r rest heap',
          Huffman.mergeStep heap = Ok heap'
          /\ heap ≡ₚ l :: r :: rest
          /\ heap' ≡ₚ Huffman.mkNode None (Huffman.freq l + Huffman.freq r)%N
                        (Some l) (Some r) :: rest
          /\ Forall two_children_sum heap').
Proof.
  pose proof (buildHuffmanTree_entries t) as H.
  pose proof (entries_perm t) as Hperm.
  split; [|split].
  - intros Hlen. apply Permutation_length in Hperm.
    destruct (entries t) as [|e [|e' es]]; simpl in Hperm; try lia.
    destruct H as (root & Hb & Hsum & _). now exists root.
  - intros e ->. apply Permutation_singleton_r in Hperm.
    rewrite Hperm in H. exact H.
  - intros heap Hlen Hall.
    destruct (mergeStep_ok heap Hlen) as (l & r & rest & heap' & Hs & Hh & H').
    exists l, r, rest, heap'. split; [exact Hs|]. split; [exact Hh|].
    split; [exact H'|]. rewrite H'. rewrite Hh in Hall.
    apply Forall_cons in Hall as [Hl Hall].
    apply Forall_cons in Hall as [Hr Hall].
    apply Forall_cons. split; [simpl; tauto|exact Hall].
Qed.

(** ** Bits and bytes *)

Lemma byte_bits_parseBinary (chunk : Huffman.bits) :
  length chunk = 8 -> byte_bits (Huffman.parseBinary chunk) = chunk.
Proof.
  intros Hlen.
  do 9 (destruct chunk as [|? chunk]; try discriminate Hlen).
  repeat match goal with b : bool |- _ => destruct b end; reflexivity.
Qed.

Lemma padEnd_length (n : nat) (s : Huffman.bits) :
  length s <= n -> length (Huffman.padEnd n s) = n.
Proof.
  intros H. unfold Huffman.padEnd. rewrite length_app, length_replicate. lia.
Qed.

Lemma padding_add_8 (n : nat) : padding (8 + n) = padding n.
Proof.
  unfold padding. replace (8 + n) with (n + 1 * 8) by lia.
  now rewrite Nat.Div0.mod_add.
Qed.

Lemma padding_small (n : nat) : 0 < n < 8 -> padding n = 8 - n.
Proof.
  intros H. unfold padding.
  rewrite (Nat.mod_small n 8) by lia. apply Nat.mod_small. lia.
Qed.

Lemma packLoop_ok (encodedBits : Huffman.bits) : forall fuel i acc,
  length encodedBits - i <= fuel ->
  exists bytes,
    Huffman.packLoop fuel encodedBits i acc = Ok (acc ++ bytes)
    /\ flat_map byte_bits bytes
       = drop i encodedBits
         ++ replicate (padding (length encodedBits - i)) false.
Proof.
  induction fuel as [|fuel IH]; intros i acc Hfuel; simpl;
    destruct (i <? length encodedBits) eqn:Hlt;
    try (apply Nat.ltb_ge in Hlt; exists [];
         rewrite app_nil_r, drop_ge by lia;
         replace (length encodedBits - i) with 0 by lia;
         split; reflexivity).
  - apply Nat.ltb_lt in Hlt. lia.
  - apply Nat.ltb_lt in Hlt.
    destruct (IH (i + 8) (acc ++ [Huffman.parseBinary
                (Huffman.padEnd 8 (Huffman.slice i (i + 8) encodedBits))]))
      as (bytes & -> & Hbytes); [lia|].
    eexists (_ :: bytes). split; [now rewrite <- app_assoc|].
    simpl flat_map. rewrite Hbytes.
    unfold Huffman.slice. replace (i + 8 - i) with 8 by lia.
    rewrite byte_bits_parseBinary
      by (apply padEnd_length; rewrite length_take; lia).
    unfold Huffman.padEnd. rewrite length_take, length_drop.
    destruct (Nat.le_gt_cases (i + 8) (length encodedBits)) as [Hfull|Hlast].
    + replace (8 - 8 `min` (length encodedBits - i)) with 0 by lia.
      simpl replicate. rewrite app_nil_r, app_assoc.
      rewrite <- (drop_drop encodedBits 8 i), take_drop.
      replace (length encodedBits - i)
        with (8 + (length encodedBits - (i + 8))) by lia.
      now rewrite padding_add_8.
    + rewrite (drop_ge encodedBits (i + 8)) by lia.
      replace (length encodedBits - (i + 8)) with 0 by lia.
      replace (8 `min` (length encodedBits - i))
        with (length encodedBits - i) by lia.
      change (replicate (padding 0) false) with (@nil bool).
      rewrite !app_nil_r.
      rewrite take_ge by (rewrite length_drop; lia).
      now rewrite padding_small by lia.
Qed.

(** Packing, reading the bytes back and cutting the padding gives the
    bits. *)
Lemma pack_unpack (encodedBits : Huffman.bits) :
  exists encodedBytes,
    Huffman.packLoop (length encodedBits) encodedBits 0 [] = Ok encodedBytes
    /\ let bitString := flat_map byte_bits encodedBytes in
       match padding (length encodedBits) with
       | S n => take (length bitString - S n) bitString
       | 0 => bitString
       end = encodedBits.
Proof.
  destruct (packLoop_ok encodedBits (length encodedBits) 0 [])
    as (bytes & -> & Hbytes); [lia|].
  exists bytes. split; [reflexivity|]. simpl.
  rewrite Hbytes, Nat.sub_0_r, drop_0.
  destruct (padding (length encodedBits)) as [|n].
  - apply app_nil_r.
  - rewrite length_app, length_replicate.
    replace (length encodedBits + S n - S n) with (length encodedBits) by lia.
    now rewrite take_app_length.
Qed.

(** ** Serializing the tree *)

Lemma deserialize_serialize (n : Huffman.HuffmanNode) :
  labelled n -> Huffman.deserializeNode (Huffman.serializeNode n) = n.
Proof.
  induction n as [c f l r IHl IHr] using HuffmanNode_induction.
  destruct l as [l|], r as [r|]; simpl; try reflexivity;
    intros (-> & Hl & Hr); simpl in IHl, IHr;
    rewrite ?(IHl Hl), ?(IHr Hr); reflexivity.
Qed.

Lemma paths_unfold (n : Huffman.HuffmanNode) :
  paths n
  = if Huffman.isLeaf n then [(Huffman.char n, [])]
    else
      map (fun p => (fst p, false :: snd p))
        (match Huffman.left n with Some l => paths l | None => [] end)
      ++ map (fun p => (fst p, true :: snd p))
           (match Huffman.right n with Some r => paths r | None => [] end).
Proof. now destruct n. Qed.

Lemma paths_labelled (n : Huffman.HuffmanNode) :
  labelled n -> forall p, In p (paths n) -> is_Some (fst p).
Proof.
  induction n as [c f l r IHl IHr] using HuffmanNode_induction.
  intros Hlab p Hp. rewrite paths_unfold in Hp.
  destruct (Huffman.isLeaf (Huffman.mkNode c f l r)) eqn:Hleaf.
  - destruct l, r; try discriminate Hleaf.
    destruct Hp as [<-|[]]. exact Hlab.
  - assert (Hl : on_child labelled l /\ on_child labelled r).
    { destruct l, r; simpl in Hlab |- *; try tauto; discriminate Hleaf. }
    destruct Hl as [Hl Hr].
    apply in_app_or in Hp as [Hp|Hp];
      apply in_map_iff in Hp as (p' & <- & Hp); simpl in Hp |- *.
    + destruct l as [l|]; [now apply IHl|destruct Hp].
    + destruct r as [r|]; [now apply IHr|destruct Hp].
Qed.

(** ** Decoding *)

Lemma paths_child (n : Huffman.HuffmanNode) (ch : option jsstring)
    (b : bool) (c : Huffman.bits) :
  Huffman.isLeaf n = false -> In (ch, b :: c) (paths n) ->
  exists m,
    (if b then Huffman.right n else Huffman.left n) = Some m
    /\ In (ch, c) (paths m).
Proof.
  intros Hleaf Hp. destruct n as [c0 f l r]. simpl in Hp. rewrite Hleaf in Hp.
  simpl. apply in_app_or in Hp as [Hp|Hp];
    apply in_map_iff in Hp as ([ch' c'] & [= -> <- ->] & Hp).
  - destruct l as [l|]; [now exists l|destruct Hp].
  - destruct r as [r|]; [now exists r|destruct Hp].
Qed.

(** Reading the path to a leaf emits its character and returns to the
    root. *)
Lemma decodeLoop_path (root : Huffman.HuffmanNode) :
  Huffman.isLeaf root = false ->
  forall c n ch rest decoded,
    Huffman.isLeaf n = false -> In (ch, c) (paths n) ->
    Huffman.decodeLoop root n (c ++ rest) decoded
    = Huffman.decodeLoop root root rest (decoded ++ [Huffman.char_value ch]).
Proof.
  intros Hroot. induction c as [|b c IH]; intros n ch rest decoded Hn Hp.
  - now apply paths_nonempty in Hp.
  - destruct (paths_child n ch b c Hn Hp) as (m & Hm & Hpm).
    simpl. rewrite Hroot, Hm.
    destruct (Huffman.isLeaf m) eqn:Hleaf.
    + destruct m as [cm fm lm rm]. simpl in Hpm. rewrite Hleaf in Hpm.
      destruct Hpm as [[= <- <-]|[]]. reflexivity.
    + now apply IH.
Qed.

Lemma encode_codes (codes : object Huffman.bits) (syms : list jsstring) :
  (forall k, In k syms -> is_Some (get codes k)) ->
  forall acc,
    Huffman.encode codes syms acc = Ok (acc ++ flat_map (code_of codes) syms).
Proof.
  induction syms as [|k syms IH]; intros Hall acc; simpl.
  - now rewrite app_nil_r.
  - destruct (Hall k) as [c Hc]; [now left|].
    unfold code_of at 1. rewrite Hc. simpl.
    rewrite IH by (intros; apply Hall; now right).
    now rewrite <- app_assoc.
Qed.

Lemma decodeLoop_codes (root : Huffman.HuffmanNode)
    (codes : object Huffman.bits) (syms : list jsstring) :
  Huffman.isLeaf root = false ->
  (forall k, In k syms ->
     exists c, get codes k = Some c /\ In (Some k, c) (paths root)) ->
  forall decoded,
    Huffman.decodeLoop root root (flat_map (code_of codes) syms) decoded
    = Ok (decoded ++ map VStr syms).
Proof.
  intros Hroot. induction syms as [|k syms IH]; intros Hall decoded; simpl.
  - now rewrite app_nil_r.
  - destruct (Hall k) as (c & Hc & Hp); [now left|].
    unfold code_of at 1. rewrite Hc. simpl.
    rewrite (decodeLoop_path root Hroot c root (Some k)) by assumption.
    rewrite IH by (intros; apply Hall; now right).
    simpl. now rewrite <- app_assoc.
Qed.

(** ** Symbols and results *)

Lemma string_iterator_cons2 (c c2 : N) (t : jsstring) :
  string_iterator (c :: c2 :: t)
  = if is_high_surrogate c && is_low_surrogate c2
    then [c; c2] :: string_iterator t
    else [c] :: string_iterator (c2 :: t).
Proof. reflexivity. Qed.

Lemma string_iterator_concat (s : jsstring) : concat (string_iterator s) = s.
Proof.
  induction_on_length s IH.
  destruct s as [|c [|c2 t]]; [reflexivity|reflexivity|].
  rewrite string_iterator_cons2.
  destruct (is_high_surrogate c && is_low_surrogate c2);
    rewrite concat_cons.
  - rewrite (IH (length t)); [reflexivity| |reflexivity].
    subst k. simpl. lia.
  - rewrite (IH (length (c2 :: t))); [reflexivity| |reflexivity].
    subst k. simpl. lia.
Qed.

Lemma join_strings (l : list jsstring) : join (map VStr l) = concat l.
Proof.
  unfold join. rewrite map_map. simpl.
  induction l as [|x l IH]; simpl; [reflexivity|now rewrite IH].
Qed.

Lemma string_iterator_nonempty (s : jsstring) :
  s <> [] -> string_iterator s <> [].
Proof.
  destruct s as [|c [|c2 t]]; [congruence|discriminate|].
  simpl. destruct (_ && _); discriminate.
Qed.

(** [parseInt] reads a byte back from its decimal string. *)
Lemma parseInt_bytes :
  forallb (fun z => bool_decide (parseInt (ToString (VNum z)) = VNum z))
    all_bytes = true.
Proof. vm_compute. reflexivity. Qed.

Lemma parseInt_byte (z : Z) :
  (0 <= z < 256)%Z -> parseInt (ToString (VNum z)) = VNum z.
Proof.
  intros Hz. pose proof parseInt_bytes as H.
  rewrite forallb_forall in H.
  apply bool_decide_eq_true with (H := value_eq_dec _ _), H.
  unfold all_bytes. apply in_map_iff. exists (Z.to_nat z).
  split; [lia|]. apply in_seq. lia.
Qed.

Lemma symbols_ok (d : data) :
  is_empty_input d = false ->
  exists syms, Huffman.symbols d = Ok syms /\ syms <> [].
Proof.
  destruct d as [|s|a]; simpl; [discriminate| |]; intros Hne;
    apply Nat.eqb_neq in Hne; eexists; (split; [reflexivity|]).
  - apply string_iterator_nonempty. now destruct s.
  - now destruct a.
Qed.

(** The iterator yields code points, and the symbols of an input are
    symbol keys. *)
Lemma string_iterator_code_points (s : jsstring) :
  Forall (fun k => string_iterator k = [k]) (string_iterator s).
Proof.
  induction_on_length s IH.
  destruct s as [|c [|c2 t]]; [constructor|now repeat constructor|].
  rewrite string_iterator_cons2.
  destruct (is_high_surrogate c && is_low_surrogate c2) eqn:E;
    constructor.
  - rewrite string_iterator_cons2, E. reflexivity.
  - apply (IH (length t)); [subst k; simpl; lia|reflexivity].
  - reflexivity.
  - apply (IH (length (c2 :: t))); [subst k; simpl; lia|reflexivity].
Qed.

Lemma symbols_symbol_key (d : data) (syms : list jsstring) :
  Huffman.symbols d = Ok syms -> byte_input d -> Forall symbol_key syms.
Proof.
  destruct d as [|s|a]; simpl; [discriminate| |]; intros [= <-] Hb.
  - eapply Forall_impl; [apply string_iterator_code_points|].
    intros k Hk. now left.
  - induction Hb as [|z a Hz _ IH]; simpl; constructor; [|exact IH].
    right. now exists z.
Qed.

(** What the decompressor makes of the decoded symbols of an input. *)
Lemma decoded_output (d : data) (syms : list jsstring) :
  Huffman.symbols d = Ok syms -> byte_input d ->
  (if isArray d
   then OArr (map (fun char => parseInt (ToString char)) (map VStr syms))
   else OStr (join (map VStr syms)))
  = output_of d.
Proof.
  destruct d as [|s|a]; simpl; [discriminate| |]; intros [= <-] Hb.
  - now rewrite join_strings, string_iterator_concat.
  - f_equal. rewrite !map_map. simpl.
    induction Hb as [|z a Hz _ IH]; simpl; [reflexivity|].
    rewrite IH. f_equal. now apply parseInt_byte.
Qed.

(** ** What [huffmanCompress] returns *)

Lemma huffmanCompress_spec (d : data) :
  is_empty_input d = false ->
  exists syms root codes encodedBytes,
    Huffman.symbols d = Ok syms
    /\ Huffman.isLeaf root = false
    /\ labelled root
    /\ (forall k, In k syms ->
        exists c, get codes k = Some c /\ In (Some k, c) (paths root))
    /\ Huffman.packLoop (length (flat_map (code_of codes) syms))
         (flat_map (code_of codes) syms) 0 [] = Ok encodedBytes
    /\ Huffman.huffmanCompress d
       = Ok (Huffman.mkPayload (Some encodedBytes)
               (Some (Huffman.serializeNode root))
               (Some (data_length d))
               (Some (padding (length (flat_map (code_of codes) syms))))
               (Some (isArray d))).
Proof.
  intros Hne.
  destruct (symbols_ok d Hne) as (syms & Hsyms & Hsne).
  destruct (buildFrequencyTable_keys d syms Hsyms) as (t & Ht & Hnd & Hkeys).
  assert (Htne : t <> []).
  { intros ->. destruct syms as [|k syms]; [congruence|].
    destruct (proj2 (Hkeys k)); now left. }
  destruct (buildHuffmanTree_nonempty t Htne)
    as (root & Hroot & Hleaf & Hlab & Hlv).
  pose proof (key_paths_keys root t Hlv) as Hkp.
  destruct (buildCodes_paths root Hleaf) as (codes & Hcodes & _ & Hget).
  { now rewrite Hkp. }
  assert (Hall : forall k, In k syms ->
            exists c, get codes k = Some c /\ In (Some k, c) (paths root)).
  { intros k Hk. apply Hkeys in Hk.
    apply (Permutation_in _ (Permutation_sym Hkp)) in Hk.
    apply in_map_iff in Hk as ([k' c] & Hk' & Hkc). simpl in Hk'. subst k'.
    exists c. split; [now apply Hget|].
    unfold key_paths in Hkc.
    apply in_map_iff in Hkc as ([ch c'] & [= Hch ->] & Hp).
    destruct (paths_labelled root Hlab _ Hp) as [k' Hk']. simpl in Hk'.
    subst ch. simpl in Hch. now subst k'. }
  destruct (pack_unpack (flat_map (code_of codes) syms))
    as (encodedBytes & Hpack & _).
  exists syms, root, codes, encodedBytes.
  repeat (split; [assumption|]).
  unfold Huffman.huffmanCompress.
  rewrite Hne, Ht, bind_Ok, Hroot, bind_Ok, Hcodes, bind_Ok, Hsyms, bind_Ok.
  rewrite encode_codes, bind_Ok.
  - simpl app. rewrite Hpack, bind_Ok. reflexivity.
  - intros k Hk. destruct (Hall k Hk) as (c & -> & _). eauto.
Qed.

Lemma huffman_round_trip (d : data) :
  is_empty_input d = false -> byte_input d ->
  (p ← Huffman.huffmanCompress d; Huffman.huffmanDecompress (Some p))
  = Ok (output_of d).
Proof.
  intros Hne Hbytes.
  destruct (huffmanCompress_spec d Hne)
    as (syms & root & codes & encodedBytes
        & Hsyms & Hleaf & Hlab & Hall & Hpack & ->).
  rewrite bind_Ok. unfold Huffman.huffmanDecompress.
  simpl Huffman.encodedData. simpl Huffman.tree.
  simpl Huffman.deserializeTree. rewrite (deserialize_serialize root Hlab).
  simpl Huffman.paddingBits. simpl Huffman.isArrayData. cbv iota.
  destruct (pack_unpack (flat_map (code_of codes) syms))
    as (bytes' & Hpack' & Hbits).
  rewrite Hpack in Hpack'. injection Hpack' as <-.
  change (flat_map (fun byte => Huffman.padStart 8 (Huffman.toBinary byte))
            encodedBytes)
    with (flat_map byte_bits encodedBytes).
  cbv zeta in Hbits.
  assert (Hdec : Huffman.decodeLoop root root
            match padding (length (flat_map (code_of codes) syms)) with
            | S n => take (length (flat_map byte_bits encodedBytes) - S n)
                       (flat_map byte_bits encodedBytes)
            | 0 => flat_map byte_bits encodedBytes
            end [] = Ok (map VStr syms)).
  { rewrite Hbits. now rewrite (decodeLoop_codes root codes syms Hleaf Hall). }
  destruct (padding (length (flat_map (code_of codes) syms)));
    rewrite Hdec, bind_Ok;
    rewrite <- (decoded_output d syms Hsyms Hbytes);
    now destruct (isArray d).
Qed.

(** ** The codecs: theorems *)

(** C1: for every non-empty input, a string or an array of bytes, each
    decompressor applied to the payload of its compressor returns the
    input, as a string for a string and as an array for an array: Huffman,
    basic RLE and adaptive RLE. *)
Theorem codecs_round_trip (d : data) :
  is_empty_input d = false -> byte_input d ->
  (p ← Huffman.huffmanCompress d; Huffman.huffmanDecompress (Some p))
  = Ok (output_of d)
  /\ (p ← RLE.rleCompress d; RLE.rleDecompress (Some p)) = Ok (output_of d)
  /\ (p ← RLE.rleCompressAdvanced d; RLE.rleDecompressAdvanced (Some p))
     = Ok (output_of d).
Proof.
  intros Hne Hbytes. split; [|split].
  - now apply huffman_round_trip.
  - now apply rle_round_trip.
  - now apply rle_advanced_round_trip.
Qed.

(** The three round trips on [sample_bytes]. *)
Lemma codecs_round_trip_sample :
  (p ← Huffman.huffmanCompress sample_bytes; Huffman.huffmanDecompress (Some p))
  = Ok (output_of sample_bytes)
  /\ (p ← RLE.rleCompress sample_bytes; RLE.rleDecompress (Some p))
     = Ok (output_of sample_bytes)
  /\ (p ← RLE.rleCompressAdvanced sample_bytes; RLE.rleDecompressAdvanced (Some p))
     = Ok (output_of sample_bytes).
Proof.
  apply (codecs_round_trip sample_bytes); [reflexivity|].
  unfold byte_input, sample_bytes. repeat constructor; lia.
Defined.

Lemma is_empty_input_iff (d : data) :
  is_empty_input d = true <-> d = DAbsent \/ data_length d = 0.
Proof.
  destruct d as [|s|a]; simpl; rewrite ?Nat.eqb_eq;
    intuition (try discriminate; auto).
Qed.

(** C8: each of the three compressors fails with the empty-input error
    exactly when the input is absent or of length zero, and returns a
    payload for every other input. *)
Theorem empty_input_error (d : data) :
  (Huffman.huffmanCompress d = Throw EmptyInputError
   <-> d = DAbsent \/ data_length d = 0)
  /\ (RLE.rleCompress d = Throw EmptyInputError
      <-> d = DAbsent \/ data_length d = 0)
  /\ (RLE.rleCompressAdvanced d = Throw EmptyInputError
      <-> d = DAbsent \/ data_length d = 0)
  /\ (~ (d = DAbsent \/ data_length d = 0) ->
      (exists p, Huffman.huffmanCompress d = Ok p)
      /\ (exists p, RLE.rleCompress d = Ok p)
      /\ (exists p, RLE.rleCompressAdvanced d = Ok p)).
Proof.
  rewrite <- is_empty_input_iff.
  destruct (is_empty_input d) eqn:Hne.
  - unfold Huffman.huffmanCompress, RLE.rleCompress, RLE.rleCompressAdvanced.
    rewrite Hne. repeat split; auto; congruence.
  - destruct (huffmanCompress_spec d Hne) as (? & ? & ? & ? & _ & _ & _ & _ & _ & ->).
    rewrite (rleCompress_spec d Hne), (rleCompressAdvanced_spec d Hne).
    repeat split; try discriminate; eauto.
Qed.

Lemma decodeLoop_throws (root : Huffman.HuffmanNode) (bitString : Huffman.bits) :
  forall current decoded e,
    Huffman.decodeLoop root current bitString decoded = Throw e -> e = TypeError.
Proof.
  induction bitString as [|bit rest IH]; intros current decoded e; simpl.
  - discriminate.
  - destruct (Huffman.isLeaf root); [apply IH|].
    destruct (if bit then Huffman.right current else Huffman.left current)
      as [m|]; [|congruence].
    destruct (Huffman.isLeaf m); apply IH.
Qed.

Lemma huffmanDecompress_throws (p : Huffman.payload) (e : error) :
  Huffman.huffmanDecompress (Some p) = Throw e ->
  e = TypeError
  \/ (e = MalformedPayloadError
      /\ (Huffman.encodedData p = None \/ Huffman.tree p = None)).
Proof.
  unfold Huffman.huffmanDecompress.
  destruct (Huffman.encodedData p) as [bytes|];
    [|intros [= <-]; right; auto].
  destruct (Huffman.tree p) as [s|]; simpl;
    [|intros [= <-]; right; auto].
  match goal with
  | |- context [Huffman.decodeLoop ?r ?c ?b ?a] =>
      destruct (Huffman.decodeLoop r c b a) as [decoded|e'] eqn:Hdec
  end.
  - rewrite bind_Ok. destruct (Huffman.isArrayData p) as [[|]|]; discriminate.
  - rewrite bind_Throw. intros [= <-]. left.
    now apply decodeLoop_throws in Hdec.
Qed.

(** C2: [huffmanDecompress] never compares the number of decoded symbols
    with the recorded original length. [mismatched_payload] decodes to
    eight symbols against a recorded length of five and is returned as a
    string;
    the payload [huffmanCompress] makes of one surrogate pair records
    length 2 for one symbol; changing the recorded length of any payload
    changes nothing; and no payload fails with the length-mismatch error. *)
Theorem huffmanDecompress_ignores_originalLength :
  Huffman.huffmanDecompress (Some mismatched_payload) = Ok (OStr (js "aaaaaaaa"))
  /\ (exists p,
        Huffman.huffmanCompress (DStr [55357; 56832]%N) = Ok p
        /\ Huffman.originalLength p = Some 2
        /\ Huffman.symbols (DStr [55357; 56832]%N) = Ok [[55357; 56832]%N]
        /\ Huffman.huffmanDecompress (Some p) = Ok (OStr [55357; 56832]%N))
  /\ (forall p n,
        Huffman.huffmanDecompress
          (Some (Huffman.mkPayload (Huffman.encodedData p) (Huffman.tree p) n
                   (Huffman.paddingBits p) (Huffman.isArrayData p)))
        = Huffman.huffmanDecompress (Some p))
  /\ (forall p, Huffman.huffmanDecompress p <> Throw LengthMismatchError).
Proof.
  split; [reflexivity|]. split; [|split].
  - eexists. split; [reflexivity|]. repeat split.
  - reflexivity.
  - intros [p|]; [|discriminate]. intros H.
    apply huffmanDecompress_throws in H as [H|[H _]]; discriminate.
Qed.

(** C4, as stated, fails: a payload without original length, padding count
    and domain flag is decoded. *)
Lemma bare_payload_accepted :
  Huffman.huffmanDecompress (Some bare_payload) = Ok (OStr (js "aaaaaaaa"))
  /\ ~ every_missing_field_rejected.
Proof.
  split; [reflexivity|]. intros H.
  specialize (H bare_payload). discriminate H.
  unfold missing_field. simpl. tauto.
Qed.

(** C4 (amended): a payload that lacks its packed bytes or its serialized
    tree is rejected as malformed, and so is an absent payload; a payload
    that has both is never rejected as malformed, whatever other field it
    lacks. *)
Theorem malformed_payload (p : Huffman.payload) :
  Huffman.encodedData p = None \/ Huffman.tree p = None ->
  Huffman.huffmanDecompress (Some p) = Throw MalformedPayloadError
  /\ Huffman.huffmanDecompress None = Throw MalformedPayloadError
  /\ (forall q,
        Huffman.encodedData q <> None -> Huffman.tree q <> None ->
        Huffman.huffmanDecompress (Some q) <> Throw MalformedPayloadError).
Proof.
  intros Hmiss. split; [|split; [reflexivity|]].
  - unfold Huffman.huffmanDecompress.
    destruct Hmiss as [-> | ->]; [reflexivity|].
    now destruct (Huffman.encodedData p).
  - intros q Hd Ht H.
    apply huffmanDecompress_throws in H as [H|[_ [H|H]]];
      [discriminate|contradiction|contradiction].
Qed.

(** The scenario of the specification: the packed bytes are missing. *)
Lemma malformed_payload_without_bytes :
  Huffman.huffmanDecompress (Some payload_without_bytes)
  = Throw MalformedPayloadError
  /\ Huffman.huffmanDecompress None = Throw MalformedPayloadError
  /\ (forall q,
        Huffman.encodedData q <> None -> Huffman.tree q <> None ->
        Huffman.huffmanDecompress (Some q) <> Throw MalformedPayloadError).
Proof. apply (malformed_payload payload_without_bytes). now left. Defined.

(** ** The heap keeps its order *)

Lemma parent_child (i k : nat) :
  0 < i ->
  (Huffman.getParentIndex i = k <-> i = 2 * k + 1 \/ i = 2 * k + 2).
Proof.
  intros Hi. unfold Huffman.getParentIndex.
  pose proof (Nat.div_mod_eq (i - 1) 2) as Hdm.
  pose proof (Nat.mod_upper_bound (i - 1) 2) as Hm.
  lia.
Qed.

Lemma swap_lookup_l (heap : list Huffman.HuffmanNode) (i j : nat) :
  i < length heap -> j < length heap ->
  Huffman.swap heap i j !! i = heap !! j.
Proof.
  intros Hi Hj. unfold Huffman.swap.
  destruct (lookup_lt_is_Some_2 heap i Hi) as [a Ha].
  destruct (lookup_lt_is_Some_2 heap j Hj) as [b Hb].
  rewrite Ha, Hb. destruct (decide (i = j)) as [->|Hne].
  - rewrite list_lookup_insert_eq by (rewrite length_insert; lia). congruence.
  - rewrite list_lookup_insert_ne by congruence.
    now rewrite list_lookup_insert_eq by lia.
Qed.

Lemma swap_lookup_r (heap : list Huffman.HuffmanNode) (i j : nat) :
  i < length heap -> j < length heap ->
  Huffman.swap heap i j !! j = heap !! i.
Proof.
  intros Hi Hj. unfold Huffman.swap.
  destruct (lookup_lt_is_Some_2 heap i Hi) as [a Ha].
  destruct (lookup_lt_is_Some_2 heap j Hj) as [b Hb].
  rewrite Ha, Hb.
  now rewrite list_lookup_insert_eq by (rewrite length_insert; lia).
Qed.

Lemma swap_lookup_ne (heap : list Huffman.HuffmanNode) (i j x : nat) :
  x <> i -> x <> j -> Huffman.swap heap i j !! x = heap !! x.
Proof.
  intros Hi Hj. unfold Huffman.swap.
  destruct (heap !! i), (heap !! j); try reflexivity.
  now rewrite !list_lookup_insert_ne by congruence.
Qed.

Lemma freq_at_Ok (heap : list Huffman.HuffmanNode) (i : nat) (f : N) :
  Huffman.freq_at heap i = Ok f ->
  exists n, heap !! i = Some n /\ Huffman.freq n = f.
Proof.
  unfold Huffman.freq_at. destruct (heap !! i) as [n|]; [|discriminate].
  intros [= <-]. now exists n.
Qed.

Lemma heapifyUp_ordered : forall fuel heap k heap',
  k < length heap -> ordered_but_up heap k ->
  Huffman.heapifyUp fuel heap k = Ok heap' -> heap_ordered heap'.
Proof.
  induction fuel as [|fuel IH]; intros heap k heap' Hk [Hord Hgrand]; simpl;
    destruct (0 <? k) eqn:Hpos; try discriminate;
    try (intros [= <-]; apply Nat.ltb_ge in Hpos;
         intros i p c Hi; apply Hord; lia).
  apply Nat.ltb_lt in Hpos.
  set (q := Huffman.getParentIndex k).
  assert (Hq : q < k) by now apply getParentIndex_lt.
  destruct (Huffman.freq_at heap q) as [fp|] eqn:Hfp; [|discriminate].
  destruct (Huffman.freq_at heap k) as [fk|] eqn:Hfk; [|discriminate].
  rewrite !bind_Ok.
  apply freq_at_Ok in Hfp as (np & Hnp & <-).
  apply freq_at_Ok in Hfk as (nk & Hnk & <-).
  destruct (Huffman.freq np <=? Huffman.freq nk)%N eqn:Hle.
  - intros [= <-]. apply N.leb_le in Hle. intros i p c Hi Hp Hc.
    destruct (decide (i = k)) as [->|Hik]; [|now apply (Hord i)].
    fold q in Hp. congruence.
  - apply N.leb_gt in Hle. apply IH.
    + rewrite swap_length. lia.
    + assert (Hlq : q < length heap) by lia.
      split.
      * intros i p c Hi Hiq.
        assert (Hpi : Huffman.getParentIndex i < i) by now apply getParentIndex_lt.
        destruct (decide (i = k)) as [->|Hik].
        { fold q. rewrite swap_lookup_l, swap_lookup_r by assumption.
          rewrite Hnk, Hnp. intros [= <-] [= <-]. lia. }
        rewrite (swap_lookup_ne heap q k i) by assumption.
        destruct (decide (Huffman.getParentIndex i = k)) as [Hpk|Hpk].
        { rewrite Hpk, swap_lookup_r, Hnp by assumption. intros [= <-] Hc.
          apply (Hgrand i np c); auto. }
        destruct (decide (Huffman.getParentIndex i = q)) as [Hpq|Hpq].
        { rewrite Hpq, swap_lookup_l, Hnk by assumption. intros [= <-] Hc.
          assert (Huffman.freq np <= Huffman.freq c)%N; [|lia].
          apply (Hord i); auto. now rewrite Hpq. }
        rewrite swap_lookup_ne by assumption.
        intros Hp Hc. now apply (Hord i).
      * intros i g c Hq0 Hi Hiq.
        assert (Hpq : Huffman.getParentIndex q < q) by now apply getParentIndex_lt.
        rewrite (swap_lookup_ne heap q k (Huffman.getParentIndex q)) by lia.
        intros Hg.
        assert (Hgp : (Huffman.freq g <= Huffman.freq np)%N)
          by (apply (Hord q); auto; lia).
        destruct (decide (i = k)) as [->|Hik].
        { rewrite swap_lookup_r, Hnp by assumption. now intros [= <-]. }
        assert (i <> q) by (pose proof (getParentIndex_lt i Hi); lia).
        rewrite swap_lookup_ne by assumption. intros Hc.
        assert (Huffman.freq np <= Huffman.freq c)%N; [|lia].
        apply (Hord i); auto. now rewrite Hiq.
Qed.

Lemma push_ordered_but_up (heap : list Huffman.HuffmanNode)
    (node : Huffman.HuffmanNode) :
  heap_ordered heap -> ordered_but_up (heap ++ [node]) (length heap).
Proof.
  intros Hord. split.
  - intros i p c Hi Hne Hp Hc.
    assert (Hlt : i < length heap).
    { apply lookup_lt_Some in Hc. rewrite length_app in Hc. simpl in Hc. lia. }
    pose proof (getParentIndex_lt i Hi) as Hpi.
    rewrite lookup_app_l in Hp, Hc by lia. now apply (Hord i).
  - intros i g c Hk Hi Hpar Hg Hc.
    apply parent_child in Hpar; [|exact Hi].
    apply lookup_lt_Some in Hc. rewrite length_app in Hc. simpl in Hc. lia.
Qed.

(** The child [heapifyDown] compares with: the left one, or the right one
    when it is there and lighter. *)
Lemma smallest_child (heap : list Huffman.HuffmanNode) (k s : nat) :
  2 * k + 1 < length heap ->
  (if 2 * k + 2 <? length heap
   then fr ← Huffman.freq_at heap (2 * k + 2);
        fl ← Huffman.freq_at heap (2 * k + 1);
        Ok (if (fr <? fl)%N then 2 * k + 2 else 2 * k + 1)
   else Ok (2 * k + 1)) = Ok s ->
  exists ns,
    heap !! s = Some ns
    /\ (s = 2 * k + 1 \/ s = 2 * k + 2)
    /\ forall i c,
         i = 2 * k + 1 \/ i = 2 * k + 2 -> heap !! i = Some c ->
         (Huffman.freq ns <= Huffman.freq c)%N.
Proof.
  intros Hl.
  destruct (lookup_lt_is_Some_2 heap (2 * k + 1) Hl) as [nl Hnl].
  destruct (2 * k + 2 <? length heap) eqn:Hr.
  - apply Nat.ltb_lt in Hr.
    destruct (lookup_lt_is_Some_2 heap (2 * k + 2) Hr) as [nr Hnr].
    unfold Huffman.freq_at. rewrite Hnr, Hnl, !bind_Ok.
    destruct (Huffman.freq nr <? Huffman.freq nl)%N eqn:Hlt; intros [= <-].
    + apply N.ltb_lt in Hlt. exists nr. split; [exact Hnr|]. split; [now right|].
      intros i c [->| ->] Hc; rewrite Hc in *.
      * injection Hnl as <-. lia.
      * injection Hnr as <-. lia.
    + apply N.ltb_ge in Hlt. exists nl. split; [exact Hnl|]. split; [now left|].
      intros i c [->| ->] Hc; rewrite Hc in *.
      * injection Hnl as <-. lia.
      * injection Hnr as <-. lia.
  - apply Nat.ltb_ge in Hr. intros [= <-].
    exists nl. split; [exact Hnl|]. split; [now left|].
    intros i c [->| ->] Hc.
    + rewrite Hc in Hnl. injection Hnl as <-. lia.
    + apply lookup_lt_Some in Hc. lia.
Qed.

Lemma heapifyDown_ordered : forall fuel heap k heap',
  ordered_but_down heap k ->
  Huffman.heapifyDown fuel heap k = Ok heap' -> heap_ordered heap'.
Proof.
  assert (Hdone : forall heap k,
            ordered_but_down heap k -> length heap <= 2 * k + 1 ->
            heap_ordered heap).
  { intros heap k [Hord _] Hlen i p c Hi Hp Hc.
    destruct (decide (Huffman.getParentIndex i = k)) as [Hpar|Hpar];
      [|now apply (Hord i)].
    apply parent_child in Hpar; [|exact Hi].
    apply lookup_lt_Some in Hc. lia. }
  induction fuel as [|fuel IH]; intros heap k heap' Hinv; simpl;
    unfold Huffman.getLeftChildIndex, Huffman.getRightChildIndex;
    destruct (2 * k + 1 <? length heap) eqn:Hl; try discriminate;
    try (intros [= <-]; apply Nat.ltb_ge in Hl; now apply (Hdone heap k)).
  apply Nat.ltb_lt in Hl.
  match goal with
  | |- context [mbind _ ?e] =>
      match e with
      | (if _ then _ else _) => destruct e as [s|] eqn:Hs; [|discriminate]
      end
  end.
  rewrite bind_Ok.
  destruct (smallest_child heap k s Hl Hs) as (ns & Hns & Hsk & Hsmall).
  assert (Hslt : s < length heap) by now apply lookup_lt_Some in Hns.
  assert (Hklt : k < length heap) by lia.
  destruct (lookup_lt_is_Some_2 heap k Hklt) as [nk Hnk].
  unfold Huffman.freq_at. rewrite Hnk, Hns, !bind_Ok.
  destruct Hinv as [Hord Hgrand].
  assert (Hspos : 0 < s) by lia.
  assert (Hspar : Huffman.getParentIndex s = k) by (apply parent_child; lia).
  destruct (Huffman.freq nk <=? Huffman.freq ns)%N eqn:Hle.
  - intros [= <-]. apply N.leb_le in Hle. intros i p c Hi Hp Hc.
    destruct (decide (Huffman.getParentIndex i = k)) as [Hpar|Hpar];
      [|now apply (Hord i)].
    rewrite Hpar, Hnk in Hp. injection Hp as <-.
    apply parent_child in Hpar; [|exact Hi].
    specialize (Hsmall i c Hpar Hc). lia.
  - apply N.leb_gt in Hle. apply IH. split.
    + intros i p c Hi Hps.
      pose proof (getParentIndex_lt i Hi) as Hpi.
      destruct (decide (i = s)) as [->|His].
      { rewrite Hspar, swap_lookup_l, swap_lookup_r, Hns, Hnk by assumption.
        intros [= <-] [= <-]. lia. }
      destruct (decide (i = k)) as [->|Hik].
      { rewrite swap_lookup_l, Hns by assumption.
        rewrite swap_lookup_ne by lia.
        intros Hg [= <-]. apply (Hgrand s p ns); auto. }
      rewrite (swap_lookup_ne heap k s i) by assumption.
      destruct (decide (Huffman.getParentIndex i = k)) as [Hpar|Hpar].
      { rewrite Hpar, swap_lookup_l, Hns by assumption. intros [= <-] Hc.
        apply (Hsmall i c); [|exact Hc]. now apply parent_child in Hpar. }
      rewrite swap_lookup_ne by assumption.
      intros Hp Hc. now apply (Hord i).
    + intros i g c _ Hi Hpar.
      rewrite Hspar, swap_lookup_l, Hns by assumption. intros [= <-].
      assert (Hik : i <> k /\ i <> s)
        by (apply parent_child in Hpar; [lia|exact Hi]).
      rewrite swap_lookup_ne by tauto. intros Hc.
      apply (Hord i); auto; [lia|now rewrite Hpar].
Qed.

(** In an ordered heap the first node is the lightest. *)
Lemma heap_root_min (heap : list Huffman.HuffmanNode) (m : Huffman.HuffmanNode) :
  heap_ordered heap -> heap !! 0 = Some m ->
  forall i c, heap !! i = Some c -> (Huffman.freq m <= Huffman.freq c)%N.
Proof.
  intros Hord Hm i. induction i as [i IH] using lt_wf_ind. intros c Hc.
  destruct i as [|i]; [rewrite Hm in Hc; injection Hc as <-; lia|].
  pose proof (getParentIndex_lt (S i) ltac:(lia)) as Hp.
  destruct (lookup_lt_is_Some_2 heap (Huffman.getParentIndex (S i))) as [p Hpp].
  { apply lookup_lt_Some in Hc. lia. }
  specialize (IH _ Hp p Hpp).
  assert (Huffman.freq p <= Huffman.freq c)%N; [|lia].
  apply (Hord (S i)); auto. lia.
Qed.

Lemma removelast_lookup {A} (l : list A) (j : nat) (x : A) :
  removelast l !! j = Some x -> l !! j = Some x.
Proof.
  rewrite removelast_firstn_len. intros H.
  apply lookup_take_Some in H. tauto.
Qed.

Lemma insert_ordered (heap heap' : list Huffman.HuffmanNode)
    (node : Huffman.HuffmanNode) :
  heap_ordered heap -> Huffman.insert heap node = Ok heap' ->
  heap_ordered heap'.
Proof.
  intros Hord. unfold Huffman.insert. apply heapifyUp_ordered.
  - rewrite length_app. simpl. lia.
  - replace (length (heap ++ [node]) - 1) with (length heap)
      by (rewrite length_app; simpl; lia).
    now apply push_ordered_but_up.
Qed.

Lemma extractMin_ordered (heap heap' : list Huffman.HuffmanNode)
    (m : Huffman.HuffmanNode) :
  heap_ordered heap -> Huffman.extractMin heap = Ok (Some m, heap') ->
  heap_ordered heap'
  /\ Forall (fun n => (Huffman.freq m <= Huffman.freq n)%N) heap.
Proof.
  intros Hord Hex.
  assert (Hmin : heap !! 0 = Some m).
  { destruct heap as [|a [|b rest]]; try discriminate.
    - now injection Hex as -> _.
    - unfold Huffman.extractMin in Hex.
      destruct (Huffman.heapifyDown _ _ 0); [|discriminate].
      now injection Hex as -> _. }
  split.
  - destruct heap as [|a [|b rest]]; try discriminate.
    + injection Hex as _ <-. intros i p c _ Hp. discriminate.
    + unfold Huffman.extractMin in Hex.
      match type of Hex with
      | context [Huffman.heapifyDown ?f ?h 0] =>
          destruct (Huffman.heapifyDown f h 0) as [h'|] eqn:Hdown;
            [|discriminate];
          rewrite bind_Ok in Hex; injection Hex as _ <-;
          apply (heapifyDown_ordered f h 0 h'); [|exact Hdown]
      end.
      * split; [|intros; lia].
        intros i p c Hi Hpar.
        assert (Hp1 : 0 < Huffman.getParentIndex i) by lia.
        destruct i as [|i]; [lia|].
        destruct (Huffman.getParentIndex (S i)) as [|q] eqn:Hq; [lia|].
        change (<[0:=List.last (a :: b :: rest) a]> (removelast (a :: b :: rest)))
          with (List.last (b :: rest) a :: removelast (b :: rest)).
        intros Hp Hc.
        change (removelast (b :: rest) !! q = Some p) in Hp.
        change (removelast (b :: rest) !! i = Some c) in Hc.
        apply removelast_lookup in Hp, Hc.
        apply (Hord (S i)); [lia| |exact Hc]. now rewrite Hq.
  - apply Forall_lookup. intros i c Hc. now apply (heap_root_min heap m Hord Hmin i).
Qed.

(** ** The heap: theorems *)

(** X1: [insert] on an ordered heap succeeds, adds the node to the nodes
    of the heap and leaves the heap ordered. *)
Theorem insert_keeps_heap_order (heap : list Huffman.HuffmanNode)
    (node : Huffman.HuffmanNode) :
  heap_ordered heap ->
  exists heap',
    Huffman.insert heap node = Ok heap'
    /\ heap' ≡ₚ node :: heap
    /\ heap_ordered heap'.
Proof.
  intros Hord. destruct (insert_ok heap node) as (heap' & Hins & Hperm).
  exists heap'. split; [exact Hins|]. split; [exact Hperm|].
  now apply (insert_ordered heap heap' node).
Qed.

(** X2: [extractMin] on an ordered heap that is not empty returns a node
    no heavier than any node of the heap, removes this node and leaves the
    heap ordered; on the empty heap it returns [null]. *)
Theorem extractMin_returns_minimum (heap : list Huffman.HuffmanNode) :
  heap_ordered heap -> heap <> [] ->
  (exists m heap',
     Huffman.extractMin heap = Ok (Some m, heap')
     /\ m :: heap' ≡ₚ heap
     /\ Forall (fun n => (Huffman.freq m <= Huffman.freq n)%N) heap
     /\ heap_ordered heap')
  /\ Huffman.extractMin [] = Ok (None, []).
Proof.
  intros Hord Hne. split; [|reflexivity].
  destruct (extractMin_ok heap Hne) as (m & heap' & Hex & Hperm).
  destruct (extractMin_ordered heap heap' m Hord Hex) as [Hord' Hmin].
  now exists m, heap'.
Qed.

Lemma sample_heap_ordered : heap_ordered sample_heap.
Proof.
  intros i p c Hi Hp Hc.
  destruct i as [|[|[|i]]]; try lia; try discriminate;
    cbv in Hp, Hc; injection Hp as <-; injection Hc as <-; cbv; discriminate.
Qed.

(** A lighter leaf goes in: the order is kept. *)
Lemma insert_keeps_heap_order_sample :
  exists heap',
    Huffman.insert sample_heap (leaf_of (js "d", 0%N)) = Ok heap'
    /\ heap' ≡ₚ leaf_of (js "d", 0%N) :: sample_heap
    /\ heap_ordered heap'.
Proof.
  apply (insert_keeps_heap_order sample_heap). exact sample_heap_ordered.
Defined.

(** The lightest of the three leaves comes out. *)
Lemma extractMin_returns_minimum_sample :
  (exists m heap',
     Huffman.extractMin sample_heap = Ok (Some m, heap')
     /\ m :: heap' ≡ₚ sample_heap
     /\ Forall (fun n => (Huffman.freq m <= Huffman.freq n)%N) sample_heap
     /\ heap_ordered heap')
  /\ Huffman.extractMin [] = Ok (None, []).
Proof.
  apply (extractMin_returns_minimum sample_heap);
    [exact sample_heap_ordered|discriminate].
Defined.

Lemma insertLeaves_ordered (es : list (jsstring * N)) :
  forall heap heap',
    heap_ordered heap -> Huffman.insertLeaves es heap = Ok heap' ->
    heap_ordered heap'.
Proof.
  induction es as [|[c f] es IH]; intros heap heap' Hord; simpl.
  - now intros [= <-].
  - destruct (Huffman.insert heap (Huffman.mkNode (Some c) f None None))
      as [h1|] eqn:Hins; [|discriminate].
    rewrite bind_Ok. apply IH. now apply insert_ordered in Hins.
Qed.

(** X3: the heap [buildHuffmanTree] fills from the entries of a table is
    ordered, and each turn of its loop, on an ordered heap of two nodes or
    more, takes out the lightest node and then the lightest of the rest,
    puts their merge in and leaves the heap ordered: the two nodes merged
    are the two lightest. *)
Theorem mergeStep_merges_two_lightest (heap : list Huffman.HuffmanNode) :
  heap_ordered heap -> 2 <= length heap ->
  (exists l r rest heap',
     Huffman.mergeStep heap = Ok heap'
     /\ heap ≡ₚ l :: r :: rest
     /\ heap' ≡ₚ merged l r :: rest
     /\ (Huffman.freq l <= Huffman.freq r)%N
     /\ Forall (fun n => (Huffman.freq r <= Huffman.freq n)%N) rest
     /\ heap_ordered heap')
  /\ (forall es : list (jsstring * N),
        exists heap0,
          Huffman.insertLeaves es [] = Ok heap0
          /\ heap0 ≡ₚ map leaf_of es
          /\ heap_ordered heap0).
Proof.
  intros Hord Hlen. split.
  - unfold Huffman.mergeStep.
    destruct (extractMin_ok heap) as (l & h1 & Hex1 & Hp1).
    { intros ->. simpl in Hlen. lia. }
    destruct (extractMin_ordered heap h1 l Hord Hex1) as [Hord1 Hmin1].
    destruct (extractMin_ok h1) as (r & h2 & Hex2 & Hp2).
    { intros ->. apply Permutation_length in Hp1. simpl in Hp1. lia. }
    destruct (extractMin_ordered h1 h2 r Hord1 Hex2) as [Hord2 Hmin2].
    destruct (insert_ok h2 (merged l r)) as (heap' & Hins & Hp').
    exists l, r, h2, heap'.
    rewrite Hex1, bind_Ok, Hex2, bind_Ok. simpl Huffman.nonNull.
    rewrite !bind_Ok. split; [exact Hins|].
    split; [now rewrite <- Hp1, <- Hp2|]. split; [exact Hp'|].
    rewrite <- Hp2 in Hmin2. rewrite <- Hp1, <- Hp2 in Hmin1.
    apply Forall_cons in Hmin2 as [_ Hmin2].
    apply Forall_cons in Hmin1 as [_ Hmin1].
    apply Forall_cons in Hmin1 as [Hlr _].
    split; [exact Hlr|]. split; [exact Hmin2|].
    now apply (insert_ordered h2 heap' (merged l r)).
  - intros es. destruct (insertLeaves_ok es []) as (heap0 & Hins & Hp0).
    exists heap0. split; [exact Hins|]. rewrite app_nil_r in Hp0.
    split; [exact Hp0|].
    apply (insertLeaves_ordered es [] heap0); [|exact Hins].
    intros i p c _ Hp. discriminate.
Qed.

(** The leaves of weight 1 and 2 are merged, not the one of weight 3. *)
Lemma mergeStep_merges_two_lightest_sample :
  (exists l r rest heap',
     Huffman.mergeStep sample_heap = Ok heap'
     /\ sample_heap ≡ₚ l :: r :: rest
     /\ heap' ≡ₚ merged l r :: rest
     /\ (Huffman.freq l <= Huffman.freq r)%N
     /\ Forall (fun n => (Huffman.freq r <= Huffman.freq n)%N) rest
     /\ heap_ordered heap')
  /\ (forall es : list (jsstring * N),
        exists heap0,
          Huffman.insertLeaves es [] = Ok heap0
          /\ heap0 ≡ₚ map leaf_of es
          /\ heap_ordered heap0).
Proof.
  apply (mergeStep_merges_two_lightest sample_heap);
    [exact sample_heap_ordered|simpl; lia].
Defined.

(** ** Counting the symbols *)

Lemma get_countSymbol (t : object N) (s k : jsstring) :
  get (Huffman.countSymbol t s) k
  = if bool_decide (s = k) then Some (default 0 (get t k) + 1)%N else get t k.
Proof.
  unfold Huffman.countSymbol. destruct (bool_decide (s = k)) eqn:E.
  - apply bool_decide_eq_true in E. subst k. apply get_set_eq.
  - apply bool_decide_eq_false in E. now apply get_set_ne.
Qed.

Lemma get_fold_countSymbol (syms : list jsstring) (k : jsstring) :
  forall t : object N,
    get (fold_left Huffman.countSymbol syms t) k
    = if (occurrences k syms =? 0)%N then get t k
      else Some (default 0 (get t k) + occurrences k syms)%N.
Proof.
  induction syms as [|s syms IH]; intros t; simpl; [reflexivity|].
  rewrite IH, get_countSymbol.
  destruct (bool_decide (s = k)); simpl default.
  - destruct (occurrences k syms =? 0)%N eqn:E.
    + apply N.eqb_eq in E. rewrite E. reflexivity.
    + replace (1 + occurrences k syms =? 0)%N with false
        by (symmetry; apply N.eqb_neq; lia).
      f_equal. lia.
  - rewrite N.add_0_l. reflexivity.
Qed.

Lemma occurrences_In (k : jsstring) (syms : list jsstring) :
  occurrences k syms <> 0%N <-> In k syms.
Proof.
  induction syms as [|s syms IH]; simpl; [tauto|].
  destruct (bool_decide (s = k)) eqn:E.
  - apply bool_decide_eq_true in E. split; [auto|lia].
  - apply bool_decide_eq_false in E. rewrite N.add_0_l, IH. tauto.
Qed.

Lemma total_set_new (t : object N) (k : jsstring) (v : N) :
  get t k = None -> total (set t k v) = (total t + v)%N.
Proof.
  induction t as [|[k1 v1] t IH]; simpl; [intros _; lia|].
  destruct (bool_decide (k1 = k)); [discriminate|].
  intros H. simpl. rewrite (IH H). lia.
Qed.

Lemma total_set_old (t : object N) (k : jsstring) (v v' : N) :
  get t k = Some v -> (total (set t k v') + v = total t + v')%N.
Proof.
  induction t as [|[k1 v1] t IH]; simpl; [discriminate|].
  destruct (bool_decide (k1 = k)).
  - intros [= ->]. simpl. lia.
  - intros H. simpl. specialize (IH H). lia.
Qed.

Lemma total_fold_countSymbol (syms : list jsstring) : forall t : object N,
  total (fold_left Huffman.countSymbol syms t)
  = (total t + N.of_nat (length syms))%N.
Proof.
  induction syms as [|s syms IH]; intros t; simpl length.
  - simpl. lia.
  - simpl fold_left. rewrite IH. unfold Huffman.countSymbol.
    destruct (get t s) as [v|] eqn:E; simpl default.
    + pose proof (total_set_old t s v (v + 1) E). lia.
    + rewrite (total_set_new t s _ E). lia.
Qed.

(** X4: the frequency table of an input holds, for each symbol of the
    input, the number of times it occurs, and nothing for any other key;
    its keys are distinct and its frequencies add up to the number of
    symbols. *)
Theorem buildFrequencyTable_counts (d : data) (syms : list jsstring) :
  Huffman.symbols d = Ok syms ->
  exists t,
    Huffman.buildFrequencyTable d = Ok t
    /\ NoDup (map fst t)
    /\ (forall k, In k syms -> get t k = Some (occurrences k syms)
                              /\ occurrences k syms <> 0%N)
    /\ (forall k, ~ In k syms -> get t k = None)
    /\ total t = N.of_nat (length syms).
Proof.
  intros Hs. unfold Huffman.buildFrequencyTable. rewrite Hs, bind_Ok.
  eexists. split; [reflexivity|].
  destruct (fold_countSymbol syms []) as [Hnd _]; [constructor|].
  split; [exact Hnd|]. split; [|split].
  - intros k Hk. apply occurrences_In in Hk. split; [|exact Hk].
    rewrite get_fold_countSymbol.
    apply N.eqb_neq in Hk. rewrite Hk. simpl. f_equal.
  - intros k Hk. rewrite get_fold_countSymbol.
    replace (occurrences k syms =? 0)%N with true; [reflexivity|].
    symmetry. apply N.eqb_eq.
    destruct (N.eq_dec (occurrences k syms) 0%N) as [E|E]; [exact E|].
    now apply occurrences_In in E.
  - now rewrite total_fold_countSymbol.
Qed.

(** The table of the text "abracadabra". *)
Lemma buildFrequencyTable_counts_abracadabra :
  exists t,
    Huffman.buildFrequencyTable (DStr (js "abracadabra")) = Ok t
    /\ NoDup (map fst t)
    /\ (forall k, In k (string_iterator (js "abracadabra")) ->
          get t k = Some (occurrences k (string_iterator (js "abracadabra")))
          /\ occurrences k (string_iterator (js "abracadabra")) <> 0%N)
    /\ (forall k, ~ In k (string_iterator (js "abracadabra")) -> get t k = None)
    /\ total t = N.of_nat (length (string_iterator (js "abracadabra"))).
Proof.
  apply (buildFrequencyTable_counts (DStr (js "abracadabra"))). reflexivity.
Defined.

(** ** The leaves and the weight of the tree *)

Section MergeAdditive.
Context {A : Type}.
Variable f : Huffman.HuffmanNode -> list A.
Hypothesis f_merged : forall l r, f (merged l r) = f l ++ f r.

Lemma mergeLoop_additive : forall fuel heap,
  length heap <= fuel -> heap <> [] ->
  exists root,
    Huffman.mergeLoop fuel heap = Ok [root]
    /\ f root ≡ₚ flat_map f heap.
Proof.
  induction fuel as [|fuel IH]; intros heap Hfuel Hne.
  - destruct heap; [congruence|simpl in Hfuel; lia].
  - simpl. destruct (1 <? length heap) eqn:Hlen.
    + apply Nat.ltb_lt in Hlen.
      destruct (mergeStep_ok heap Hlen)
        as (l & r & rest & heap' & -> & Hh & H').
      rewrite bind_Ok.
      assert (Hl : S (length heap') = length heap).
      { apply Permutation_length in Hh, H'. simpl in *. lia. }
      destruct (IH heap') as (root & -> & Hroot).
      * lia.
      * intros ->. simpl in Hl. lia.
      * exists root. split; [reflexivity|].
        rewrite Hroot, (Permutation_flat_map f H'), (Permutation_flat_map f Hh).
        simpl. rewrite f_merged. now rewrite <- app_assoc.
    + apply Nat.ltb_ge in Hlen.
      destruct heap as [|root [|? ?]]; [congruence| |simpl in Hlen; lia].
      exists root. split; [reflexivity|]. simpl. now rewrite app_nil_r.
Qed.
End MergeAdditive.

Lemma total_perm (t t' : object N) : t ≡ₚ t' -> total t = total t'.
Proof.
  induction 1 as [|e t t' _ IH|e e' t|t t' t'' _ IH1 _ IH2]; simpl;
    [reflexivity|now rewrite IH|lia|congruence].
Qed.

Lemma freq_leaf_entries (n : Huffman.HuffmanNode) :
  two_children_sum n ->
  Huffman.freq n = total (map (fun e => ([], snd e)) (leaf_entries n)).
Proof.
  induction n as [c f l r IHl IHr] using HuffmanNode_induction.
  destruct l as [l|], r as [r|]; simpl; try tauto.
  - intros (-> & Hl & Hr). simpl in IHl, IHr.
    rewrite (IHl Hl), (IHr Hr), map_app. unfold total.
    rewrite fold_right_app.
    generalize (map (fun e : option jsstring * N => ([] : jsstring, snd e))
                  (leaf_entries l)).
    intros xs. induction xs as [|x xs IH]; simpl; [reflexivity|].
    rewrite <- IH. lia.
  - intros _. lia.
Qed.

(** X5: the tree of a table that is not empty has one leaf for each entry
    of the table, with the key and the frequency of the entry, and the
    frequency at its root is the sum of the frequencies of the table. *)
Theorem buildHuffmanTree_leaves_and_weight (t : object N) :
  t <> [] ->
  exists root,
    Huffman.buildHuffmanTree t = Ok (Some root)
    /\ leaf_entries root ≡ₚ map (fun e => (Some (fst e), snd e)) t
    /\ Huffman.freq root = total t.
Proof.
  intros Hne.
  pose proof (buildHuffmanTree_entries t) as Hb.
  pose proof (entries_perm t) as Hperm.
  assert (Htotal : forall es : list (jsstring * N),
            total (map (fun e => ([], snd e))
                     (map (fun e => (Some (fst e), snd e)) es))
            = total es).
  { intros es. induction es as [|e es IH]; simpl; [reflexivity|].
    now rewrite IH. }
  destruct (entries t) as [|e [|e' es]] eqn:Hes.
  - apply Permutation_nil in Hperm. congruence.
  - exists (wrapper e). split; [exact Hb|].
    apply Permutation_singleton_l in Hperm. subst t.
    split; [reflexivity|]. simpl. lia.
  - destruct Hb as (root & Hb & Hsum & _).
    exists root. split; [exact Hb|].
    assert (Hle : leaf_entries root
                  ≡ₚ map (fun e => (Some (fst e), snd e)) (e :: e' :: es)).
    { unfold Huffman.buildHuffmanTree in Hb. rewrite Hes in Hb.
      destruct (insertLeaves_ok (e :: e' :: es) []) as (heap & Hins & Hheap).
      rewrite Hins, bind_Ok, app_nil_r in *.
      assert (Hlen : length heap = S (S (length es))).
      { apply Permutation_length in Hheap. simpl in Hheap.
        now rewrite length_map in Hheap. }
      replace (length heap =? 1) with false in Hb
        by (symmetry; apply Nat.eqb_neq; lia).
      destruct (mergeLoop_additive leaf_entries) with (fuel := length heap)
        (heap := heap) as (root' & Hloop & Hroot');
        [reflexivity|lia|intros ->; simpl in Hlen; lia|].
      rewrite Hloop, bind_Ok in Hb. simpl in Hb. injection Hb as <-.
      rewrite Hroot', (Permutation_flat_map leaf_entries Hheap).
      clear. induction (e :: e' :: es) as [|x xs IH]; simpl; [reflexivity|].
      now rewrite IH. }
    split; [now rewrite Hle, Hperm|].
    rewrite (freq_leaf_entries root Hsum).
    rewrite (total_perm _ _ (Permutation_map _ Hle)), Htotal.
    now apply total_perm.
Qed.

(** The tree of the text "abcabc" weighs 6. *)
Lemma buildHuffmanTree_leaves_and_weight_abc :
  exists root,
    Huffman.buildHuffmanTree table_abc = Ok (Some root)
    /\ leaf_entries root ≡ₚ map (fun e => (Some (fst e), snd e)) table_abc
    /\ Huffman.freq root = total table_abc.
Proof. apply (buildHuffmanTree_leaves_and_weight table_abc). discriminate. Defined.

(** ** The payload of [huffmanCompress] *)

Lemma parseBinary_byte (chunk : Huffman.bits) :
  length chunk = 8 -> (Huffman.parseBinary chunk < 256)%N.
Proof.
  intros Hlen.
  do 9 (destruct chunk as [|? chunk]; try discriminate Hlen).
  repeat match goal with b : bool |- _ => destruct b end; reflexivity.
Qed.

Lemma packLoop_bytes (encodedBits : Huffman.bits) : forall fuel i acc bytes,
  Forall (fun b => (b < 256)%N) acc ->
  Huffman.packLoop fuel encodedBits i acc = Ok bytes ->
  Forall (fun b => (b < 256)%N) bytes.
Proof.
  induction fuel as [|fuel IH]; intros i acc bytes Hacc; simpl;
    destruct (i <? length encodedBits) eqn:Hlt; try discriminate;
    try (now intros [= <-]).
  apply IH. apply Forall_app. split; [exact Hacc|].
  constructor; [|constructor].
  apply parseBinary_byte, padEnd_length.
  unfold Huffman.slice. rewrite length_take. lia.
Qed.

Lemma encode_Ok (codes : object Huffman.bits) (syms : list jsstring) :
  forall acc bits,
    Huffman.encode codes syms acc = Ok bits ->
    bits = acc ++ flat_map (code_of codes) syms.
Proof.
  induction syms as [|k syms IH]; intros acc bits; simpl.
  - intros [= <-]. now rewrite app_nil_r.
  - unfold code_of at 1. destruct (get codes k) as [c|]; [|discriminate].
    intros H. apply IH in H. simpl. now rewrite H, <- app_assoc.
Qed.

Lemma byte_bits_length (b : N) : (b < 256)%N -> length (byte_bits b) = 8.
Proof.
  intros Hb.
  assert (H : forallb (fun z => length (byte_bits (Z.to_N z)) =? 8) all_bytes
              = true) by (vm_compute; reflexivity).
  rewrite forallb_forall in H.
  specialize (H (Z.of_N b)). rewrite N2Z.id in H.
  apply Nat.eqb_eq, H. unfold all_bytes.
  apply in_map_iff. exists (N.to_nat b). split; [lia|]. apply in_seq. lia.
Qed.

Lemma flat_map_byte_bits_length (bytes : list N) :
  Forall (fun b => (b < 256)%N) bytes ->
  length (flat_map byte_bits bytes) = 8 * length bytes.
Proof.
  induction 1 as [|b bytes Hb _ IH]; [reflexivity|].
  simpl flat_map. rewrite length_app, IH, (byte_bits_length b Hb).
  simpl length. lia.
Qed.

Lemma padding_lt_8 (n : nat) : padding n < 8.
Proof. unfold padding. apply Nat.mod_upper_bound. lia. Qed.

(** X6: the payload [huffmanCompress] returns for an input that is not
    empty. Its bytes are below 256 and its padding count is between 0 and
    7; read back as eight binary digits each, the bytes are the codes of
    the symbols of the input, in order, followed by as many zeros as the
    padding count; it records the length of the input, whether the input
    is an array, and the serialized tree the codes were read from. *)
Theorem huffmanCompress_payload (d : data) :
  is_empty_input d = false ->
  exists p syms t root codes encodedBytes pad,
    Huffman.huffmanCompress d = Ok p
    /\ Huffman.symbols d = Ok syms
    /\ Huffman.buildFrequencyTable d = Ok t
    /\ Huffman.buildHuffmanTree t = Ok root
    /\ Huffman.buildCodes root = Ok codes
    /\ Huffman.encodedData p = Some encodedBytes
    /\ Huffman.paddingBits p = Some pad
    /\ Huffman.tree p = Huffman.serializeTree root
    /\ Huffman.originalLength p = Some (data_length d)
    /\ Huffman.isArrayData p = Some (isArray d)
    /\ pad < 8
    /\ Forall (fun b => (b < 256)%N) encodedBytes
    /\ flat_map byte_bits encodedBytes
       = flat_map (code_of codes) syms ++ replicate pad false
    /\ 8 * length encodedBytes = length (flat_map (code_of codes) syms) + pad.
Proof.
  intros Hne.
  destruct (huffmanCompress_spec d Hne) as (? & ? & ? & ? & _ & _ & _ & _ & _ & Hc).
  revert Hc. unfold Huffman.huffmanCompress. rewrite Hne.
  destruct (Huffman.buildFrequencyTable d) as [t|] eqn:Ht; [|discriminate].
  rewrite bind_Ok.
  destruct (Huffman.buildHuffmanTree t) as [root|] eqn:Hroot; [|discriminate].
  rewrite bind_Ok.
  destruct (Huffman.buildCodes root) as [codes|] eqn:Hcodes; [|discriminate].
  rewrite bind_Ok.
  destruct (Huffman.symbols d) as [syms|] eqn:Hsyms; [|discriminate].
  rewrite bind_Ok.
  destruct (Huffman.encode codes syms []) as [bits|] eqn:Henc; [|discriminate].
  rewrite bind_Ok. apply encode_Ok in Henc. simpl in Henc. subst bits.
  destruct (packLoop_ok (flat_map (code_of codes) syms)
              (length (flat_map (code_of codes) syms)) 0 [])
    as (bytes & Hpack & Hbits); [lia|].
  rewrite Hpack, bind_Ok. simpl app. intros _.
  rewrite Nat.sub_0_r, drop_0 in Hbits.
  assert (Hbytes : Forall (fun b => (b < 256)%N) bytes)
    by (apply (packLoop_bytes _ _ _ _ _ (List.Forall_nil _) Hpack)).
  eexists _, syms, t, root, codes, bytes, _.
  split; [reflexivity|]. split; [reflexivity|]. split; [reflexivity|].
  split; [exact Hroot|]. split; [exact Hcodes|].
  do 5 (split; [reflexivity|]).
  split; [apply padding_lt_8|]. split; [exact Hbytes|]. split; [exact Hbits|].
  rewrite <- (flat_map_byte_bits_length bytes Hbytes), Hbits.
  now rewrite length_app, length_replicate.
Qed.

(** The payload of [sample_bytes]. *)
Lemma huffmanCompress_payload_sample :
  exists p syms t root codes encodedBytes pad,
    Huffman.huffmanCompress sample_bytes = Ok p
    /\ Huffman.symbols sample_bytes = Ok syms
    /\ Huffman.buildFrequencyTable sample_bytes = Ok t
    /\ Huffman.buildHuffmanTree t = Ok root
    /\ Huffman.buildCodes root = Ok codes
    /\ Huffman.encodedData p = Some encodedBytes
    /\ Huffman.paddingBits p = Some pad
    /\ Huffman.tree p = Huffman.serializeTree root
    /\ Huffman.originalLength p = Some (data_length sample_bytes)
    /\ Huffman.isArrayData p = Some (isArray sample_bytes)
    /\ pad < 8
    /\ Forall (fun b => (b < 256)%N) encodedBytes
    /\ flat_map byte_bits encodedBytes
       = flat_map (code_of codes) syms ++ replicate pad false
    /\ 8 * length encodedBytes = length (flat_map (code_of codes) syms) + pad.
Proof. apply (huffmanCompress_payload sample_bytes). reflexivity. Defined.

(** ** Serialized trees *)

Lemma serialized_induction (P : Huffman.serialized -> Prop) :
  (forall c f, P (Huffman.SLeaf c f)) ->
  (forall f l r,
     match l with Some l => P l | None => True end ->
     match r with Some r => P r | None => True end ->
     P (Huffman.SInternal f l r)) ->
  forall s, P s.
Proof.
  intros Hleaf Hint. fix IH 1. intros [c f|f l r]; [apply Hleaf|].
  apply Hint; [destruct l as [l|]|destruct r as [r|]];
    first [apply IH|exact I].
Qed.

Lemma serialize_deserialize (s : Huffman.serialized) :
  has_children s -> Huffman.serializeNode (Huffman.deserializeNode s) = s.
Proof.
  induction s as [c f|f l r IHl IHr] using serialized_induction;
    [reflexivity|].
  intros (Hsome & Hl & Hr).
  destruct l as [l|], r as [r|]; simpl;
    rewrite ?(IHl Hl), ?(IHr Hr); try reflexivity.
  destruct Hsome; congruence.
Qed.

(** X7: serializing and deserializing undo each other on the trees the
    codec builds and on the objects it writes: the tree of a table that is
    not empty, and any tree with characters on its leaves only, comes back
    from its serialized form; a serialized tree whose internal objects
    have a child each comes back from its tree. An internal object with no
    child does not: its node counts as a leaf and is written as one. *)
Theorem serialize_round_trips (t : object N) :
  t <> [] ->
  (exists root,
     Huffman.buildHuffmanTree t = Ok (Some root)
     /\ Huffman.deserializeTree (Huffman.serializeTree (Some root)) = Some root)
  /\ (forall n,
        labelled n ->
        Huffman.deserializeTree (Huffman.serializeTree (Some n)) = Some n)
  /\ (forall s,
        has_children s ->
        Huffman.serializeTree (Huffman.deserializeTree (Some s)) = Some s)
  /\ (forall f,
        Huffman.serializeTree
          (Huffman.deserializeTree (Some (Huffman.SInternal f None None)))
        = Some (Huffman.SLeaf None f)).
Proof.
  intros Hne. split; [|split; [|split]].
  - destruct (buildHuffmanTree_nonempty t Hne) as (root & Hb & _ & Hlab & _).
    exists root. split; [exact Hb|]. simpl.
    now rewrite (deserialize_serialize root Hlab).
  - intros n Hlab. simpl. now rewrite (deserialize_serialize n Hlab).
  - intros s Hs. simpl. now rewrite (serialize_deserialize s Hs).
  - reflexivity.
Qed.

(** The tree of the text "abcabc". *)
Lemma serialize_round_trips_abc :
  (exists root,
     Huffman.buildHuffmanTree table_abc = Ok (Some root)
     /\ Huffman.deserializeTree (Huffman.serializeTree (Some root)) = Some root)
  /\ (forall n,
        labelled n ->
        Huffman.deserializeTree (Huffman.serializeTree (Some n)) = Some n)
  /\ (forall s,
        has_children s ->
        Huffman.serializeTree (Huffman.deserializeTree (Some s)) = Some s)
  /\ (forall f,
        Huffman.serializeTree
          (Huffman.deserializeTree (Some (Huffman.SInternal f None None)))
        = Some (Huffman.SLeaf None f)).
Proof. apply (serialize_round_trips table_abc). discriminate. Defined.

(** ** The decoder on trees of one leaf *)

Lemma huffmanDecompress_kept_bits (encodedData : list N)
    (s : Huffman.serialized) (len pad : option nat) (arr : option bool) :
  Huffman.huffmanDecompress
    (Some (Huffman.mkPayload (Some encodedData) (Some s) len pad arr))
  = (decoded ← Huffman.decodeLoop (Huffman.deserializeNode s)
                 (Huffman.deserializeNode s) (kept_bits encodedData pad) [];
     Ok (decoded_output_of arr decoded)).
Proof.
  unfold Huffman.huffmanDecompress, kept_bits. simpl.
  change (flat_map (fun byte => Huffman.padStart 8 (Huffman.toBinary byte))
            encodedData)
    with (flat_map byte_bits encodedData).
  assert (Hbits :
    match pad with
    | Some (S n) =>
        take (length (flat_map byte_bits encodedData) - S n)
          (flat_map byte_bits encodedData)
    | _ => flat_map byte_bits encodedData
    end
    = take (length (flat_map byte_bits encodedData) - default 0 pad)
        (flat_map byte_bits encodedData)).
  { destruct pad as [[|n]|]; simpl default; try reflexivity;
      now rewrite Nat.sub_0_r, firstn_all. }
  rewrite Hbits.
  destruct (Huffman.decodeLoop _ _ _ _); [|reflexivity].
  rewrite !bind_Ok. now destruct arr as [[|]|].
Qed.

Lemma kept_bits_length (encodedData : list N) (pad : option nat) :
  Forall (fun b => (b < 256)%N) encodedData ->
  length (kept_bits encodedData pad) = 8 * length encodedData - default 0 pad.
Proof.
  intros Hb. unfold kept_bits.
  rewrite length_take, (flat_map_byte_bits_length encodedData Hb). lia.
Qed.

Lemma decodeLoop_leaf_root (root : Huffman.HuffmanNode) :
  Huffman.isLeaf root = true ->
  forall bitString current decoded,
    Huffman.decodeLoop root current bitString decoded
    = Ok (decoded
          ++ replicate (length bitString)
               (Huffman.char_value (Huffman.char root))).
Proof.
  intros Hleaf. induction bitString as [|bit rest IH]; intros current decoded.
  - simpl. now rewrite app_nil_r.
  - simpl. rewrite Hleaf, IH. now rewrite <- app_assoc.
Qed.

(** X8: when the tree of a payload is one leaf, [huffmanDecompress] never
    walks: whatever the bits are, it returns the character of the leaf
    once for every bit left after the padding is cut, eight times the
    number of bytes less the padding count. *)
Theorem huffmanDecompress_leaf_tree (encodedData : list N)
    (c : option jsstring) (f : N) (len pad : option nat) (arr : option bool) :
  Forall (fun b => (b < 256)%N) encodedData ->
  Huffman.huffmanDecompress
    (Some (Huffman.mkPayload (Some encodedData) (Some (Huffman.SLeaf c f))
             len pad arr))
  = Ok (decoded_output_of arr
          (replicate (8 * length encodedData - default 0 pad)
             (Huffman.char_value c))).
Proof.
  intros Hb. rewrite huffmanDecompress_kept_bits.
  rewrite decodeLoop_leaf_root by reflexivity.
  rewrite bind_Ok, (kept_bits_length encodedData pad Hb). reflexivity.
Qed.

(** Two bytes of arbitrary bits and three bits of padding: thirteen
    copies. *)
Lemma huffmanDecompress_leaf_tree_sample :
  Huffman.huffmanDecompress
    (Some (Huffman.mkPayload (Some [165; 7]%N)
             (Some (Huffman.SLeaf (Some (js "x")) 13)) (Some 13) (Some 3)
             (Some false)))
  = Ok (decoded_output_of (Some false)
          (replicate (8 * length [165; 7]%N - default 0 (Some 3))
             (Huffman.char_value (Some (js "x"))))).
Proof.
  apply huffmanDecompress_leaf_tree. repeat constructor.
Defined.

(** ** The decoder on the tree of one symbol *)

Lemma decodeLoop_single_symbol (k : jsstring) (f f' : N) :
  forall bitString decoded,
    Huffman.decodeLoop
      (Huffman.deserializeNode (single_symbol_tree k f f'))
      (Huffman.deserializeNode (single_symbol_tree k f f')) bitString decoded
    = if forallb negb bitString
      then Ok (decoded ++ replicate (length bitString) (VStr k))
      else Throw TypeError.
Proof.
  induction bitString as [|bit rest IH]; intros decoded.
  - simpl. now rewrite app_nil_r.
  - destruct bit; [reflexivity|].
    change (forallb negb (false :: rest)) with (forallb negb rest).
    simpl Huffman.decodeLoop. simpl in IH. rewrite IH.
    destruct (forallb negb rest); [|reflexivity].
    simpl. now rewrite <- app_assoc.
Qed.

(** X9: with the tree [huffmanCompress] makes of an input of one distinct
    symbol, a leaf under a parent with no right child, [huffmanDecompress]
    returns the symbol once for every bit when all the bits it walks are
    0, and throws a [TypeError], from reading the missing child, as soon
    as one of them is 1. *)
Theorem huffmanDecompress_single_symbol_tree (encodedData : list N)
    (k : jsstring) (f f' : N) (len pad : option nat) (arr : option bool) :
  Huffman.huffmanDecompress
    (Some (Huffman.mkPayload (Some encodedData)
             (Some (single_symbol_tree k f f')) len pad arr))
  = if forallb negb (kept_bits encodedData pad)
    then Ok (decoded_output_of arr
               (replicate (length (kept_bits encodedData pad)) (VStr k)))
    else Throw TypeError.
Proof.
  rewrite huffmanDecompress_kept_bits, decodeLoop_single_symbol.
  now destruct (forallb negb (kept_bits encodedData pad)).
Qed.

(** ** The decoder on bits that no encoder wrote *)

Lemma decodeLoop_incomplete (root : Huffman.HuffmanNode) :
  Huffman.isLeaf root = false ->
  forall pre n ch suf decoded,
    Huffman.isLeaf n = false -> In (ch, pre ++ suf) (paths n) -> suf <> [] ->
    Huffman.decodeLoop root n pre decoded = Ok decoded.
Proof.
  intros Hroot. induction pre as [|b pre IH]; intros n ch suf decoded Hn Hp Hs.
  - reflexivity.
  - destruct (paths_child n ch b (pre ++ suf) Hn Hp) as (m & Hm & Hpm).
    simpl. rewrite Hroot, Hm.
    destruct (Huffman.isLeaf m) eqn:Hleaf.
    + destruct m as [cm fm lm rm]. simpl in Hpm. rewrite Hleaf in Hpm.
      destruct Hpm as [[= _ Hnil]|[]].
      symmetry in Hnil. apply app_eq_nil in Hnil as [_ ?]. contradiction.
    + now apply (IH m ch suf).
Qed.

Lemma decodeLoop_paths (root : Huffman.HuffmanNode) :
  Huffman.isLeaf root = false ->
  forall ps rest decoded,
    Forall (fun p => In p (paths root)) ps ->
    Huffman.decodeLoop root root (flat_map snd ps ++ rest) decoded
    = Huffman.decodeLoop root root rest
        (decoded ++ map (fun p => Huffman.char_value (fst p)) ps).
Proof.
  intros Hroot. induction ps as [|[ch c] ps IH]; intros rest decoded Hps.
  - simpl. now rewrite app_nil_r.
  - apply List.Forall_cons_iff in Hps as [Hp Hps]. simpl.
    rewrite <- app_assoc.
    rewrite (decodeLoop_path root Hroot c root ch) by assumption.
    rewrite IH by assumption. now rewrite <- app_assoc.
Qed.

(** X10: a code cut short at the end of the bits is dropped without an
    error. When the bits [huffmanDecompress] walks are the paths to some
    leaves of the tree followed by the beginning of one more path, it
    returns the characters of those leaves and nothing for the rest. *)
Theorem huffmanDecompress_drops_incomplete_code (encodedData : list N)
    (s : Huffman.serialized) (len pad : option nat) (arr : option bool)
    (ps : list (option jsstring * Huffman.bits)) (ch : option jsstring)
    (pre suf : Huffman.bits) :
  Huffman.isLeaf (Huffman.deserializeNode s) = false ->
  Forall (fun p => In p (paths (Huffman.deserializeNode s))) ps ->
  In (ch, pre ++ suf) (paths (Huffman.deserializeNode s)) ->
  suf <> [] ->
  kept_bits encodedData pad = flat_map snd ps ++ pre ->
  Huffman.huffmanDecompress
    (Some (Huffman.mkPayload (Some encodedData) (Some s) len pad arr))
  = Ok (decoded_output_of arr
          (map (fun p => Huffman.char_value (fst p)) ps)).
Proof.
  intros Hroot Hps Hp Hsuf Hbits.
  rewrite huffmanDecompress_kept_bits, Hbits.
  rewrite (decodeLoop_paths _ Hroot ps pre []) by assumption.
  rewrite (decodeLoop_incomplete _ Hroot pre _ ch suf) by assumption.
  reflexivity.
Qed.

(** The byte 01011010 with one bit of padding: "a", "b", "c", "a" and a
    lone 1 that starts the code of "b" or "c". *)
Lemma huffmanDecompress_drops_incomplete_code_sample :
  Huffman.huffmanDecompress
    (Some (Huffman.mkPayload (Some [90%N]) (Some tree_abc) (Some 4) (Some 1)
             (Some false)))
  = Ok (decoded_output_of (Some false)
          (map (fun p => Huffman.char_value (fst p))
             [(Some (js "a"), [false]); (Some (js "b"), [true; false]);
              (Some (js "c"), [true; true]); (Some (js "a"), [false])])).
Proof.
  apply (huffmanDecompress_drops_incomplete_code [90%N] tree_abc (Some 4)
           (Some 1) (Some false) _ (Some (js "b")) [true] [false]).
  - reflexivity.
  - repeat constructor; vm_compute; tauto.
  - vm_compute. tauto.
  - discriminate.
  - reflexivity.
Defined.

Lemma full_children (n : Huffman.HuffmanNode) :
  full n -> Huffman.isLeaf n = false ->
  exists l r,
    Huffman.left n = Some l /\ Huffman.right n = Some r /\ full l /\ full r.
Proof.
  destruct n as [c f [l|] [r|]]; simpl; intros Hfull Hleaf;
    try contradiction; try discriminate.
  exists l, r. tauto.
Qed.

Lemma decodeLoop_full (root : Huffman.HuffmanNode) :
  full root ->
  forall bitString current decoded,
    full current ->
    (Huffman.isLeaf root = false -> Huffman.isLeaf current = false) ->
    exists out,
      Huffman.decodeLoop root current bitString decoded = Ok (decoded ++ out)
      /\ length out <= length bitString.
Proof.
  intros Hroot. induction bitString as [|bit rest IH];
    intros current decoded Hcur Hleaf.
  - exists []. simpl. now rewrite app_nil_r.
  - simpl. destruct (Huffman.isLeaf root) eqn:Hr.
    + destruct (IH current (decoded ++ [Huffman.char_value (Huffman.char root)])
                  Hcur) as (out & -> & Hlen); [discriminate|].
      exists (Huffman.char_value (Huffman.char root) :: out).
      rewrite <- app_assoc. split; [reflexivity|simpl; lia].
    + destruct (full_children current Hcur (Hleaf eq_refl))
        as (l & r & Hl & Hrt & Hfl & Hfr).
      assert (Hm : exists m,
                (if bit then Huffman.right current else Huffman.left current)
                = Some m /\ full m).
      { destruct bit; [exists r|exists l]; auto. }
      destruct Hm as (m & -> & Hfm).
      destruct (Huffman.isLeaf m) eqn:Hlm.
      * destruct (IH root (decoded ++ [Huffman.char_value (Huffman.char m)])
                    Hroot) as (out & -> & Hlen); [auto|].
        exists (Huffman.char_value (Huffman.char m) :: out).
        rewrite <- app_assoc. split; [reflexivity|simpl; lia].
      * destruct (IH m decoded Hfm) as (out & -> & Hlen); [auto|].
        exists out. split; [reflexivity|lia].
Qed.

(** X11: [huffmanDecompress] checks nothing about the bytes. When every
    node of the tree in the payload has two children or none, it returns
    a result for every list of bytes and every padding count, with at most
    one symbol for each bit it walks. *)
Theorem huffmanDecompress_full_tree_accepts_all (encodedData : list N)
    (s : Huffman.serialized) (len pad : option nat) (arr : option bool) :
  full (Huffman.deserializeNode s) ->
  exists decoded,
    Huffman.huffmanDecompress
      (Some (Huffman.mkPayload (Some encodedData) (Some s) len pad arr))
    = Ok (decoded_output_of arr decoded)
    /\ length decoded <= length (kept_bits encodedData pad).
Proof.
  intros Hfull. rewrite huffmanDecompress_kept_bits.
  destruct (decodeLoop_full _ Hfull (kept_bits encodedData pad)
              (Huffman.deserializeNode s) [] Hfull)
    as (out & -> & Hlen); [auto|].
  exists out. now rewrite bind_Ok.
Qed.

(** The tree of "a", "b" and "c" and two bytes it was never used on. *)
Lemma huffmanDecompress_full_tree_accepts_all_sample :
  exists decoded,
    Huffman.huffmanDecompress
      (Some (Huffman.mkPayload (Some [222; 173]%N) (Some tree_abc) None None
               None))
    = Ok (decoded_output_of None decoded)
    /\ length decoded <= length (kept_bits [222; 173]%N None).
Proof.
  apply (huffmanDecompress_full_tree_accepts_all [222; 173]%N tree_abc).
  simpl. tauto.
Defined.

(** ** The basic decoder on adaptive payloads *)

Lemma spec_adaptive_long (gs : list (value * nat)) :
  forallb (fun g => 4 <=? snd g) gs = true ->
  spec_adaptive_from [] gs = map spec_basic_item gs.
Proof.
  induction gs as [|[x n] gs IH]; [reflexivity|].
  simpl forallb. intros H. apply andb_prop in H as [Hn Hgs].
  rewrite spec_adaptive_from_cons, Hn. simpl in Hn.
  apply Nat.leb_le in Hn. simpl. rewrite (IH Hgs).
  unfold spec_basic_item at 2. simpl.
  destruct (Nat.ltb_spec 1 n); [reflexivity|lia].
Qed.

Lemma spec_adaptive_short (gs : list (value * nat)) : forall pending,
  pending <> [] \/ forallb (fun g => 4 <=? snd g) gs = false ->
  Exists (fun it => ~ In (RLE.type it) basic_types)
    (spec_adaptive_from pending gs).
Proof.
  assert (Hseq : forall es, ~ In (RLE.type (RLE.sequence es)) basic_types).
  { intros es [H|[H|[]]]; discriminate. }
  assert (Hflush : forall pending rest,
            pending <> [] ->
            Exists (fun it => ~ In (RLE.type it) basic_types)
              (flush pending ++ rest)).
  { intros [|v pending] rest Hne; [contradiction|].
    simpl. apply Exists_cons_hd, Hseq. }
  induction gs as [|[x n] gs IH]; intros pending H.
  - destruct H as [H|H]; [|discriminate].
    rewrite <- (app_nil_r (spec_adaptive_from pending [])). simpl.
    now apply Hflush.
  - rewrite spec_adaptive_from_cons.
    destruct (4 <=? n) eqn:H4; [|destruct (2 <=? n) eqn:H2].
    + destruct H as [H|H]; [now apply Hflush|].
      simpl in H. rewrite H4 in H. simpl in H.
      apply Exists_app. right. apply Exists_cons_tl, IH. now right.
    + apply Exists_app. right. apply Exists_cons_hd.
      intros [E|[E|[]]]; discriminate.
    + destruct (length pending <? 255).
      * apply IH. left. now destruct pending.
      * apply Exists_cons_hd, Hseq.
Qed.

(** X12: the basic decoder reads the payloads of the adaptive compressor
    only when every run of the input is long. For an input that is not
    empty, [rleDecompress] after [rleCompressAdvanced] returns the input
    when every maximal run holds four symbols or more, and throws the
    unknown-item-type error otherwise, on the first short run or
    sequence. *)
Theorem rleDecompress_of_adaptive (d : data) :
  is_empty_input d = false ->
  (p ← RLE.rleCompressAdvanced d; RLE.rleDecompress (Some p))
  = if forallb (fun g => 4 <=? snd g) (runs (elems d))
    then Ok (output_of d)
    else Throw UnknownItemTypeError.
Proof.
  intros Hne. rewrite (rleCompressAdvanced_spec d Hne), bind_Ok.
  unfold RLE.rleDecompress, spec_adaptive_items. simpl RLE.compressed.
  cbv iota.
  destruct (forallb (fun g => 4 <=? snd g) (runs (elems d))) eqn:Hall.
  - rewrite (spec_adaptive_long _ Hall).
    rewrite expandItems_basic by apply runs_positive.
    rewrite bind_Ok, flatten_runs. simpl app.
    now apply finish_elems.
  - rewrite expandItems_objects_unknown; [reflexivity|].
    apply spec_adaptive_short. now right.
Qed.

(** Four "a" and five "b" come back; with "bb" and "c" in the middle the
    decoder stops. *)
Lemma rleDecompress_of_adaptive_samples :
  (p ← RLE.rleCompressAdvanced long_runs; RLE.rleDecompress (Some p))
  = Ok (output_of long_runs)
  /\ (p ← RLE.rleCompressAdvanced mixed_runs; RLE.rleDecompress (Some p))
     = Throw UnknownItemTypeError.
Proof.
  split.
  - apply (rleDecompress_of_adaptive long_runs). reflexivity.
  - apply (rleDecompress_of_adaptive mixed_runs). reflexivity.
Defined.

(** ** The items the compressors write *)

Lemma neighbours_nil {A : Type} (R : A -> A -> Prop) : neighbours R [].
Proof. intros i a b H. discriminate. Qed.

Lemma neighbours_cons {A : Type} (R : A -> A -> Prop) (a : A) (l : list A) :
  (forall b, head l = Some b -> R a b) -> neighbours R l ->
  neighbours R (a :: l).
Proof.
  intros Hhd Hl [|i] x y; simpl.
  - intros [= <-] Hy. apply Hhd. now destruct l.
  - apply Hl.
Qed.

Lemma flatten_length_ge (gs : list (value * nat)) :
  Forall (fun g => 1 <= snd g) gs -> length gs <= length (flatten gs).
Proof.
  induction 1 as [|[x n] gs Hn _ IH]; [simpl; lia|].
  rewrite flatten_cons, length_app, length_replicate. simpl in *. lia.
Qed.

Lemma runs_length (l : list value) : length (runs l) <= length l.
Proof.
  rewrite <- (flatten_runs l) at 2. apply flatten_length_ge, runs_positive.
Qed.

Lemma runs_nonempty (l : list value) : l <> [] -> runs l <> [].
Proof.
  destruct l as [|x t]; [contradiction|]. now rewrite runs_cons.
Qed.

Lemma item_size_basic (g : value * nat) :
  1 <= snd g -> item_size (spec_basic_item g) = snd g.
Proof.
  destruct g as [x n]. unfold spec_basic_item. simpl. intros Hn.
  destruct (Nat.ltb_spec 1 n).
  - unfold item_size. simpl. lia.
  - unfold item_size. simpl. lia.
Qed.

Lemma total_size_basic (gs : list (value * nat)) :
  Forall (fun g => 1 <= snd g) gs ->
  total_size (map spec_basic_item gs) = length (flatten gs).
Proof.
  induction 1 as [|g gs Hn _ IH]; [reflexivity|].
  unfold total_size in *. simpl map. simpl list_sum.
  rewrite IH, (item_size_basic g Hn). destruct g as [x n].
  now rewrite flatten_cons, length_app, length_replicate.
Qed.

Lemma elems_nonempty (d : data) : is_empty_input d = false -> elems d <> [].
Proof.
  destruct d as [|[|c s]|[|z a]]; simpl; intros; discriminate.
Qed.

(** X13: the items of [rleCompress]. For an input that is not empty every
    item is a run of two or more or a single, no item repeats the element
    of the item before it, there are at least one and at most as many
    items as symbols, and the sizes of the items add up to the recorded
    length. *)
Theorem rleCompress_items (d : data) :
  is_empty_input d = false ->
  exists p items,
    RLE.rleCompress d = Ok p
    /\ RLE.compressed p = Some (map Some items)
    /\ Forall basic_shape items
    /\ neighbours
         (fun a b => strict_eq (RLE.element b) (RLE.element a) = false) items
    /\ 1 <= length items <= data_length d
    /\ RLE.originalLength p = Some (total_size items)
    /\ total_size items = data_length d.
Proof.
  intros Hne. rewrite (rleCompress_spec d Hne).
  eexists. exists (spec_basic_items (elems d)).
  split; [reflexivity|]. split; [reflexivity|]. simpl RLE.originalLength.
  assert (Hsize : total_size (spec_basic_items (elems d)) = data_length d).
  { unfold spec_basic_items. rewrite total_size_basic by apply runs_positive.
    now rewrite flatten_runs, data_length_elems. }
  unfold spec_basic_items in *. repeat split.
  - apply List.Forall_forall. intros it Hit.
    apply in_map_iff in Hit as ([x n] & <- & Hg).
    pose proof (runs_positive (elems d)) as Hpos.
    rewrite List.Forall_forall in Hpos. specialize (Hpos _ Hg). simpl in Hpos.
    unfold spec_basic_item. simpl.
    destruct (Nat.ltb_spec 1 n); [left|right]; eauto.
  - intros i a b Ha Hb.
    rewrite list_lookup_fmap in Ha, Hb.
    destruct (runs (elems d) !! i) as [g|] eqn:Hg; [|discriminate].
    destruct (runs (elems d) !! S i) as [g'|] eqn:Hg'; [|discriminate].
    injection Ha as <-. injection Hb as <-.
    pose proof (runs_maximal (elems d) i g g' Hg Hg') as Hmax.
    destruct g as [x n], g' as [x' n']. unfold spec_basic_item. simpl in *.
    now destruct (1 <? n), (1 <? n').
  - rewrite length_map.
    pose proof (runs_nonempty (elems d) (elems_nonempty d Hne)).
    destruct (runs (elems d)); [contradiction|simpl; lia].
  - rewrite length_map, data_length_elems. apply runs_length.
  - now rewrite Hsize.
  - exact Hsize.
Qed.

(** The bytes of the examples. *)
Lemma rleCompress_items_sample :
  exists p items,
    RLE.rleCompress sample_bytes = Ok p
    /\ RLE.compressed p = Some (map Some items)
    /\ Forall basic_shape items
    /\ neighbours
         (fun a b => strict_eq (RLE.element b) (RLE.element a) = false) items
    /\ 1 <= length items <= data_length sample_bytes
    /\ RLE.originalLength p = Some (total_size items)
    /\ total_size items = data_length sample_bytes.
Proof. apply (rleCompress_items sample_bytes). reflexivity. Defined.

Lemma spec_adaptive_shape (gs : list (value * nat)) :
  Forall (fun g => 1 <= snd g) gs ->
  forall pending,
    length pending <= 255 ->
    Forall adaptive_shape (spec_adaptive_from pending gs)
    /\ neighbours full_before (spec_adaptive_from pending gs)
    /\ total_size (spec_adaptive_from pending gs)
       = length pending + length (flatten gs)
    /\ length (spec_adaptive_from pending gs) <= length pending + length gs.
Proof.
  assert (Hseq : forall v pending,
            length (v :: pending) <= 255 ->
            adaptive_shape (RLE.sequence (v :: pending))).
  { intros v pending Hlen. right. right. eexists. split; [reflexivity|].
    simpl in *. lia. }
  assert (Hflush : forall pending it rest,
            length pending <= 255 ->
            adaptive_shape it -> RLE.type it <> "sequence" ->
            Forall adaptive_shape rest /\ neighbours full_before rest ->
            Forall adaptive_shape (flush pending ++ it :: rest)
            /\ neighbours full_before (flush pending ++ it :: rest)
            /\ total_size (flush pending ++ it :: rest)
               = length pending + item_size it + total_size rest
            /\ length (flush pending ++ it :: rest)
               <= length pending + 1 + length rest).
  { intros pending it rest Hlen Hit Htype [Hrest Hnb].
    assert (Hnb' : neighbours full_before (it :: rest)).
    { apply neighbours_cons; [|assumption].
      intros b _ Hs. contradiction. }
    destruct pending as [|v pending]; simpl flush; simpl app.
    - split; [|split; [|split]];
        [now constructor|assumption|reflexivity|simpl; lia].
    - split; [|split; [|split]].
      + constructor; [now apply Hseq|now constructor].
      + apply neighbours_cons; [|assumption].
        simpl. intros b [= <-] _ Hs. contradiction.
      + unfold total_size. simpl map. simpl list_sum.
        change (item_size (RLE.sequence (v :: pending)))
          with (S (length pending)).
        simpl. lia.
      + simpl. lia. }
  induction 1 as [|[x n] gs Hn Hgs IH]; intros pending Hlen.
  - simpl spec_adaptive_from. destruct pending as [|v pending]; simpl flush.
    + split; [|split; [|split]];
        [constructor|apply neighbours_nil|reflexivity|simpl; lia].
    + split; [|split; [|split]].
      * constructor; [now apply Hseq|constructor].
      * apply neighbours_cons; [discriminate|apply neighbours_nil].
      * unfold total_size, item_size. simpl. lia.
      * simpl. lia.
  - simpl in Hn. rewrite spec_adaptive_from_cons, flatten_cons.
    rewrite length_app, length_replicate.
    destruct (IH []) as (Hs0 & Hn0 & Ht0 & Hl0); [simpl; lia|].
    simpl length in Ht0, Hl0 |- *.
    destruct (Nat.leb_spec 4 n) as [H4|H4];
      [|destruct (Nat.leb_spec 2 n) as [H2|H2]].
    + destruct (Hflush pending (RLE.run x n) (spec_adaptive_from [] gs))
        as (Ha & Hb & Hc & Hd);
        [assumption|left; exists x, n; split; [reflexivity|lia]
        |discriminate|now split|].
      split; [|split; [|split]]; [assumption|assumption| |lia].
      rewrite Hc, Ht0. unfold item_size. simpl. lia.
    + destruct (Hflush pending (RLE.short_run x n) (spec_adaptive_from [] gs))
        as (Ha & Hb & Hc & Hd);
        [assumption|right; left; exists x, n; split; [reflexivity|lia]
        |discriminate|now split|].
      split; [|split; [|split]]; [assumption|assumption| |lia].
      rewrite Hc, Ht0. unfold item_size. simpl. lia.
    + assert (n = 1) as -> by lia.
      destruct (Nat.ltb_spec (length pending) 255) as [Hp|Hp].
      * destruct (IH (pending ++ [x])) as (Ha & Hb & Hc & Hd).
        { rewrite length_app. simpl. lia. }
        rewrite length_app in Hc, Hd. simpl in Hc, Hd.
        split; [|split; [|split]]; [assumption|assumption|lia|lia].
      * destruct (IH [x]) as (Ha & Hb & Hc & Hd); [simpl; lia|].
        simpl length in Hc, Hd.
        split; [|split; [|split]].
        -- constructor; [|assumption].
           right. right. eexists. split; [reflexivity|]. lia.
        -- apply neighbours_cons; [|assumption].
           intros b _ _ _. exists pending. split; [reflexivity|lia].
        -- unfold total_size in *. simpl map. simpl list_sum.
           rewrite Hc. unfold item_size. simpl. lia.
        -- simpl. lia.
Qed.

(** X14: the items of [rleCompressAdvanced]. For an input that is not
    empty every item is a run of four or more, a short run of two or
    three, or a sequence of 1 to 255 elements; a sequence right before
    another sequence is full, with 255 elements; there are at least one
    and at most as many items as symbols, and the sizes of the items add
    up to the recorded length. *)
Theorem rleCompressAdvanced_items (d : data) :
  is_empty_input d = false ->
  exists p items,
    RLE.rleCompressAdvanced d = Ok p
    /\ RLE.compressed p = Some (map Some items)
    /\ Forall adaptive_shape items
    /\ neighbours full_before items
    /\ 1 <= length items <= data_length d
    /\ RLE.originalLength p = Some (total_size items)
    /\ total_size items = data_length d.
Proof.
  intros Hne. rewrite (rleCompressAdvanced_spec d Hne).
  eexists. exists (spec_adaptive_items (elems d)).
  split; [reflexivity|]. split; [reflexivity|]. simpl RLE.originalLength.
  destruct (spec_adaptive_shape (runs (elems d)) (runs_positive _) [])
    as (Hs & Hn & Ht & Hl); [simpl; lia|].
  fold (spec_adaptive_items (elems d)) in Hs, Hn, Ht, Hl.
  rewrite flatten_runs, <- data_length_elems in Ht. simpl in Ht, Hl.
  pose proof (runs_length (elems d)) as Hr.
  rewrite <- data_length_elems in Hr.
  repeat split; try assumption; try lia.
  - destruct (spec_adaptive_items (elems d)) as [|it items] eqn:E;
      [|simpl; lia].
    unfold total_size in Ht. simpl in Ht.
    destruct d as [|[|c s]|[|z a]]; simpl in *; discriminate || lia.
  - now rewrite Ht.
Qed.

(** The bytes of the examples. *)
Lemma rleCompressAdvanced_items_sample :
  exists p items,
    RLE.rleCompressAdvanced sample_bytes = Ok p
    /\ RLE.compressed p = Some (map Some items)
    /\ Forall adaptive_shape items
    /\ neighbours full_before items
    /\ 1 <= length items <= data_length sample_bytes
    /\ RLE.originalLength p = Some (total_size items)
    /\ total_size items = data_length sample_bytes.
Proof. apply (rleCompressAdvanced_items sample_bytes). reflexivity. Defined.

(** ** The length check of the run-length decoders *)

Lemma expandRun_length (acc : list value) (it : RLE.item) :
  length (RLE.expandRun acc it)
  = length acc
    + match RLE.count it with Some n => Z.to_nat n | None => 0 end.
Proof.
  unfold RLE.expandRun. destruct (RLE.count it) as [n|]; [|lia].
  now rewrite length_app, length_replicate.
Qed.

Lemma expandItems_known (items : list RLE.item) :
  Forall (fun it => In (RLE.type it) basic_types) items ->
  forall acc,
    exists decompressed,
      RLE.expandItems (map Some items) acc = Ok decompressed
      /\ length decompressed = length acc + total_size items.
Proof.
  unfold total_size.
  induction 1 as [|it items Hit _ IH]; intros acc.
  - exists acc. simpl. split; [reflexivity|lia].
  - simpl map. simpl RLE.expandItems. simpl list_sum. unfold item_size at 1.
    destruct Hit as [Ht|[Ht|[]]]; rewrite <- Ht; simpl.
    + destruct (IH (RLE.expandRun acc it)) as (out & -> & Hlen).
      exists out. split; [reflexivity|].
      rewrite Hlen, expandRun_length. lia.
    + destruct (IH (acc ++ [RLE.element it])) as (out & -> & Hlen).
      exists out. split; [reflexivity|].
      rewrite Hlen, length_app. simpl. lia.
Qed.

Lemma expandItemsAdvanced_known (items : list RLE.item) :
  Forall (fun it => In (RLE.type it) advanced_types /\ spreadable (Some it))
    items ->
  forall acc,
    exists decompressed,
      RLE.expandItemsAdvanced (map Some items) acc = Ok decompressed
      /\ length decompressed = length acc + total_size items.
Proof.
  unfold total_size.
  induction 1 as [|it items [Hit Hs] _ IH]; intros acc.
  - exists acc. simpl. split; [reflexivity|lia].
  - simpl map. simpl RLE.expandItemsAdvanced. simpl list_sum.
    unfold item_size at 1.
    destruct Hit as [Ht|[Ht|[Ht|[Ht|[]]]]].
    + rewrite <- Ht. simpl.
      destruct (IH (RLE.expandRun acc it)) as (out & -> & Hlen).
      exists out. split; [reflexivity|].
      rewrite Hlen, expandRun_length. lia.
    + rewrite <- Ht. simpl.
      destruct (IH (RLE.expandRun acc it)) as (out & -> & Hlen).
      exists out. split; [reflexivity|].
      rewrite Hlen, expandRun_length. lia.
    + destruct (Hs (eq_sym Ht)) as [es Hes]. rewrite <- Ht, Hes. simpl.
      destruct (IH (acc ++ es)) as (out & -> & Hlen).
      exists out. split; [reflexivity|].
      rewrite Hlen, length_app. lia.
    + rewrite <- Ht. simpl.
      destruct (IH (acc ++ [RLE.element it])) as (out & -> & Hlen).
      exists out. split; [reflexivity|].
      rewrite Hlen, length_app. simpl. lia.
Qed.

Lemma finish_length (decompressed : list value) (p : RLE.payload) (n : nat) :
  length decompressed = n ->
  RLE.finish decompressed p
  = if bool_decide (RLE.originalLength p = Some n)
    then Ok (match RLE.isArrayData p with
             | Some true => OArr decompressed
             | _ => OStr (join decompressed)
             end)
    else Throw LengthMismatchError.
Proof.
  intros <-. unfold RLE.finish.
  destruct (decide (RLE.originalLength p = Some (length decompressed)))
    as [E|E].
  - rewrite !bool_decide_eq_true_2 by congruence.
    now destruct (RLE.isArrayData p) as [[|]|].
  - rewrite !bool_decide_eq_false_2 by congruence. reflexivity.
Qed.



(** ** The run statistics *)

Lemma analyzeLoop_spec (d : data) : forall fuel i runs totalRunLength maxRunLength,
  length (elems d) - i <= fuel ->
  RLE.analyzeLoop fuel d (length (elems d)) i runs totalRunLength maxRunLength
  = Ok (runs + length (repeats (drop i (elems d))),
        totalRunLength + list_sum (map snd (repeats (drop i (elems d)))),
        Nat.max maxRunLength
          (list_max (map snd (repeats (drop i (elems d)))))).
Proof.
  unfold repeats.
  induction fuel as [|fuel IH]; intros i r t m Hfuel; simpl;
    destruct (i <? length (elems d)) eqn:Hlt;
    try (apply Nat.ltb_ge in Hlt;
         rewrite drop_ge by lia; simpl;
         now rewrite !Nat.add_0_r, Nat.max_0_r).
  - apply Nat.ltb_lt in Hlt. lia.
  - apply Nat.ltb_lt in Hlt.
    destruct (countRun_runs d i Hlt) as (count & Hc & H1 & Hle & Hruns).
    rewrite Hc, bind_Ok, Hruns. simpl List.filter.
    destruct (1 <? count); rewrite IH by lia; simpl;
      f_equal; rewrite !pair_equal_spec; repeat split; lia.
Qed.

Lemma flatten_length (gs : list (value * nat)) :
  length (flatten gs) = list_sum (map snd gs).
Proof.
  induction gs as [|[x n] gs IH]; [reflexivity|].
  rewrite flatten_cons, length_app, length_replicate, IH. reflexivity.
Qed.

Lemma repeats_bounds (gs : list (value * nat)) :
  2 * length (List.filter (fun g => 1 <? snd g) gs)
  <= list_sum (map snd (List.filter (fun g => 1 <? snd g) gs))
  /\ list_sum (map snd (List.filter (fun g => 1 <? snd g) gs))
     <= list_sum (map snd gs)
  /\ list_max (map snd (List.filter (fun g => 1 <? snd g) gs))
     <= list_sum (map snd (List.filter (fun g => 1 <? snd g) gs))
  /\ (length (List.filter (fun g => 1 <? snd g) gs) = 0
      <-> list_max (map snd (List.filter (fun g => 1 <? snd g) gs)) = 0).
Proof.
  induction gs as [|[x n] gs (IH1 & IH2 & IH3 & IH4)].
  - simpl. repeat split; lia.
  - simpl List.filter. simpl snd.
    destruct (Nat.ltb_spec 1 n) as [Hn|Hn]; simpl; repeat split; lia.
Qed.

Lemma run_items_basic (gs : list (value * nat)) :
  length (run_items (map Some (map spec_basic_item gs)))
  = length (List.filter (fun g => 1 <? snd g) gs).
Proof.
  unfold run_items.
  induction gs as [|[x n] gs IH]; [reflexivity|].
  simpl. unfold spec_basic_item at 1. simpl.
  destruct (1 <? n); simpl; now rewrite IH.
Qed.

(** X16: the counters of [analyzeRLEEffectiveness]. Without an input it
    throws a [TypeError]; for every string and array, the empty ones too,
    it returns an object whose [totalRuns] is the number of maximal runs
    of two symbols or more, which is the number of run items [rleCompress]
    writes for the input, and whose [maxRunLength] is the length of the
    longest of them, 0 exactly when there is none. Twice the number of
    runs, and the longest run, never exceed the length of the input. *)
Theorem analyzeRLEEffectiveness_counts :
  RLE.analyzeRLEEffectiveness DAbsent = Throw TypeError
  /\ forall d,
       d <> DAbsent ->
       exists a,
         RLE.analyzeRLEEffectiveness d = Ok a
         /\ RLE.totalRuns a = length (repeats (elems d))
         /\ RLE.maxRunLength a = list_max (map snd (repeats (elems d)))
         /\ 2 * RLE.totalRuns a <= data_length d
         /\ RLE.maxRunLength a <= data_length d
         /\ (RLE.totalRuns a = 0 <-> RLE.maxRunLength a = 0)
         /\ (forall p items,
               RLE.rleCompress d = Ok p -> RLE.compressed p = Some items ->
               RLE.totalRuns a = length (run_items items)).
Proof.
  split; [reflexivity|]. intros d Hd.
  assert (Hrun : exists a,
            RLE.analyzeRLEEffectiveness d = Ok a
            /\ RLE.totalRuns a = length (repeats (elems d))
            /\ RLE.maxRunLength a = list_max (map snd (repeats (elems d)))).
  { unfold RLE.analyzeRLEEffectiveness.
    rewrite data_length_elems, analyzeLoop_spec by lia.
    rewrite drop_0. destruct d; [contradiction| |];
      rewrite bind_Ok; eexists; (split; [reflexivity|]); simpl; auto. }
  destruct Hrun as (a & Ha & Hruns & Hmax). exists a.
  split; [exact Ha|]. split; [exact Hruns|]. split; [exact Hmax|].
  assert (Hlen : data_length d = list_sum (map snd (runs (elems d)))).
  { now rewrite <- flatten_length, flatten_runs, data_length_elems. }
  rewrite Hruns, Hmax, Hlen.
  destruct (repeats_bounds (runs (elems d))) as (H1 & H2 & H3 & H4).
  fold (repeats (elems d)) in H1, H2, H3, H4.
  split; [lia|]. split; [lia|]. split; [exact H4|].
  intros p items Hp Hitems.
  destruct (is_empty_input d) eqn:Hne.
  - unfold RLE.rleCompress in Hp. rewrite Hne in Hp. discriminate.
  - rewrite (rleCompress_spec d Hne) in Hp. injection Hp as <-.
    simpl in Hitems. injection Hitems as <-.
    unfold spec_basic_items, repeats. now rewrite run_items_basic.
Qed.

(** ** Binary64 arithmetic: the product with 0.1

    The product of a whole number below 2^52 with the literal 0.1,
    rounded to nearest, compares with a whole number as the tenth of the
    first does. *)

Section Binary64.
Local Open Scope Z_scope.

Lemma digits2_pos_bounds (p : positive) :
  2 ^ (Z.pos (digits2_pos p) - 1) <= Z.pos p < 2 ^ Z.pos (digits2_pos p).
Proof.
  assert (Hstep : forall d x y : Z,
            0 < d -> 2 ^ (d - 1) <= x < 2 ^ d -> 2 * x <= y <= 2 * x + 1 ->
            2 ^ (Z.succ d - 1) <= y < 2 ^ Z.succ d).
  { intros d x y Hd Hx Hy.
    replace (Z.succ d - 1) with (Z.succ (d - 1)) by lia.
    rewrite !Z.pow_succ_r by lia. lia. }
  induction p as [p IH|p IH|]; simpl digits2_pos.
  - rewrite Pos2Z.inj_succ. apply (Hstep _ (Z.pos p)); lia.
  - rewrite Pos2Z.inj_succ. apply (Hstep _ (Z.pos p)); lia.
  - vm_compute. split; [discriminate|reflexivity].
Qed.

Lemma Zdigits2_unique (m d : Z) :
  2 ^ (d - 1) <= m < 2 ^ d -> 0 < d -> Zdigits2 m = d.
Proof.
  intros [Hlo Hhi] Hd.
  assert (Hm : 0 < m).
  { pose proof (Z.pow_pos_nonneg 2 (d - 1)). lia. }
  destruct m as [|p|p]; try lia. simpl.
  pose proof (digits2_pos_bounds p) as [Hlo' Hhi'].
  destruct (Z.lt_trichotomy (Z.pos (digits2_pos p)) d) as [H|[H|H]];
    [|exact H|].
  - pose proof (Z.pow_le_mono_r 2 (Z.pos (digits2_pos p)) (d - 1)). lia.
  - pose proof (Z.pow_le_mono_r 2 d (Z.pos (digits2_pos p) - 1)). lia.
Qed.

Lemma iter_pos_nat {A : Type} (f : A -> A) (n : positive) : forall x,
  SpecFloat.iter_pos f n x = Nat.iter (Pos.to_nat n) f x.
Proof.
  induction n as [n IH|n IH|]; intros x; simpl SpecFloat.iter_pos.
  - rewrite !IH, Pos2Nat.inj_xI, <- Nat.iter_add.
    replace (S (2 * Pos.to_nat n))%nat
      with ((Pos.to_nat n + Pos.to_nat n) + 1)%nat by lia.
    now rewrite (Nat.iter_add _ 1).
  - rewrite !IH, Pos2Nat.inj_xO, <- Nat.iter_add.
    now replace (2 * Pos.to_nat n)%nat
      with (Pos.to_nat n + Pos.to_nat n)%nat by lia.
  - reflexivity.
Qed.

Lemma shr_1_spec (mrs : shr_record) :
  0 <= shr_m mrs ->
  shr_m (shr_1 mrs) = shr_m mrs / 2 /\ shr_r (shr_1 mrs) = Z.odd (shr_m mrs).
Proof.
  destruct mrs as [[|[p|p|]|p] r s]; simpl shr_m; try lia; intros _;
    (split; [|reflexivity]); simpl shr_m.
  - reflexivity.
  - apply (Z.div_unique _ 2 _ 1); lia.
  - apply (Z.div_unique _ 2 _ 0); lia.
  - reflexivity.
Qed.

Lemma shr_iter_spec (mrs : shr_record) : 
  0 <= shr_m mrs ->
  forall k : nat,
    shr_m (Nat.iter k shr_1 mrs) = shr_m mrs / 2 ^ Z.of_nat k
    /\ shr_r (Nat.iter (S k) shr_1 mrs)
       = Z.odd (shr_m mrs / 2 ^ Z.of_nat k).
Proof.
  intros Hm. 
  assert (Hk : forall k : nat,
            shr_m (Nat.iter k shr_1 mrs) = shr_m mrs / 2 ^ Z.of_nat k).
  { induction k as [|k IH].
    - simpl. now rewrite Z.div_1_r.
    - change (Nat.iter (S k) shr_1 mrs) with (shr_1 (Nat.iter k shr_1 mrs)).
      assert (Hpos : 0 <= shr_m (Nat.iter k shr_1 mrs)).
      { rewrite IH. apply Z.div_pos; [lia|]. apply Z.pow_pos_nonneg; lia. }
      destruct (shr_1_spec _ Hpos) as [-> _]. rewrite IH.
      rewrite Nat2Z.inj_succ, Z.pow_succ_r by lia.
      rewrite Z.div_div by (try apply Z.pow_pos_nonneg; lia).
      f_equal. lia. }
  intros k. split; [apply Hk|].
  change (Nat.iter (S k) shr_1 mrs) with (shr_1 (Nat.iter k shr_1 mrs)).
  assert (Hpos : 0 <= shr_m (Nat.iter k shr_1 mrs)).
  { rewrite Hk. apply Z.div_pos; [lia|]. apply Z.pow_pos_nonneg; lia. }
  destruct (shr_1_spec _ Hpos) as [_ ->]. now rewrite Hk.
Qed.

Lemma odd_quotient_half (M n : Z) :
  0 <= M -> 1 <= n -> Z.odd (M / 2 ^ (n - 1)) = true ->
  2 ^ (n - 1) <= M mod 2 ^ n.
Proof.
  intros HM Hn Hodd.
  assert (Hh : 0 < 2 ^ (n - 1)) by (apply Z.pow_pos_nonneg; lia).
  assert (H2 : 2 ^ n = 2 * 2 ^ (n - 1)).
  { rewrite <- Z.pow_succ_r by lia. f_equal. lia. }
  pose proof (Z.div_mod M (2 ^ (n - 1)) ltac:(lia)) as Hdm.
  pose proof (Z.mod_pos_bound M (2 ^ (n - 1)) Hh) as Hb.
  apply Z.odd_spec in Hodd as [c Hc].
  rewrite H2.
  rewrite <- (Z.mod_unique M (2 * 2 ^ (n - 1)) c
                (2 ^ (n - 1) + M mod 2 ^ (n - 1))); [lia|lia|].
  rewrite Hc in Hdm. lia.
Qed.


Lemma round_nearest_even_cases (mrs : shr_record) :
  round_nearest_even (shr_m mrs) (loc_of_shr_record mrs) = shr_m mrs
  \/ (round_nearest_even (shr_m mrs) (loc_of_shr_record mrs) = shr_m mrs + 1
      /\ shr_r mrs = true).
Proof.
  destruct mrs as [m [|] [|]]; simpl; auto.
  match goal with |- context [if ?b then _ else _] => destruct b end; auto.
Qed.

Lemma fexp_53 (x : Z) : -1021 <= x -> fexp 53 1024 x = x - 53.
Proof. unfold fexp, emin. intros Hx. apply Z.max_l. lia. Qed.

Lemma shr_fexp_shift (m e : Z) (n : positive) :
  2 ^ (Z.pos n + 52) <= m < 2 ^ (Z.pos n + 53) -> -1074 <= e + Z.pos n ->
  shr_fexp 53 1024 m e loc_Exact
  = (Nat.iter (Pos.to_nat n) shr_1 (Build_shr_record m false false),
     e + Z.pos n).
Proof.
  intros Hm He. unfold shr_fexp.
  rewrite (Zdigits2_unique m (Z.pos n + 53)) by
    (try replace (Z.pos n + 53 - 1) with (Z.pos n + 52) by lia; lia).
  rewrite fexp_53 by lia.
  replace (Z.pos n + 53 + e - 53 - e) with (Z.pos n) by lia.
  unfold shr. now rewrite iter_pos_nat.
Qed.

Lemma shr_fexp_none (m e : Z) :
  2 ^ 52 <= m < 2 ^ 53 -> -1074 <= e ->
  shr_fexp 53 1024 m e loc_Exact = (Build_shr_record m false false, e).
Proof.
  intros Hm He. unfold shr_fexp.
  rewrite (Zdigits2_unique m 53) by (try change (53 - 1) with 52; lia).
  rewrite fexp_53 by lia.
  replace (53 + e - 53 - e) with 0 by lia. reflexivity.
Qed.

Lemma binary_round_aux_exact (m : positive) (e : Z) :
  2 ^ 52 <= Z.pos m < 2 ^ 53 -> -1074 <= e <= 971 ->
  binary_round_aux 53 1024 false (Z.pos m) e loc_Exact = S754_finite false m e.
Proof.
  intros Hm He. unfold binary_round_aux.
  rewrite (shr_fexp_none (Z.pos m) e) by lia.
  cbv beta iota. simpl shr_m. simpl loc_of_shr_record.
  simpl round_nearest_even.
  rewrite (shr_fexp_none (Z.pos m) e) by lia.
  cbv beta iota. simpl shr_m.
  replace (e <=? 1024 - 53) with true; [reflexivity|].
  symmetry. apply Z.leb_le. lia.
Qed.

Lemma binary_round_aux_value (M E : Z) (n : positive) :
  2 ^ (Z.pos n + 52) <= M < 2 ^ (Z.pos n + 53) ->
  -1074 <= E + Z.pos n -> E + Z.pos n + 1 <= 971 ->
  exists m e q',
    binary_round_aux 53 1024 false M E loc_Exact = S754_finite false m e
    /\ 2 ^ 52 <= Z.pos m < 2 ^ 53
    /\ E + Z.pos n <= e
    /\ Z.pos m * 2 ^ (e - (E + Z.pos n)) = q'
    /\ M / 2 ^ Z.pos n <= q'
    /\ q' * 2 ^ Z.pos n <= M + 2 ^ (Z.pos n - 1).
Proof.
  intros HM Hlo Hhi.
  assert (Hn : 0 < 2 ^ Z.pos n) by (apply Z.pow_pos_nonneg; lia).
  assert (Hh : 0 < 2 ^ (Z.pos n - 1)) by (apply Z.pow_pos_nonneg; lia).
  assert (H2 : 2 ^ Z.pos n = 2 * 2 ^ (Z.pos n - 1)).
  { rewrite <- Z.pow_succ_r by lia. f_equal. lia. }
  assert (HM0 : 0 <= M).
  { pose proof (Z.pow_pos_nonneg 2 (Z.pos n + 52)). lia. }
  unfold binary_round_aux. rewrite (shr_fexp_shift M E n) by lia.
  cbv beta iota.
  set (mrs := Nat.iter (Pos.to_nat n) shr_1 (Build_shr_record M false false)).
  assert (Hq : shr_m mrs = M / 2 ^ Z.pos n).
  { unfold mrs.
    destruct (shr_iter_spec (Build_shr_record M false false) HM0
                (Pos.to_nat n)) as [-> _].
    now rewrite positive_nat_Z. }
  assert (Hr : shr_r mrs = true -> 2 ^ (Z.pos n - 1) <= M mod 2 ^ Z.pos n).
  { unfold mrs. destruct (Pos2Nat.is_succ n) as [k Hk]. rewrite Hk.
    destruct (shr_iter_spec (Build_shr_record M false false) HM0 k)
      as [_ ->].
    simpl shr_m. intros Hodd. apply odd_quotient_half; [lia|lia|].
    replace (Z.pos n - 1) with (Z.of_nat k); [exact Hodd|]. lia. }
  assert (Hqb : 2 ^ 52 <= M / 2 ^ Z.pos n < 2 ^ 53).
  { rewrite !Z.pow_add_r in HM by lia. split.
    - apply Z.div_le_lower_bound; lia.
    - apply Z.div_lt_upper_bound; lia. }
  pose proof (Z.div_mod M (2 ^ Z.pos n) ltac:(lia)) as Hdm.
  pose proof (Z.mod_pos_bound M (2 ^ Z.pos n) Hn) as Hmod.
  set (q' := round_nearest_even (shr_m mrs) (loc_of_shr_record mrs)).
  assert (Hq' : 2 ^ 52 <= q' <= 2 ^ 53
                /\ M / 2 ^ Z.pos n <= q'
                /\ q' * 2 ^ Z.pos n <= M + 2 ^ (Z.pos n - 1)).
  { unfold q'. destruct (round_nearest_even_cases mrs) as [->|[-> Hrt]];
      rewrite Hq.
    - split; [lia|]. split; [lia|]. nia.
    - specialize (Hr Hrt). split; [lia|]. split; [lia|]. nia. }
  clearbody q'. destruct Hq' as (Hb & Hge & Hle).
  destruct (Z.eq_dec q' (2 ^ 53)) as [->|Hne].
  - change (2 ^ 53) with 9007199254740992.
    rewrite (shr_fexp_shift 9007199254740992 (E + Z.pos n) 1)
      by (try (vm_compute; split; [discriminate|reflexivity]); lia).
    cbv beta iota.
    change (shr_m (Nat.iter (Pos.to_nat 1) shr_1
                     (Build_shr_record 9007199254740992 false false)))
      with 4503599627370496.
    replace (E + Z.pos n + 1 <=? 1024 - 53) with true
      by (symmetry; apply Z.leb_le; lia).
    exists 4503599627370496%positive, (E + Z.pos n + 1), 9007199254740992.
    split; [reflexivity|].
    split; [vm_compute; split; [discriminate|reflexivity]|].
    split; [lia|].
    split; [replace (E + Z.pos n + 1 - (E + Z.pos n)) with 1 by lia;
            reflexivity|].
    change 9007199254740992 with (2 ^ 53). split; assumption.
  - rewrite (shr_fexp_none q' (E + Z.pos n)) by lia.
    cbv beta iota. simpl shr_m.
    destruct q' as [|m|m];
      try (pose proof (Z.pow_pos_nonneg 2 52); lia).
    replace (E + Z.pos n <=? 1024 - 53) with true
      by (symmetry; apply Z.leb_le; lia).
    exists m, (E + Z.pos n), (Z.pos m).
    split; [reflexivity|]. split; [lia|]. split; [lia|].
    split; [rewrite Z.sub_diag; simpl; lia|].
    split; assumption.
Qed.


Lemma SFltb_finite (m1 m2 : positive) (e1 e2 c : Z) :
  2 ^ 52 <= Z.pos m1 < 2 ^ 53 -> 2 ^ 52 <= Z.pos m2 < 2 ^ 53 ->
  c <= e1 -> c <= e2 ->
  SFltb (S754_finite false m1 e1) (S754_finite false m2 e2)
  = (Z.pos m1 * 2 ^ (e1 - c) <? Z.pos m2 * 2 ^ (e2 - c)).
Proof.
  intros H1 H2 Hc1 Hc2. unfold SFltb, SFcompare.
  assert (Hp1 : 0 < 2 ^ (e1 - c)) by (apply Z.pow_pos_nonneg; lia).
  assert (Hp2 : 0 < 2 ^ (e2 - c)) by (apply Z.pow_pos_nonneg; lia).
  change (2 ^ 52) with 4503599627370496 in H1, H2.
  change (2 ^ 53) with 9007199254740992 in H1, H2.
  assert (Hstep : forall a b ea eb : Z,
            a < 9007199254740992 -> 4503599627370496 <= b ->
            c <= ea -> ea < eb ->
            a * 2 ^ (ea - c) < b * 2 ^ (eb - c)).
  { intros a b ea eb Ha Hb Hea Hlt.
    replace (eb - c) with (Z.succ (eb - ea - 1) + (ea - c)) by lia.
    rewrite Z.pow_add_r, Z.pow_succ_r by lia.
    assert (Hx : 0 < 2 ^ (eb - ea - 1)) by (apply Z.pow_pos_nonneg; lia).
    assert (Hy : 0 < 2 ^ (ea - c)) by (apply Z.pow_pos_nonneg; lia).
    apply Z.lt_le_trans with (2 * b * 2 ^ (ea - c)).
    - apply Z.mul_lt_mono_pos_r; lia.
    - replace (b * (2 * 2 ^ (eb - ea - 1) * 2 ^ (ea - c)))
        with (2 * b * 2 ^ (ea - c) * 2 ^ (eb - ea - 1)) by ring.
      apply (Z.le_mul_diag_r (2 * b * 2 ^ (ea - c))); [|lia].
      apply Z.mul_pos_pos; lia. }
  destruct (Z.compare_spec e1 e2) as [->|Hlt|Hgt].
  - change (Pos.compare_cont Eq m1 m2) with (Z.pos m1 ?= Z.pos m2).
    destruct (Z.compare_spec (Z.pos m1) (Z.pos m2)) as [Heq|Hlt|Hgt];
      symmetry; [apply Z.ltb_ge|apply Z.ltb_lt|apply Z.ltb_ge]; nia.
  - symmetry. apply Z.ltb_lt. apply Hstep; lia.
  - symmetry. apply Z.ltb_ge. apply Z.lt_le_incl. apply Hstep; lia.
Qed.

Lemma iter_xO (p k : positive) :
  Z.pos (Pos.iter xO p k) = Z.pos p * 2 ^ Z.pos k.
Proof.
  induction k as [|k IH] using Pos.peano_ind.
  - simpl Pos.iter. rewrite Pos2Z.inj_xO. change (2 ^ 1) with 2. lia.
  - rewrite Pos.iter_succ, Pos2Z.inj_xO, IH, Pos2Z.inj_succ.
    rewrite Z.pow_succ_r by lia. lia.
Qed.

Lemma binary_normalize_value (z : Z) :
  0 < z < 2 ^ 53 ->
  exists m k,
    binary_normalize 53 1024 z 0 false = S754_finite false m (- k)
    /\ 2 ^ 52 <= Z.pos m < 2 ^ 53
    /\ 0 <= k <= 52
    /\ Z.pos m = z * 2 ^ k.
Proof.
  intros Hz. destruct z as [|p|p]; try lia.
  unfold binary_normalize, binary_round.
  pose proof (digits2_pos_bounds p) as Hd.
  set (d := Z.pos (digits2_pos p)) in *.
  assert (Hd53 : 1 <= d <= 53).
  { split; [unfold d; lia|].
    destruct (Z.le_gt_cases d 53) as [H|H]; [exact H|].
    pose proof (Z.pow_le_mono_r 2 53 (d - 1)). lia. }
  rewrite Z.add_0_r, fexp_53 by lia. unfold shl_align.
  destruct (d - 53 - 0) as [|k|k] eqn:Hk; try lia.
  - assert (d = 53) as Hd' by lia. rewrite Hd' in Hd.
    change (53 - 1) with 52 in Hd.
    rewrite binary_round_aux_exact by lia.
    exists p, 0. split; [reflexivity|]. split; [exact Hd|].
    split; [lia|]. simpl. lia.
  - assert (Hdk : d = 53 - Z.pos k) by lia.
    assert (Hm : 2 ^ 52 <= Z.pos (Pos.iter xO p k) < 2 ^ 53).
    { rewrite iter_xO.
      assert (H52 : 2 ^ 52 = 2 ^ (d - 1) * 2 ^ Z.pos k).
      { rewrite <- Z.pow_add_r by lia. f_equal. lia. }
      assert (H53 : 2 ^ 53 = 2 ^ d * 2 ^ Z.pos k).
      { rewrite <- Z.pow_add_r by lia. f_equal. lia. }
      rewrite H52, H53.
      assert (0 < 2 ^ Z.pos k) by (apply Z.pow_pos_nonneg; lia).
      split; [apply Z.mul_le_mono_nonneg_r|apply Z.mul_lt_mono_pos_r]; lia. }
    rewrite binary_round_aux_exact by lia.
    exists (Pos.iter xO p k), (Z.pos k).
    replace (d - 53) with (- Z.pos k) by lia.
    split; [reflexivity|]. split; [exact Hm|]. split; [lia|].
    apply iter_xO.
Qed.


Lemma threshold_arith (L r A B N N' T P q' M mL : Z) :
  0 < L -> 0 < r -> 2 <= B -> 1 <= A -> 0 < N -> 0 < N' -> 0 < P ->
  N * N' = P -> 10 * T = P + 4 -> mL = L * B -> M = mL * T ->
  4 * mL + 5 * N < 2 * P ->
  M / N <= q' -> 2 * (q' * N) <= 2 * M + N ->
  q' * (N * A) < r * (P * (A * B)) <-> L < 10 * r.
Proof.
  intros HL Hr HB HA HN HN' HP HNN HT HmL HM Hsmall Hge Hle.
  assert (H10M : 10 * M = L * B * P + 4 * mL).
  { rewrite HM. replace (10 * (mL * T)) with (mL * (10 * T)) by ring.
    rewrite HT, HmL. ring. }
  assert (HBP : 0 < B * P) by (apply Z.mul_pos_pos; lia).
  split.
  - intros Hlt. destruct (Z.lt_ge_cases L (10 * r)) as [H|H]; [exact H|].
    exfalso.
    assert (HrM : r * B * N' * N <= M).
    { assert (10 * (r * (B * P)) <= L * (B * P))
        by (rewrite Z.mul_assoc; apply Z.mul_le_mono_nonneg_r; lia).
      replace (r * B * N' * N) with (r * (B * (N * N'))) by ring.
      rewrite HNN. nia. }
    assert (Hq : r * B * N' <= q').
    { apply Z.le_trans with (M / N); [|exact Hge].
      apply Z.div_le_lower_bound; [lia|].
      rewrite Z.mul_comm. exact HrM. }
    assert (Hq2 : r * B * N' * (N * A) <= q' * (N * A)).
    { apply Z.mul_le_mono_nonneg_r; [|exact Hq].
      apply Z.mul_nonneg_nonneg; lia. }
    replace (r * B * N' * (N * A)) with (r * ((N * N') * (A * B))) in Hq2
      by ring.
    rewrite HNN in Hq2. lia.
  - intros Hlt.
    assert (H1 : 10 * (q' * N) < 10 * (r * (B * P))).
    { assert ((L + 1) * (B * P) <= 10 * r * (B * P))
        by (apply Z.mul_le_mono_nonneg_r; lia).
      assert (2 * P <= B * P) by (apply Z.mul_le_mono_nonneg_r; lia).
      nia. }
    assert (H2 : q' * N < r * (B * P)) by lia.
    replace (q' * (N * A)) with (q' * N * A) by ring.
    replace (r * (P * (A * B))) with (r * (B * P) * A) by ring.
    apply Z.mul_lt_mono_pos_r; lia.
Qed.

Lemma tenth_threshold (L r : Z) :
  0 <= L < 2 ^ 52 -> 0 <= r < 2 ^ 53 ->
  SFltb
    (SFmul 53 1024 (binary_normalize 53 1024 L 0 false)
       (S754_finite false 7205759403792794 (-56)))
    (binary_normalize 53 1024 r 0 false)
  = (L <? 10 * r).
Proof.
  intros HL Hr.
  destruct (Z.eq_dec L 0) as [->|HL0].
  { destruct (Z.eq_dec r 0) as [->|Hr0]; [reflexivity|].
    destruct (binary_normalize_value r) as (mr & kr & -> & _); [lia|].
    change (true = (0 <? 10 * r)). symmetry. apply Z.ltb_lt. lia. }
  destruct (binary_normalize_value L) as (mL & kL & -> & HmL & HkL & HvL);
    [change (2 ^ 52) with 4503599627370496 in HL;
     change (2 ^ 53) with 9007199254740992; lia|].
  assert (HB : 2 <= 2 ^ kL).
  { destruct (Z.eq_dec kL 0) as [->|Hk].
    - simpl in HvL. lia.
    - replace kL with (Z.succ (kL - 1)) by lia.
      rewrite Z.pow_succ_r by lia.
      pose proof (Z.pow_pos_nonneg 2 (kL - 1)). lia. }
  unfold SFmul. simpl xorb. rewrite Pos2Z.inj_mul.
  set (T := 7205759403792794) in *.
  set (M := Z.pos mL * T).
  assert (HMb : 2 ^ 104 <= M < 2 ^ 106).
  { unfold M. split.
    - change (2 ^ 104) with (2 ^ 52 * 2 ^ 52).
      apply Z.mul_le_mono_nonneg; try lia; try (vm_compute; discriminate).
    - change (2 ^ 106) with (2 ^ 53 * 2 ^ 53).
      apply Z.mul_lt_mono_nonneg; try lia; try (vm_compute; discriminate). }
  assert (Hn : exists n : positive,
            (n = 52 \/ n = 53)%positive
            /\ 2 ^ (Z.pos n + 52) <= M < 2 ^ (Z.pos n + 53)).
  { destruct (Z.lt_ge_cases M (2 ^ 105)) as [H|H].
    - exists 52%positive. split; [now left|].
      change (52 + 52) with 104. change (52 + 53) with 105. lia.
    - exists 53%positive. split; [now right|].
      change (53 + 52) with 105. change (53 + 53) with 106. lia. }
  destruct Hn as (n & Hn & HMn).
  assert (Hn' : 52 <= Z.pos n <= 53) by (destruct Hn as [->| ->]; lia).
  destruct (binary_round_aux_value M (- kL + -56) n HMn)
    as (m & e & q' & -> & Hm & He & Hq & Hge & Hle); [lia|lia|].
  destruct (Z.eq_dec r 0) as [->|Hr0].
  { change (false = (L <? 10 * 0)). symmetry. apply Z.ltb_ge. lia. }
  destruct (binary_normalize_value r) as (mr & kr & -> & Hmr & Hkr & Hvr);
    [lia|].
  rewrite (SFltb_finite m mr e (- kr) (-108)) by lia.
  apply eq_iff_eq_true. rewrite !Z.ltb_lt.
  assert (Hlhs : Z.pos m * 2 ^ (e - -108)
                 = q' * (2 ^ Z.pos n * 2 ^ (52 - kL))).
  { rewrite <- Hq, <- Z.mul_assoc. f_equal.
    rewrite <- !Z.pow_add_r by lia. f_equal. lia. }
  assert (Hrhs : Z.pos mr * 2 ^ (- kr - -108)
                 = r * (2 ^ 56 * (2 ^ (52 - kL) * 2 ^ kL))).
  { rewrite Hvr, <- Z.mul_assoc. f_equal.
    rewrite <- !Z.pow_add_r by lia. f_equal. lia. }
  rewrite Hlhs, Hrhs.
  assert (HN : 0 < 2 ^ Z.pos n) by (apply Z.pow_pos_nonneg; lia).
  assert (HN' : 0 < 2 ^ (56 - Z.pos n)) by (apply Z.pow_pos_nonneg; lia).
  assert (HA : 0 < 2 ^ (52 - kL)) by (apply Z.pow_pos_nonneg; lia).
  assert (HNN : 2 ^ Z.pos n * 2 ^ (56 - Z.pos n) = 2 ^ 56).
  { rewrite <- Z.pow_add_r by lia. f_equal. lia. }
  assert (Hhalf : 2 ^ Z.pos n = 2 * 2 ^ (Z.pos n - 1)).
  { rewrite <- Z.pow_succ_r by lia. f_equal. lia. }
  assert (HN53 : 2 ^ Z.pos n <= 2 ^ 53)
    by (apply Z.pow_le_mono_r; lia).
  apply (threshold_arith L r (2 ^ (52 - kL)) (2 ^ kL) (2 ^ Z.pos n)
           (2 ^ (56 - Z.pos n)) T (2 ^ 56) q' M (Z.pos mL));
    try assumption; try lia; try reflexivity.
Qed.

End Binary64.

(** ** What [analyzeRLEEffectiveness] recommends *)

Lemma analyzeRLEEffectiveness_value (d : data) :
  d <> DAbsent ->
  RLE.analyzeRLEEffectiveness d
  = Ok (RLE.mkAnalysis
          (length (repeats (elems d)))
          (if 0 <? length (repeats (elems d))
           then SFdiv 53 1024
                  (number (list_sum (map snd (repeats (elems d)))))
                  (number (length (repeats (elems d))))
           else S754_zero false)
          (list_max (map snd (repeats (elems d))))
          (SFdiv 53 1024
             (number (list_sum (map snd (repeats (elems d)))))
             (number (data_length d)))
          (SFltb (SFmul 53 1024 (number (data_length d)) RLE.tenth)
             (number (length (repeats (elems d))))
           || (4 <? list_max (map snd (repeats (elems d)))))).
Proof.
  intros Hd.
  assert (Hloop : RLE.analyzeLoop (data_length d) d (data_length d) 0 0 0 0
                  = Ok (length (repeats (elems d)),
                        list_sum (map snd (repeats (elems d))),
                        list_max (map snd (repeats (elems d))))).
  { rewrite data_length_elems, analyzeLoop_spec by lia.
    now rewrite drop_0. }
  unfold RLE.analyzeRLEEffectiveness.
  destruct d; [contradiction| |]; cbv zeta; rewrite Hloop; reflexivity.
Qed.

(** X17: the recommendation of [analyzeRLEEffectiveness]. The product
    [length * 0.1] is rounded, and 0.1 is not one tenth, yet for every
    string and array of fewer than 2^52 symbols [recommendRLE] is true
    exactly when ten times the number of runs exceeds the length or the
    longest run holds more than four symbols. For an empty string or
    array [averageRunLength] is 0, [compressionPotential] is [NaN], from
    0 / 0, and nothing is recommended. *)
Theorem analyzeRLEEffectiveness_recommends (d : data) :
  (Z.of_nat (data_length d) < 2 ^ 52)%Z ->
  d <> DAbsent ->
  exists a,
    RLE.analyzeRLEEffectiveness d = Ok a
    /\ RLE.recommendRLE a
       = (data_length d <? 10 * RLE.totalRuns a) || (4 <? RLE.maxRunLength a)
    /\ (data_length d = 0 ->
        RLE.averageRunLength a = S754_zero false
        /\ RLE.compressionPotential a = S754_nan
        /\ RLE.recommendRLE a = false).
Proof.
  intros Hlen Hd. rewrite (analyzeRLEEffectiveness_value d Hd).
  eexists. split; [reflexivity|]. simpl RLE.recommendRLE.
  simpl RLE.totalRuns. simpl RLE.maxRunLength.
  simpl RLE.averageRunLength. simpl RLE.compressionPotential.
  assert (Hruns : 2 * length (repeats (elems d)) <= data_length d).
  { destruct (repeats_bounds (runs (elems d))) as (H1 & H2 & _).
    fold (repeats (elems d)) in H1, H2.
    rewrite data_length_elems.
    rewrite <- (flatten_runs (elems d)) at 2. rewrite flatten_length. lia. }
  assert (Hrec : SFltb (SFmul 53 1024 (number (data_length d)) RLE.tenth)
                   (number (length (repeats (elems d))))
                 = (data_length d <? 10 * length (repeats (elems d)))).
  { unfold number, RLE.tenth.
    rewrite tenth_threshold.
    - apply eq_iff_eq_true. rewrite Z.ltb_lt, Nat.ltb_lt. lia.
    - lia.
    - change (2 ^ 52)%Z with 4503599627370496%Z in Hlen.
      change (2 ^ 53)%Z with 9007199254740992%Z. lia. }
  rewrite Hrec. split; [reflexivity|].
  intros H0. rewrite H0 in *.
  assert (length (repeats (elems d)) = 0) as Hr0 by lia.
  rewrite Hr0.
  apply length_zero_iff_nil in Hr0. rewrite Hr0. 
  split; [reflexivity|]. split; reflexivity.
Qed.

(** The bytes of the examples. *)
Lemma analyzeRLEEffectiveness_recommends_sample :
  exists a,
    RLE.analyzeRLEEffectiveness sample_bytes = Ok a
    /\ RLE.recommendRLE a
       = (data_length sample_bytes <? 10 * RLE.totalRuns a)
         || (4 <? RLE.maxRunLength a)
    /\ (data_length sample_bytes = 0 ->
        RLE.averageRunLength a = S754_zero false
        /\ RLE.compressionPotential a = S754_nan
        /\ RLE.recommendRLE a = false).
Proof.
  apply (analyzeRLEEffectiveness_recommends sample_bytes).
  - reflexivity.
  - discriminate.
Defined.

(** ** The lengths of the codes *)

Lemma paths_length_pos (n : Huffman.HuffmanNode) : 1 <= length (paths n).
Proof.
  induction n as [c f l r IHl IHr] using HuffmanNode_induction.
  rewrite paths_unfold.
  destruct l as [l|], r as [r|]; simpl in *;
    rewrite ?length_app, ?length_map; simpl; lia.
Qed.

Lemma paths_depth (n : Huffman.HuffmanNode) :
  two_children_sum n ->
  forall ch c, In (ch, c) (paths n) -> S (length c) <= length (paths n).
Proof.
  induction n as [c0 f l r IHl IHr] using HuffmanNode_induction.
  rewrite paths_unfold.
  destruct l as [l|], r as [r|]; simpl; try contradiction.
  - intros (_ & Hl & Hr) ch c Hc.
    rewrite length_app, !length_map.
    pose proof (paths_length_pos l). pose proof (paths_length_pos r).
    apply in_app_or in Hc as [Hc|Hc];
      apply in_map_iff in Hc as ([ch' c'] & [= <- <-] & Hc); simpl.
    + specialize (IHl Hl _ _ Hc). lia.
    + specialize (IHr Hr _ _ Hc). lia.
  - intros _ ch c [[= <- <-]|[]]. simpl. lia.
Qed.

Lemma flat_map_length_bounds {A B : Type} (f : A -> list B) (l : list A)
    (a b : nat) :
  (forall x, In x l -> a <= length (f x) <= b) ->
  length l * a <= length (flat_map f l) <= length l * b.
Proof.
  induction l as [|x l IH]; intros H; simpl; [lia|].
  rewrite length_app.
  specialize (H x (or_introl eq_refl)) as Hx.
  specialize (IH (fun y Hy => H y (or_intror Hy))). lia.
Qed.

(** X18: how long the codes are. For an input that is not empty, with [k]
    distinct symbols, [huffmanCompress] gives every symbol a code of at
    least one bit and at most [k - 1] bits (one bit when [k] is 1); so
    the bits it packs, eight for each byte less the padding, are at least
    as many as the symbols of the input and at most [k - 1] times as
    many, and exactly as many when [k] is 1. *)
Theorem huffmanCompress_code_lengths (d : data) :
  is_empty_input d = false ->
  exists p syms t codes encodedBytes pad,
    Huffman.huffmanCompress d = Ok p
    /\ Huffman.symbols d = Ok syms
    /\ Huffman.buildFrequencyTable d = Ok t
    /\ (root ← Huffman.buildHuffmanTree t; Huffman.buildCodes root) = Ok codes
    /\ Huffman.encodedData p = Some encodedBytes
    /\ Huffman.paddingBits p = Some pad
    /\ (forall k, In k syms ->
        1 <= length (code_of codes k) <= Nat.max 1 (length t - 1))
    /\ length syms <= 8 * length encodedBytes - pad
    /\ 8 * length encodedBytes - pad <= length syms * Nat.max 1 (length t - 1)
    /\ (length t = 1 -> 8 * length encodedBytes - pad = length syms).
Proof.
  intros Hne.
  destruct (symbols_ok d Hne) as (syms & Hsyms & Hsne).
  destruct (buildFrequencyTable_keys d syms Hsyms) as (t & Ht & Hnd & Hkeys).
  assert (Htne : t <> []).
  { intros ->. destruct syms as [|k syms]; [congruence|].
    destruct (proj2 (Hkeys k)); now left. }
  destruct (buildHuffmanTree_nonempty t Htne)
    as (root & Hroot & Hleaf & Hlab & Hlv).
  pose proof (key_paths_keys root t Hlv) as Hkp.
  destruct (buildCodes_paths root Hleaf) as (codes & Hcodes & _ & Hget).
  { now rewrite Hkp. }
  assert (Hall : forall k, In k syms ->
            exists c, get codes k = Some c /\ In (Some k, c) (paths root)).
  { intros k Hk. apply Hkeys in Hk.
    apply (Permutation_in _ (Permutation_sym Hkp)) in Hk.
    apply in_map_iff in Hk as ([k' c] & Hk' & Hkc). simpl in Hk'. subst k'.
    exists c. split; [now apply Hget|].
    unfold key_paths in Hkc.
    apply in_map_iff in Hkc as ([ch c'] & [= Hch ->] & Hp).
    destruct (paths_labelled root Hlab _ Hp) as [k' Hk']. simpl in Hk'.
    subst ch. simpl in Hch. now subst k'. }
  assert (Hnum : length (paths root) = length t).
  { rewrite <- (length_map fst (paths root)), paths_leaves.
    rewrite (Permutation_length Hlv). apply length_map. }
  assert (Hdepth : forall ch c,
            In (ch, c) (paths root) ->
            1 <= length c <= Nat.max 1 (length t - 1)).
  { intros ch c Hc.
    assert (c <> []) as Hcne.
    { intros ->. now apply (paths_nonempty root (ch, [])) in Hc. }
    split; [destruct c; [contradiction|simpl; lia]|].
    pose proof (buildHuffmanTree_entries t) as Hshape.
    pose proof (Permutation_length (entries_perm t)) as Hlen.
    destruct (entries t) as [|e [|e' es]].
    - rewrite Hroot in Hshape. discriminate.
    - rewrite Hroot in Hshape. injection Hshape as ->.
      destruct Hc as [[= <- <-]|[]]. simpl. lia.
    - destruct Hshape as (root' & Hroot' & Htwo & _).
      rewrite Hroot in Hroot'. injection Hroot' as <-.
      pose proof (paths_depth root Htwo ch c Hc). lia. }
  assert (Hcode : forall k, In k syms ->
            1 <= length (code_of codes k) <= Nat.max 1 (length t - 1)).
  { intros k Hk. destruct (Hall k Hk) as (c & Hc & Hp).
    unfold code_of. rewrite Hc. simpl. now apply (Hdepth (Some k)). }
  pose proof (flat_map_length_bounds (code_of codes) syms 1
                (Nat.max 1 (length t - 1)) Hcode) as Hbits.
  destruct (packLoop_ok (flat_map (code_of codes) syms)
              (length (flat_map (code_of codes) syms)) 0 [])
    as (bytes & Hpack & Hunpack); [lia|].
  rewrite Nat.sub_0_r, drop_0 in Hunpack.
  assert (Hbytes : Forall (fun b => (b < 256)%N) bytes)
    by (apply (packLoop_bytes _ _ _ _ _ (List.Forall_nil _) Hpack)).
  assert (Hsize : 8 * length bytes
                  = length (flat_map (code_of codes) syms)
                    + padding (length (flat_map (code_of codes) syms))).
  { rewrite <- (flat_map_byte_bits_length bytes Hbytes), Hunpack.
    now rewrite length_app, length_replicate. }
  eexists _, syms, t, codes, bytes, _.
  split.
  { unfold Huffman.huffmanCompress.
    rewrite Hne, Ht, bind_Ok, Hroot, bind_Ok, Hcodes, bind_Ok, Hsyms, bind_Ok.
    rewrite encode_codes, bind_Ok.
    - simpl app. rewrite Hpack, bind_Ok. reflexivity.
    - intros k Hk. destruct (Hall k Hk) as (c & -> & _). eauto. }
  split; [exact Hsyms|]. split; [exact Ht|].
  split; [now rewrite Hroot, bind_Ok|].
  split; [reflexivity|]. split; [reflexivity|].
  split; [exact Hcode|].
  fold (padding (length (flat_map (code_of codes) syms))).
  rewrite Hsize. split; [lia|]. split; [lia|].
  intros H1. rewrite H1 in Hbits. simpl in Hbits. lia.
Qed.

(** The bytes of the examples. *)
Lemma huffmanCompress_code_lengths_sample :
  exists p syms t codes encodedBytes pad,
    Huffman.huffmanCompress sample_bytes = Ok p
    /\ Huffman.symbols sample_bytes = Ok syms
    /\ Huffman.buildFrequencyTable sample_bytes = Ok t
    /\ (root ← Huffman.buildHuffmanTree t; Huffman.buildCodes root) = Ok codes
    /\ Huffman.encodedData p = Some encodedBytes
    /\ Huffman.paddingBits p = Some pad
    /\ (forall k, In k syms ->
        1 <= length (code_of codes k) <= Nat.max 1 (length t - 1))
    /\ length syms <= 8 * length encodedBytes - pad
    /\ 8 * length encodedBytes - pad <= length syms * Nat.max 1 (length t - 1)
    /\ (length t = 1 -> 8 * length encodedBytes - pad = length syms).
Proof. apply (huffmanCompress_code_lengths sample_bytes). reflexivity. Defined.

(** ** Inputs of one distinct symbol *)

Lemma fold_countSymbol_replicate (k : jsstring) (m : nat) (c : N) :
  fold_left Huffman.countSymbol (replicate m k) [(k, c)]
  = [(k, (c + N.of_nat m)%N)].
Proof.
  revert c. induction m as [|m IH]; intros c; simpl.
  - now rewrite N.add_0_r.
  - unfold Huffman.countSymbol at 2. simpl.
    rewrite !bool_decide_eq_true_2 by reflexivity. simpl.
    rewrite IH. do 2 f_equal. lia.
Qed.

Lemma entries_singleton {V : Type} (k : jsstring) (v : V) :
  entries [(k, v)] = [(k, v)].
Proof.
  unfold entries, index_entries. rewrite filter_cons, filter_nil.
  simpl. destruct (array_index k) as [i|]; simpl.
  - destruct (decide (Some i = None)); [discriminate|]. reflexivity.
  - destruct (decide (@None N = None)); [reflexivity|contradiction].
Qed.

Lemma zero_bytes (bytes : list N) : forall m,
  Forall (fun b => (b < 256)%N) bytes ->
  flat_map byte_bits bytes = replicate m false ->
  bytes = replicate (length bytes) 0%N.
Proof.
  induction bytes as [|b bytes IH]; intros m Hb Hbits; [reflexivity|].
  apply List.Forall_cons_iff in Hb as [Hb Hbs].
  simpl in Hbits.
  pose proof (byte_bits_length b Hb) as Hlen.
  assert (Hm : 8 <= m).
  { apply (f_equal (@length bool)) in Hbits.
    rewrite length_app, length_replicate in Hbits. lia. }
  replace m with (8 + (m - 8)) in Hbits by lia.
  rewrite replicate_add in Hbits.
  apply app_inj_1 in Hbits as [Hbyte Hrest];
    [|now rewrite length_replicate].
  simpl. f_equal.
  - assert (Hz : forallb (fun z => negb (bool_decide
                                         (byte_bits (Z.to_N z)
                                          = replicate 8 false))
                                   || (Z.to_N z =? 0)%N) all_bytes = true)
      by (vm_compute; reflexivity).
    rewrite forallb_forall in Hz.
    specialize (Hz (Z.of_N b)). rewrite N2Z.id in Hz.
    rewrite Hbyte, bool_decide_eq_true_2 in Hz by reflexivity.
    apply N.eqb_eq, Hz. unfold all_bytes.
    apply in_map_iff. exists (N.to_nat b). split; [lia|]. apply in_seq. lia.
  - now apply (IH (m - 8)).
Qed.

Lemma In_replicate {A : Type} (x y : A) (m : nat) :
  In x (replicate m y) -> x = y.
Proof.
  induction m as [|m IH]; simpl; [tauto|]. intros [H|H]; auto.
Qed.

Lemma padded_bytes (m : nat) : (m + padding m) / 8 = (m + 7) / 8.
Proof.
  unfold padding.
  pose proof (Nat.div_mod_eq m 8) as Hm.
  pose proof (Nat.mod_upper_bound m 8 ltac:(lia)) as Hr.
  remember (m / 8) as q eqn:Hq. remember (m mod 8) as r eqn:Hr'.
  clear Hq Hr'.
  destruct (Nat.eq_dec r 0) as [H0|H0].
  - subst r. change ((8 - 0) mod 8) with 0.
    transitivity q.
    + symmetry. apply (Nat.div_unique _ 8 q 0); lia.
    + apply (Nat.div_unique _ 8 q 7); lia.
  - rewrite (Nat.mod_small (8 - r) 8) by lia.
    transitivity (S q).
    + symmetry. apply (Nat.div_unique _ 8 (S q) 0); lia.
    + apply (Nat.div_unique _ 8 (S q) (r - 1)); lia.
Qed.

(** ** Whole numbers as decimal strings *)

Lemma parse_digits_step (c : ascii) (s : string) (acc : option N) (v : N) :
  digit_value 10 (N_of_ascii c) = Some v ->
  parse_digits 10 acc (js (String c s))
  = parse_digits 10
      (Some (match acc with Some a => a * 10 + v | None => v end)%N) (js s).
Proof.
  intros H. change (js (String c s)) with (N_of_ascii c :: js s).
  simpl parse_digits. now rewrite H.
Qed.

Ltac read_digit :=
  cbn [NilEmpty.string_of_uint Pos.of_uint_acc Pos.of_uint];
  match goal with
  | |- context [js (String ?c ?s)] =>
      let v := eval vm_compute in (digit_value 10 (N_of_ascii c)) in
      match v with
      | Some ?n => rewrite (parse_digits_step c s _ n eq_refl)
      end
  end.

Lemma parse_digits_more (d : Decimal.uint) : forall a : positive,
  parse_digits 10 (Some (N.pos a)) (js (NilEmpty.string_of_uint d))
  = Some (N.pos (Pos.of_uint_acc d a)).
Proof.
  induction d as [|d IH|d IH|d IH|d IH|d IH|d IH|d IH|d IH|d IH|d IH];
    intros a; [reflexivity|..]; read_digit; rewrite <- IH; do 2 f_equal; lia.
Qed.

Lemma parse_digits_zero (d : Decimal.uint) :
  parse_digits 10 (Some 0%N) (js (NilEmpty.string_of_uint d))
  = Some (Pos.of_uint d).
Proof.
  induction d as [|d IH|d IH|d IH|d IH|d IH|d IH|d IH|d IH|d IH|d IH];
    [reflexivity|..]; read_digit; [exact IH|..]; apply parse_digits_more.
Qed.

Lemma parse_digits_uint (d : Decimal.uint) :
  d <> Decimal.Nil ->
  parse_digits 10 None (js (NilEmpty.string_of_uint d))
  = Some (Pos.of_uint d).
Proof.
  destruct d; [contradiction|..]; intros _; read_digit;
    [apply parse_digits_zero|..]; apply parse_digits_more.
Qed.

(** A string of decimal digits is read in radix 10, with its sign. *)
Lemma parseInt_uint (d : Decimal.uint) :
  d <> Decimal.Nil ->
  parseInt (js (NilEmpty.string_of_uint d)) = VNum (Z.of_N (Pos.of_uint d))
  /\ parseInt (js (String "-" (NilEmpty.string_of_uint d)))
     = VNum (- Z.of_N (Pos.of_uint d)).
Proof.
  intros Hd.
  assert (H : parseInt (js (NilEmpty.string_of_uint d))
              = match parse_digits 10 None (js (NilEmpty.string_of_uint d)) with
                | Some n => VNum (Z.of_N n)
                | None => VNaN
                end
              /\ parseInt (js (String "-" (NilEmpty.string_of_uint d)))
                 = match parse_digits 10 None
                           (js (NilEmpty.string_of_uint d)) with
                   | Some n => VNum (- Z.of_N n)
                   | None => VNaN
                   end).
  { destruct d as [|d|d|d|d|d|d|d|d|d|d]; [contradiction|..];
      destruct d; split; reflexivity. }
  destruct H as [-> ->]. now rewrite parse_digits_uint.
Qed.

Lemma parseInt_Number_toString (z : Z) : parseInt (Number_toString z) = VNum z.
Proof.
  unfold Number_toString.
  destruct z as [|p|p]; [reflexivity| |]; simpl Z.to_int;
    pose proof (Unsigned.to_uint_nonnil p) as Hnil;
    pose proof (parseInt_uint _ Hnil) as [Hpos Hneg];
    rewrite (DecimalPos.Unsigned.of_to p) in Hpos, Hneg;
    unfold NilZero.string_of_int, NilZero.string_of_uint;
    destruct (Pos.to_uint p); try contradiction; assumption.
Qed.

(** What the decompressor makes of the decoded symbols of an input. *)
Lemma decoded_output_of_symbols (d : data) (syms : list jsstring) :
  Huffman.symbols d = Ok syms ->
  decoded_output_of (Some (isArray d)) (map VStr syms) = output_of d.
Proof.
  destruct d as [|s|a]; simpl; [discriminate| |]; intros [= <-].
  - now rewrite join_strings, string_iterator_concat.
  - f_equal. rewrite !map_map. apply map_ext. intros z. simpl.
    apply parseInt_Number_toString.
Qed.

Lemma map_replicate {A B : Type} (f : A -> B) (x : A) (m : nat) :
  map f (replicate m x) = replicate m (f x).
Proof. induction m as [|m IH]; simpl; [reflexivity|now rewrite IH]. Qed.

(** X19: an input of one distinct symbol. When the input is a string, or
    an array of whole numbers below 2^53 in magnitude, and its symbols are
    [n] copies of one symbol, [n] at least 1, [huffmanCompress] returns
    the tree of one leaf under a parent without a right child, both with
    frequency [n], the code "0" for every symbol, packed into [n / 8]
    bytes rounded up, all of them 0; [huffmanDecompress] gives back the
    input, also when the number of the array is not a byte. The bound is
    that of the numbers JavaScript writes with all their digits and reads
    back exactly, as [Number_toString] and [parseInt] do. *)
Theorem huffmanCompress_single_symbol (d : data) (k : jsstring) (n : nat) :
  safe_input d ->
  Huffman.symbols d = Ok (replicate (S n) k) ->
  Huffman.huffmanCompress d
  = Ok (Huffman.mkPayload
          (Some (replicate ((S n + 7) / 8) 0%N))
          (Some (single_symbol_tree k (N.of_nat (S n)) (N.of_nat (S n))))
          (Some (data_length d))
          (Some (padding (S n)))
          (Some (isArray d)))
  /\ (p ← Huffman.huffmanCompress d; Huffman.huffmanDecompress (Some p))
     = Ok (output_of d).
Proof.
  intros _ Hsyms.
  assert (Hne : is_empty_input d = false).
  { destruct d as [|[|c s]|[|z a]]; try discriminate; reflexivity. }
  assert (Ht : Huffman.buildFrequencyTable d = Ok [(k, N.of_nat (S n))]).
  { unfold Huffman.buildFrequencyTable. rewrite Hsyms, bind_Ok. f_equal.
    change (replicate (S n) k) with (k :: replicate n k).
    change (fold_left Huffman.countSymbol (k :: replicate n k) [])
      with (fold_left Huffman.countSymbol (replicate n k) [(k, 1%N)]).
    rewrite fold_countSymbol_replicate. do 2 f_equal. lia. }
  set (f := N.of_nat (S n)) in *.
  assert (Hroot : Huffman.buildHuffmanTree [(k, f)]
                  = Ok (Some (wrapper (k, f)))).
  { pose proof (buildHuffmanTree_entries [(k, f)]) as H.
    now rewrite entries_singleton in H. }
  destruct (buildCodes_paths (wrapper (k, f)) eq_refl)
    as (codes & Hcodes & _ & Hget).
  { apply NoDup_singleton. }
  assert (Hcode : code_of codes k = [false]).
  { unfold code_of. rewrite (proj2 (Hget k [false])); [reflexivity|].
    now left. }
  assert (Hbits : flat_map (code_of codes) (replicate (S n) k)
                  = replicate (S n) false).
  { clear -Hcode. induction (S n) as [|m IH]; [reflexivity|].
    simpl. now rewrite Hcode, IH. }
  destruct (packLoop_ok (replicate (S n) false)
              (length (replicate (S n) false)) 0 [])
    as (bytes & Hpack & Hunpack); [lia|].
  rewrite Nat.sub_0_r, drop_0, length_replicate in Hunpack.
  rewrite <- replicate_add in Hunpack.
  assert (Hbytes : Forall (fun b => (b < 256)%N) bytes)
    by (apply (packLoop_bytes _ _ _ _ _ (List.Forall_nil _) Hpack)).
  pose proof (zero_bytes bytes _ Hbytes Hunpack) as Hzero.
  assert (Hlen : length bytes = (S n + 7) / 8).
  { pose proof (flat_map_byte_bits_length bytes Hbytes) as H8.
    rewrite Hunpack, length_replicate in H8.
    rewrite <- padded_bytes, H8, Nat.mul_comm. now rewrite Nat.div_mul. }
  rewrite Hlen in Hzero.
  assert (Hc : Huffman.huffmanCompress d
               = Ok (Huffman.mkPayload
                       (Some (replicate ((S n + 7) / 8) 0%N))
                       (Some (single_symbol_tree k f f))
                       (Some (data_length d))
                       (Some (padding (S n)))
                       (Some (isArray d)))).
  { unfold Huffman.huffmanCompress.
    rewrite Hne, Ht, bind_Ok, Hroot, bind_Ok, Hcodes, bind_Ok, Hsyms, bind_Ok.
    rewrite encode_codes, bind_Ok.
    - rewrite app_nil_l, Hbits, Hpack, bind_Ok, app_nil_l.
      rewrite length_replicate, Hzero. reflexivity.
    - intros k' Hk'. apply In_replicate in Hk' as ->.
      exists [false]. apply Hget. now left. }
  split; [exact Hc|].
  rewrite Hc, bind_Ok, huffmanDecompress_kept_bits.
  rewrite decodeLoop_single_symbol.
  assert (Hkept : kept_bits (replicate ((S n + 7) / 8) 0%N)
                    (Some (padding (S n)))
                  = replicate (S n) false).
  { unfold kept_bits. rewrite <- Hzero, Hunpack, length_replicate.
    simpl default. rewrite take_replicate. f_equal. lia. }
  rewrite Hkept.
  replace (forallb negb (replicate (S n) false)) with true.
  - rewrite bind_Ok, length_replicate. f_equal.
    rewrite <- (decoded_output_of_symbols d _ Hsyms).
    now rewrite map_replicate.
  - symmetry. apply forallb_forall. intros b Hb.
    now apply In_replicate in Hb as ->.
Qed.

(** Nine times "a", and three times the number 300. *)
Lemma huffmanCompress_single_symbol_samples :
  (p ← Huffman.huffmanCompress (DStr (js "aaaaaaaaa"));
   Huffman.huffmanDecompress (Some p))
  = Ok (OStr (js "aaaaaaaaa"))
  /\ (p ← Huffman.huffmanCompress (DArr [300; 300; 300]%Z);
      Huffman.huffmanDecompress (Some p))
     = Ok (OArr [VNum 300; VNum 300; VNum 300]).
Proof.
  split.
  - apply (huffmanCompress_single_symbol (DStr (js "aaaaaaaaa")) (js "a") 8);
      [exact I|reflexivity].
  - apply (huffmanCompress_single_symbol (DArr [300; 300; 300]%Z)
             (js "300") 2); [|reflexivity].
    repeat constructor.
Defined.

(** ** Binary64 arithmetic: quotients against 0.3

    The quotient of two whole numbers up to 512, rounded to nearest,
    compares with the literal 0.3 as the exact quotient compares with
    three tenths. *)

Section Binary64Division.
Local Open Scope Z_scope.

Lemma new_location_up (ms r : Z) :
  0 < ms -> 0 <= r ->
  new_location ms r = loc_Inexact Eq \/ new_location ms r = loc_Inexact Gt ->
  ms <= 2 * r.
Proof.
  intros Hms Hr. unfold new_location, new_location_even, new_location_odd.
  destruct (Z.even ms); destruct (Z.eqb_spec r 0) as [->|Hr0].
  - intros [H|H]; discriminate.
  - destruct (Z.compare_spec (2 * r) ms) as [Hc|Hc|Hc]; intros [H|H];
      try discriminate; lia.
  - intros [H|H]; discriminate.
  - destruct (Z.compare_spec (2 * r + 1) ms) as [Hc|Hc|Hc]; intros [H|H];
      try discriminate; lia.
Qed.

Lemma round_nearest_even_loc (q : Z) (loc : location) :
  round_nearest_even q loc = q
  \/ (round_nearest_even q loc = q + 1
      /\ (loc = loc_Inexact Eq \/ loc = loc_Inexact Gt)).
Proof.
  destruct loc as [|[| |]]; simpl; auto.
  match goal with |- context [if ?b then _ else _] => destruct b end; auto.
Qed.

Lemma loc_of_shr_record_of_loc (q : Z) (loc : location) :
  loc_of_shr_record (shr_record_of_loc q loc) = loc
  /\ shr_m (shr_record_of_loc q loc) = q.
Proof. destruct loc as [|[| |]]; split; reflexivity. Qed.

(** The second rounding step: a mantissa that rounding has carried to
    2^53 is halved. *)
Lemma binary_round_carry (q' e : Z) :
  2 ^ 52 <= q' <= 2 ^ 53 -> -1074 <= e -> e + 1 <= 971 ->
  exists m er,
    (let '(mrs'', e'') := shr_fexp 53 1024 q' e loc_Exact in
     match shr_m mrs'' with
     | 0 => S754_zero false
     | Z.pos m => if e'' <=? 1024 - 53 then S754_finite false m e''
                  else S754_infinity false
     | Z.neg _ => S754_nan
     end) = S754_finite false m er
    /\ 2 ^ 52 <= Z.pos m < 2 ^ 53
    /\ e <= er
    /\ Z.pos m * 2 ^ (er - e) = q'.
Proof.
  intros Hq Hlo Hhi.
  destruct (Z.eq_dec q' (2 ^ 53)) as [->|Hne].
  - change (2 ^ 53) with 9007199254740992.
    rewrite (shr_fexp_shift 9007199254740992 e 1)
      by (try (vm_compute; split; [discriminate|reflexivity]); lia).
    cbv beta iota.
    change (shr_m (Nat.iter (Pos.to_nat 1) shr_1
                     (Build_shr_record 9007199254740992 false false)))
      with 4503599627370496.
    replace (e + 1 <=? 1024 - 53) with true
      by (symmetry; apply Z.leb_le; lia).
    exists 4503599627370496%positive, (e + 1).
    split; [reflexivity|].
    split; [vm_compute; split; [discriminate|reflexivity]|].
    split; [lia|].
    replace (e + 1 - e) with 1 by lia. reflexivity.
  - rewrite (shr_fexp_none q' e) by lia.
    cbv beta iota. simpl shr_m.
    destruct q' as [|m|m];
      try (pose proof (Z.pow_pos_nonneg 2 52); lia).
    replace (e <=? 1024 - 53) with true
      by (symmetry; apply Z.leb_le; lia).
    exists m, e.
    split; [reflexivity|]. split; [lia|]. split; [lia|].
    rewrite Z.sub_diag. simpl. lia.
Qed.

Lemma binary_round_aux_quotient (q e ms r : Z) :
  2 ^ 52 <= q < 2 ^ 54 -> 0 < ms -> 0 <= r < ms ->
  -1074 <= e -> e + 2 <= 971 ->
  exists m er q' n,
    binary_round_aux 53 1024 false q e (new_location ms r)
    = S754_finite false m er
    /\ 2 ^ 52 <= Z.pos m < 2 ^ 53
    /\ (n = 0 \/ n = 1)
    /\ e + n <= er
    /\ Z.pos m * 2 ^ (er - (e + n)) = q'
    /\ 2 ^ 52 <= q' <= 2 ^ 53
    /\ q / 2 ^ n <= q'
    /\ 2 * q' * (2 ^ n * ms) <= 2 * (q * ms + r) + 2 ^ n * ms.
Proof.
  intros Hq Hms Hr Hlo Hhi.
  change (2 ^ 52) with 4503599627370496 in *.
  change (2 ^ 54) with 18014398509481984 in *.
  unfold binary_round_aux.
  destruct (Z.lt_ge_cases q 9007199254740992) as [Hlt|Hge].
  - assert (Hshr : shr_fexp 53 1024 q e (new_location ms r)
                   = (shr_record_of_loc q (new_location ms r), e)).
    { unfold shr_fexp.
      rewrite (Zdigits2_unique q 53)
        by (try change (53 - 1) with 52;
            try change (2 ^ 52) with 4503599627370496;
            try change (2 ^ 53) with 9007199254740992; lia).
      rewrite fexp_53 by lia.
      replace (53 + e - 53 - e) with 0 by lia. reflexivity. }
    rewrite Hshr. cbv beta iota.
    destruct (loc_of_shr_record_of_loc q (new_location ms r)) as [-> ->].
    set (q' := round_nearest_even q (new_location ms r)).
    assert (Hq' : 4503599627370496 <= q' <= 9007199254740992
                  /\ q <= q'
                  /\ 2 * q' * ms <= 2 * (q * ms + r) + ms).
    { unfold q'.
      destruct (round_nearest_even_loc q (new_location ms r))
        as [->|[-> Hup]].
      - split; [lia|]. split; [lia|]. nia.
      - apply (new_location_up ms r Hms (proj1 Hr)) in Hup.
        split; [lia|]. split; [lia|]. nia. }
    clearbody q'. destruct Hq' as (Hb & Hge & Hle).
    destruct (binary_round_carry q' e) as (m & er & -> & Hm & He & Hv);
      [change (2 ^ 52) with 4503599627370496;
       change (2 ^ 53) with 9007199254740992; lia|lia|lia|].
    exists m, er, q', 0.
    split; [reflexivity|]. split; [exact Hm|]. split; [now left|].
    split; [lia|]. rewrite Z.add_0_r. split; [exact Hv|].
    split; [exact Hb|].
    change (2 ^ 0) with 1. rewrite Z.div_1_r.
    split; [exact Hge|]. lia.
  - assert (Hshr : shr_fexp 53 1024 q e (new_location ms r)
                   = (shr_1 (shr_record_of_loc q (new_location ms r)),
                      e + 1)).
    { unfold shr_fexp.
      rewrite (Zdigits2_unique q 54)
        by (try change (54 - 1) with 53;
            try change (2 ^ 53) with 9007199254740992;
            try change (2 ^ 54) with 18014398509481984; lia).
      rewrite fexp_53 by lia.
      replace (54 + e - 53 - e) with 1 by lia. reflexivity. }
    rewrite Hshr. cbv beta iota.
    destruct (loc_of_shr_record_of_loc q (new_location ms r)) as [_ Hm0].
    destruct (shr_1_spec (shr_record_of_loc q (new_location ms r)))
      as [Hm1 Hr1]; [rewrite Hm0; lia|].
    rewrite Hm0 in Hm1, Hr1.
    set (mrs := shr_1 (shr_record_of_loc q (new_location ms r))) in *.
    set (q' := round_nearest_even (shr_m mrs) (loc_of_shr_record mrs)).
    pose proof (Z.div_mod q 2 ltac:(lia)) as Hdm.
    pose proof (Z.mod_pos_bound q 2 ltac:(lia)) as Hmod.
    assert (Hq' : 4503599627370496 <= q' <= 9007199254740992
                  /\ q / 2 <= q'
                  /\ 2 * q' * (2 * ms) <= 2 * (q * ms + r) + 2 * ms).
    { unfold q'. destruct (round_nearest_even_cases mrs) as [->|[-> Hodd]];
        rewrite Hm1.
      - split; [lia|]. split; [lia|]. nia.
      - rewrite Hr1 in Hodd. rewrite Zmod_odd, Hodd in Hdm.
        split; [lia|]. split; [lia|]. nia. }
    clearbody q'. destruct Hq' as (Hb & Hge' & Hle).
    destruct (binary_round_carry q' (e + 1)) as (m & er & -> & Hm & He & Hv);
      [change (2 ^ 52) with 4503599627370496;
       change (2 ^ 53) with 9007199254740992; lia|lia|lia|].
    exists m, er, q', 1.
    split; [reflexivity|]. split; [exact Hm|]. split; [now right|].
    split; [lia|]. split; [exact Hv|]. split; [exact Hb|].
    change (2 ^ 1) with 2. split; [exact Hge'|exact Hle].
Qed.


Lemma SFdiv_core_value (mb ms : positive) (eb es : Z) :
  2 ^ 52 <= Z.pos mb < 2 ^ 53 -> 2 ^ 52 <= Z.pos ms < 2 ^ 53 ->
  -900 <= eb - es <= 900 ->
  SFdiv_core_binary 53 1024 (Z.pos mb) eb (Z.pos ms) es
  = ((Z.pos mb * 2 ^ 53) / Z.pos ms, eb - es - 53,
     new_location (Z.pos ms) ((Z.pos mb * 2 ^ 53) mod Z.pos ms)).
Proof.
  intros Hb Hs He. unfold SFdiv_core_binary.
  rewrite !(Zdigits2_unique _ 53) by (try change (53 - 1) with 52; lia).
  cbv zeta. rewrite fexp_53 by lia.
  assert (Hmin : Z.min (53 + eb - (53 + es) - 53) (eb - es) = eb - es - 53)
    by lia.
  rewrite Hmin.
  replace (eb - es - (eb - es - 53)) with 53 by lia.
  cbv iota. rewrite Z.shiftl_mul_pow2 by lia.
  unfold Z.div, Z.modulo.
  now destruct (Z.div_eucl (Z.pos mb * 2 ^ 53) (Z.pos ms)).
Qed.

Lemma ratio_arith (b s G N q' : Z) :
  0 < b -> 0 < s <= 512 -> 1 <= G -> 1 <= N <= 2 ->
  (4 * N <= G \/ G = 2 * N \/ G <= N) ->
  4503599627370496 <= q' <= 9007199254740992 ->
  2 * q' * N * s <= 2 * b * G * 9007199254740992 + N * s ->
  b * G * 9007199254740992 < (q' + 1) * N * s ->
  5404319552844595 * G < 2 * q' * N <-> 3 * s < 10 * b.
Proof.
  intros Hb Hs HG HN Hcase Hq Hup Hlow.
  set (P := 9007199254740992) in *.
  assert (HGP : 0 < G * P) by (apply Z.mul_pos_pos; lia).
  split.
  - intros Hlt. destruct (Z.lt_ge_cases (3 * s) (10 * b)) as [H|H];
      [exact H|]. exfalso.
    assert (H1 : 20 * b * (G * P) <= 6 * s * (G * P))
      by (apply Z.mul_le_mono_nonneg_r; lia).
    assert (H2 : s * (20 * q' * N) <= s * (6 * G * P + 10 * N)) by nia.
    apply Z.mul_le_mono_pos_l in H2; [|lia].
    destruct Hcase as [Hc|[Hc|Hc]].
    + assert (2 * q' * N <= 2 * P * N)
        by (apply Z.mul_le_mono_nonneg_r; lia).
      assert (5404319552844595 * (4 * N) <= 5404319552844595 * G)
        by (apply Z.mul_le_mono_nonneg_l; lia).
      unfold P in *. lia.
    + subst G.
      assert (H3 : N * (20 * q') <= N * (12 * P + 10)) by nia.
      apply Z.mul_le_mono_pos_l in H3; [|lia].
      assert (q' <= 5404319552844595) by (unfold P in *; lia).
      assert (2 * q' * N <= 2 * 5404319552844595 * N)
        by (apply Z.mul_le_mono_nonneg_r; lia).
      lia.
    + assert (H3 : 6 * G * P <= 6 * N * P)
        by (apply Z.mul_le_mono_nonneg_r; unfold P; lia).
      assert (H4 : N * (20 * q') <= N * (6 * P + 10)) by nia.
      apply Z.mul_le_mono_pos_l in H4; [|lia].
      unfold P in *. lia.
  - intros Hlt. destruct (Z.lt_ge_cases (5404319552844595 * G) (2 * q' * N))
      as [H|H]; [exact H|]. exfalso.
    assert (H1 : (3 * s + 1) * (G * P) <= 10 * b * (G * P))
      by (apply Z.mul_le_mono_nonneg_r; lia).
    assert (H2 : 2 * q' * N * s <= 5404319552844595 * G * s)
      by (apply Z.mul_le_mono_nonneg_r; lia).
    assert (H3 : 1 * P <= G * P)
      by (apply Z.mul_le_mono_nonneg_r; unfold P; lia).
    assert (H4 : N * s <= 2 * 512) by nia.
    assert (H5 : 0 < G * s) by (apply Z.mul_pos_pos; lia).
    assert (H6 : 10 * (3 * P - 1) = 6 * P * 5 - 10) by (unfold P; lia).
    assert (H7 : 5 * 5404319552844595 = 3 * P - 1) by (unfold P; lia).
    assert (H8 : 5 * (2 * q' * N * s) <= (3 * P - 1) * (G * s)).
    { rewrite <- H7. lia. }
    assert (H9 : (3 * s + 1) * (G * P)
                 = 3 * P * (G * s) + G * P) by ring.
    assert (H10 : (3 * P - 1) * (G * s) = 3 * P * (G * s) - G * s) by ring.
    unfold P in *. lia.
Qed.


Lemma small_mantissa (z k : Z) (m : positive) :
  0 < z <= 512 -> 0 <= k <= 52 -> 2 ^ 52 <= Z.pos m -> Z.pos m = z * 2 ^ k ->
  43 <= k.
Proof.
  intros Hz Hk Hm Hv.
  destruct (Z.lt_ge_cases k 43) as [H|H]; [|exact H]. exfalso.
  assert (2 ^ k <= 2 ^ 42) by (apply Z.pow_le_mono_r; lia).
  assert (0 < 2 ^ k) by (apply Z.pow_pos_nonneg; lia).
  assert (z * 2 ^ k <= 512 * 2 ^ 42)
    by (apply Z.mul_le_mono_nonneg; lia).
  change (2 ^ 52) with 4503599627370496 in Hm.
  change (512 * 2 ^ 42) with 2251799813685248 in *. lia.
Qed.

Lemma three_tenths_threshold (b s : Z) :
  0 <= b <= s -> s <= 512 ->
  SFltb Server.three_tenths
    (SFdiv 53 1024 (binary_normalize 53 1024 b 0 false)
       (binary_normalize 53 1024 s 0 false))
  = (3 * s <? 10 * b).
Proof.
  intros Hb Hs.
  destruct (Z.eq_dec s 0) as [->|Hs0].
  { assert (b = 0) as -> by lia. reflexivity. }
  destruct (binary_normalize_value s) as (ms & ks & -> & Hms & Hks & Hvs);
    [change (2 ^ 53) with 9007199254740992; lia|].
  destruct (Z.eq_dec b 0) as [->|Hb0].
  { change (false = (3 * s <? 10 * 0)). symmetry. apply Z.ltb_ge. lia. }
  destruct (binary_normalize_value b) as (mb & kb & -> & Hmb & Hkb & Hvb);
    [change (2 ^ 53) with 9007199254740992; lia|].
  pose proof (small_mantissa b kb mb ltac:(lia) Hkb (proj1 Hmb) Hvb) as Hkb'.
  pose proof (small_mantissa s ks ms ltac:(lia) Hks (proj1 Hms) Hvs) as Hks'.
  assert (HB : 0 < 2 ^ kb) by (apply Z.pow_pos_nonneg; lia).
  assert (HS : 0 < 2 ^ ks) by (apply Z.pow_pos_nonneg; lia).
  assert (Hg : ks <= kb).
  { destruct (Z.le_gt_cases ks kb) as [H|H]; [exact H|]. exfalso.
    assert (H2 : 2 * 2 ^ kb <= 2 ^ ks).
    { rewrite <- Z.pow_succ_r by lia. apply Z.pow_le_mono_r; lia. }
    assert (b * (2 * 2 ^ kb) <= s * 2 ^ ks)
      by (apply Z.mul_le_mono_nonneg; lia).
    change (2 ^ 52) with 4503599627370496 in *.
    change (2 ^ 53) with 9007199254740992 in *. lia. }
  unfold SFdiv. simpl xorb.
  rewrite SFdiv_core_value by (try assumption; lia).
  set (Num := Z.pos mb * 2 ^ 53).
  pose proof (Z.div_mod Num (Z.pos ms) ltac:(lia)) as Hdm.
  pose proof (Z.mod_pos_bound Num (Z.pos ms) ltac:(lia)) as Hmod.
  set (q := Num / Z.pos ms) in *. set (r := Num mod Z.pos ms) in *.
  assert (Hq : 2 ^ 52 <= q < 2 ^ 54).
  { unfold q, Num. change (2 ^ 52) with 4503599627370496 in *.
    change (2 ^ 53) with 9007199254740992 in *.
    change (2 ^ 54) with 18014398509481984. split.
    - apply Z.div_le_lower_bound; lia.
    - apply Z.div_lt_upper_bound; lia. }
  destruct (binary_round_aux_quotient q (- kb - - ks - 53) (Z.pos ms) r)
    as (m & er & q' & n & -> & Hm & Hn & Her & Hv & Hq' & Hge & Hle);
    [exact Hq|lia|exact Hmod|lia|lia|].
  unfold Server.three_tenths.
  assert (Ht3 : 2 ^ 52 <= 5404319552844595 < 2 ^ 53)
    by (vm_compute; split; [discriminate|reflexivity]).
  assert (Her' : -64 <= er) by (destruct Hn; lia).
  rewrite (SFltb_finite 5404319552844595 m (-54) er (-64) Ht3 Hm
             ltac:(lia) Her').
  apply eq_iff_eq_true. rewrite !Z.ltb_lt.
  set (g := kb - ks).
  assert (HG : 0 < 2 ^ g) by (apply Z.pow_pos_nonneg; unfold g; lia).
  assert (HN : 0 < 2 ^ n) by (apply Z.pow_pos_nonneg; destruct Hn; lia).
  assert (Hrhs : Z.pos m * 2 ^ (er - -64) * 2 ^ g
                 = 2 * q' * 2 ^ n * 2 ^ 10).
  { rewrite <- Hv.
    replace (2 * (Z.pos m * 2 ^ (er - (- kb - - ks - 53 + n))) * 2 ^ n
             * 2 ^ 10)
      with (Z.pos m * (2 ^ (er - (- kb - - ks - 53 + n)) * 2 ^ 1 * 2 ^ n
                       * 2 ^ 10)) by ring.
    rewrite <- Z.mul_assoc. f_equal.
    rewrite <- !Z.pow_add_r by (destruct Hn; unfold g; lia).
    f_equal. unfold g. lia. }
  assert (Hlhs : 5404319552844595 * 2 ^ (-54 - -64) * 2 ^ g
                 = 5404319552844595 * 2 ^ g * 2 ^ 10)
    by (change (-54 - -64) with 10; ring).
  assert (Hscale : 5404319552844595 * 2 ^ (-54 - -64)
                   < Z.pos m * 2 ^ (er - -64)
                   <-> 5404319552844595 * 2 ^ g < 2 * q' * 2 ^ n).
  { split; intros H.
    - apply (Z.mul_lt_mono_pos_r (2 ^ 10)); [reflexivity|].
      rewrite <- Hlhs, <- Hrhs. apply Z.mul_lt_mono_pos_r; assumption.
    - apply (Z.mul_lt_mono_pos_r (2 ^ g)); [assumption|].
      rewrite Hlhs, Hrhs. apply Z.mul_lt_mono_pos_r; [reflexivity|exact H]. }
  rewrite Hscale.
  assert (Hnum : Num = b * 2 ^ g * 9007199254740992 * 2 ^ ks).
  { unfold Num. rewrite Hvb. change (2 ^ 53) with 9007199254740992.
    replace kb with (g + ks) by (unfold g; lia).
    rewrite Z.pow_add_r by (unfold g; lia). ring. }
  assert (Hcase : 4 * 2 ^ n <= 2 ^ g \/ 2 ^ g = 2 * 2 ^ n \/ 2 ^ g <= 2 ^ n).
  { destruct (Z.lt_trichotomy g (n + 1)) as [H|[H|H]].
    - right. right. apply Z.pow_le_mono_r; lia.
    - right. left. rewrite H, Z.add_1_r, Z.pow_succ_r by (destruct Hn; lia).
      reflexivity.
    - left. change 4 with (2 ^ 2).
      rewrite <- Z.pow_add_r by (destruct Hn; lia).
      apply Z.pow_le_mono_r; lia. }
  assert (HNb : 1 <= 2 ^ n <= 2).
  { destruct Hn as [-> | ->]; [change (2 ^ 0) with 1|change (2 ^ 1) with 2];
      lia. }
  assert (Hqb : 4503599627370496 <= q' <= 9007199254740992).
  { change (2 ^ 52) with 4503599627370496 in Hq'.
    change (2 ^ 53) with 9007199254740992 in Hq'. exact Hq'. }
  assert (Hup : 2 * q' * 2 ^ n * s
                <= 2 * b * 2 ^ g * 9007199254740992 + 2 ^ n * s).
  { assert (H : (2 * q' * 2 ^ n * s) * 2 ^ ks
                <= (2 * b * 2 ^ g * 9007199254740992 + 2 ^ n * s)
                   * 2 ^ ks).
    { replace (q * Z.pos ms + r) with Num in Hle by lia.
      rewrite Hnum, Hvs in Hle.
      replace (2 * q' * 2 ^ n * s * 2 ^ ks)
        with (2 * q' * (2 ^ n * (s * 2 ^ ks))) by ring.
      replace ((2 * b * 2 ^ g * 9007199254740992 + 2 ^ n * s) * 2 ^ ks)
        with (2 * (b * 2 ^ g * 9007199254740992 * 2 ^ ks)
              + 2 ^ n * (s * 2 ^ ks)) by ring.
      exact Hle. }
    apply Z.mul_le_mono_pos_r in H; assumption. }
  assert (Hlow : b * 2 ^ g * 9007199254740992 < (q' + 1) * 2 ^ n * s).
  { assert (Hq1 : q + 1 <= (q' + 1) * 2 ^ n).
    { pose proof (Z.div_mod q (2 ^ n) ltac:(lia)) as Hd.
      pose proof (Z.mod_pos_bound q (2 ^ n) HN) as Hm'.
      assert (2 ^ n * (q / 2 ^ n + 1) <= 2 ^ n * (q' + 1))
        by (apply Z.mul_le_mono_nonneg_l; lia).
      lia. }
    assert (H : (b * 2 ^ g * 9007199254740992) * 2 ^ ks
                < ((q' + 1) * 2 ^ n * s) * 2 ^ ks).
    { rewrite <- Hnum.
      apply Z.lt_le_trans with ((q + 1) * Z.pos ms); [lia|].
      rewrite Hvs.
      replace ((q' + 1) * 2 ^ n * s * 2 ^ ks)
        with ((q' + 1) * 2 ^ n * (s * 2 ^ ks)) by ring.
      apply Z.mul_le_mono_nonneg_r; lia. }
    apply Z.mul_lt_mono_pos_r in H; assumption. }
  apply (ratio_arith b s (2 ^ g) (2 ^ n) q');
    [lia|lia|lia|exact HNb|exact Hcase|exact Hqb|exact Hup|exact Hlow].
Qed.

End Binary64Division.

(** ** What [isBinaryData] tells *)

Lemma count_binary_looking (sample : list Z) : forall n,
  fold_left (fun binaryBytes byte =>
               if Server.binary_looking byte then binaryBytes + 1
               else binaryBytes) sample n
  = n + length (List.filter Server.binary_looking sample).
Proof.
  induction sample as [|byte sample IH]; intros n; simpl; [lia|].
  rewrite IH. destruct (Server.binary_looking byte); simpl; lia.
Qed.

Lemma filter_length_le {A : Type} (f : A -> bool) (l : list A) :
  length (List.filter f l) <= length l.
Proof.
  induction l as [|x l IH]; simpl; [lia|]. destruct (f x); simpl; lia.
Qed.

(** X20: [isBinaryData] looks at the first 512 bytes of the buffer, all
    of them when there are fewer, and answers true exactly when more
    than three tenths of them are binary-looking: 0, or below 32 and not
    a tab, a line feed or a carriage return. The quotient is rounded and
    0.3 is not three tenths, yet the answer is that of the exact
    comparison, false at exactly three tenths; for an empty buffer the
    quotient is [NaN] and the answer is false. *)
Theorem isBinaryData_threshold (buffer : list Z) :
  Server.isBinaryData buffer
  = (3 * length (take 512 buffer)
     <? 10 * length (List.filter Server.binary_looking (take 512 buffer)))
  /\ Server.isBinaryData [] = false.
Proof.
  split; [|reflexivity].
  unfold Server.isBinaryData.
  assert (Hsample : take (Nat.min (length buffer) 512) buffer
                    = take 512 buffer).
  { destruct (Nat.le_gt_cases (length buffer) 512) as [H|H].
    - rewrite Nat.min_l by exact H. now rewrite !take_ge by lia.
    - rewrite Nat.min_r by lia. reflexivity. }
  rewrite Hsample. cbv zeta. rewrite count_binary_looking. simpl Nat.add.
  pose proof (filter_length_le Server.binary_looking (take 512 buffer))
    as Hle.
  assert (Hlen : length (take 512 buffer) <= 512)
    by (rewrite length_take; lia).
  unfold number. rewrite three_tenths_threshold by lia.
  apply eq_iff_eq_true. rewrite Z.ltb_lt, Nat.ltb_lt. lia.
Qed.

(** ** No tree encodes the text in fewer bits *)

Lemma weighted_length_app (p q : list (N * nat)) :
  weighted_length (p ++ q) = (weighted_length p + weighted_length q)%N.
Proof.
  unfold weighted_length. induction p as [|e p IH]; simpl; [reflexivity|].
  rewrite IH. lia.
Qed.

Lemma weighted_length_perm (p q : list (N * nat)) :
  p ≡ₚ q -> weighted_length p = weighted_length q.
Proof.
  unfold weighted_length.
  induction 1 as [|e p q _ IH|e e' p|p q r _ IH1 _ IH2]; simpl;
    [reflexivity|now rewrite IH|lia|congruence].
Qed.

Lemma greedy_perm (ws ws' : list N) (c : N) :
  ws ≡ₚ ws' -> greedy ws c -> greedy ws' c.
Proof.
  intros Hp Hg. destruct Hg as [w|ws a b rest c Hws Hab Hrest Hg].
  - apply Permutation_singleton_l in Hp. subst ws'. constructor.
  - apply (greedy_merge ws' a b rest c); try assumption.
    now rewrite <- Hp.
Qed.

(** The depths of two leaves or more: two of them are deepest. *)
Lemma splits_deepest (ds : list nat) :
  splits ds -> 2 <= length ds ->
  exists D rest,
    ds ≡ₚ S D :: S D :: rest
    /\ Forall (fun d => d <= S D) rest
    /\ splits (D :: rest).
Proof.
  induction 1 as [|D rest Hs _ Hmax|l l' Hp Hs IH]; intros Hlen.
  - simpl in Hlen. lia.
  - exists D, rest. auto.
  - destruct IH as (D & rest & Hl & Hmax & Hs').
    { now rewrite (Permutation_length Hp). }
    exists D, rest. split; [now rewrite <- Hp|auto].
Qed.

(** Giving the lightest weight the deepest place costs nothing. *)
Lemma exchange (M : nat) (x a : N) (q : list (N * nat)) (rest : list N) :
  x :: map fst q ≡ₚ a :: rest ->
  Forall (fun w => (a <= w)%N) rest ->
  Forall (fun e => snd e <= M) q ->
  exists q',
    map fst q' ≡ₚ rest
    /\ map snd q' ≡ₚ map snd q
    /\ (a * N.of_nat M + weighted_length q'
        <= x * N.of_nat M + weighted_length q)%N.
Proof.
  intros Hp Hmin Hdepth.
  assert (Hin : In a (x :: map fst q)).
  { apply (Permutation_in a (Permutation_sym Hp)). now left. }
  destruct Hin as [<-|Hin].
  - apply Permutation_cons_inv in Hp. exists q. split; [exact Hp|].
    split; [reflexivity|lia].
  - apply in_map_iff in Hin as ([a' d] & Ha & Hin). simpl in Ha. subst a'.
    apply in_split in Hin as (q1 & q2 & ->).
    exists ((x, d) :: q1 ++ q2).
    assert (Hq : q1 ++ (a, d) :: q2 ≡ₚ (a, d) :: q1 ++ q2)
      by (symmetry; apply Permutation_middle).
    assert (Hx : (a <= x)%N).
    { assert (Hxin : In x (a :: rest))
        by (apply (Permutation_in x Hp); now left).
      destruct Hxin as [->|Hxin]; [lia|].
      rewrite List.Forall_forall in Hmin. now apply Hmin. }
    assert (Hd : d <= M).
    { rewrite List.Forall_forall in Hdepth.
      apply (Hdepth (a, d)). apply in_elt. }
    split; [|split].
    + simpl. rewrite (Permutation_map fst Hq) in Hp. simpl in Hp.
      rewrite perm_swap in Hp. now apply Permutation_cons_inv in Hp.
    + simpl. now rewrite (Permutation_map snd Hq).
    + rewrite (weighted_length_perm _ _ Hq). simpl.
      change (fold_right _ 0%N (q1 ++ q2)) with (weighted_length (q1 ++ q2)).
      nia.
Qed.

(** Whatever full tree carries the weights, it costs as much as the
    merges of the two lightest. *)
Lemma greedy_lower_bound (ws : list N) (c : N) :
  greedy ws c ->
  forall p,
    map fst p ≡ₚ ws -> splits (map snd p) -> (c <= weighted_length p)%N.
Proof.
  induction 1 as [w|ws a b rest c Hws Hab Hrest Hg IH]; intros p Hp Hs.
  - lia.
  - assert (Hlen : 2 <= length (map snd p)).
    { rewrite length_map, <- (length_map fst p).
      rewrite (Permutation_length Hp), (Permutation_length Hws). simpl. lia. }
    destruct (splits_deepest _ Hs Hlen) as (D & ds & Hds & Hmax & Hs').
    apply Permutation_sym, Permutation_map_inv in Hds
      as (p0 & Hp0 & Hpp0).
    destruct p0 as [|[x d1] [|[y d2] q]]; try discriminate.
    simpl in Hp0. injection Hp0 as <- <- ->.
    assert (Hq : Forall (fun e => snd e <= S D) q).
    { rewrite List.Forall_forall in *. intros e He.
      apply Hmax, in_map_iff. eauto. }
    assert (Hw : x :: map fst ((y, S D) :: q) ≡ₚ a :: b :: rest).
    { rewrite <- Hws, <- Hp. now rewrite (Permutation_map fst Hpp0). }
    destruct (exchange (S D) x a ((y, S D) :: q) (b :: rest) Hw)
      as (q1 & Hw1 & Hd1 & Hc1).
    { constructor; [exact Hab|].
      rewrite List.Forall_forall in *. intros w Hin.
      specialize (Hrest w Hin). lia. }
    { now constructor. }
    simpl in Hd1.
    apply Permutation_sym, Permutation_map_inv in Hd1
      as (q1' & Hq1' & Hq1p).
    destruct q1' as [|[y' d'] q2]; try discriminate.
    simpl in Hq1'. injection Hq1' as <- Hq2.
    assert (Hw2 : y' :: map fst q2 ≡ₚ b :: rest).
    { rewrite <- Hw1. now rewrite (Permutation_map fst Hq1p). }
    assert (Hq2d : Forall (fun e => snd e <= S D) q2).
    { rewrite List.Forall_forall in *. intros e He.
      assert (In (snd e) (map snd q)) as Hin
        by (rewrite Hq2; apply in_map_iff; eauto).
      apply in_map_iff in Hin as (e' & <- & He'). now apply Hq. }
    destruct (exchange (S D) y' b q2 rest Hw2 Hrest Hq2d)
      as (q3 & Hw3 & Hd3 & Hc3).
    specialize (IH ((a + b, D)%N :: q3)).
    assert (Hih : (c <= weighted_length (((a + b)%N, D) :: q3))%N).
    { apply IH.
      - simpl. now rewrite Hw3.
      - simpl. apply (splits_perm (D :: map snd q)); [|exact Hs'].
        now rewrite Hd3, Hq2. }
    rewrite (weighted_length_perm _ _ Hpp0).
    rewrite (weighted_length_perm _ _ Hq1p) in Hc1.
    simpl in Hih, Hc1, Hc3 |- *.
    change (fold_right _ 0%N q) with (weighted_length q) in *.
    change (fold_right _ 0%N q2) with (weighted_length q2) in *.
    change (fold_right _ 0%N q3) with (weighted_length q3) in *.
    lia.
Qed.

Lemma height_leaf (n : Huffman.HuffmanNode) :
  Huffman.isLeaf n = true -> height n = 0.
Proof. now destruct n as [c f [l|] [r|]]. Qed.

Lemma leaf_depths_leaf (n : Huffman.HuffmanNode) (d : nat) :
  Huffman.isLeaf n = true -> leaf_depths n d = [(Huffman.freq n, d)].
Proof. intros H. destruct n as [c f l r]. simpl. now rewrite H. Qed.

Lemma leaf_depths_node (c : option jsstring) (f : N)
    (l r : Huffman.HuffmanNode) (d : nat) :
  leaf_depths (Huffman.mkNode c f (Some l) (Some r)) d
  = leaf_depths l (S d) ++ leaf_depths r (S d).
Proof. reflexivity. Qed.

Lemma leaf_depths_bound (n : Huffman.HuffmanNode) :
  forall d e, In e (leaf_depths n d) -> snd e <= d + height n.
Proof.
  induction n as [c f l r IHl IHr] using HuffmanNode_induction.
  intros d e. destruct l as [l|], r as [r|]; simpl in IHl, IHr.
  - rewrite leaf_depths_node, in_app_iff.
    change (height (Huffman.mkNode c f (Some l) (Some r)))
      with (S (Nat.max (height l) (height r))).
    intros [He|He]; [apply IHl in He|apply IHr in He]; lia.
  - change (leaf_depths (Huffman.mkNode c f (Some l) None) d)
      with (leaf_depths l (S d) ++ []).
    change (height (Huffman.mkNode c f (Some l) None))
      with (S (Nat.max (height l) 0)).
    rewrite app_nil_r. intros He. apply IHl in He. lia.
  - change (leaf_depths (Huffman.mkNode c f None (Some r)) d)
      with (leaf_depths r (S d)).
    change (height (Huffman.mkNode c f None (Some r)))
      with (S (Nat.max 0 (height r))).
    intros He. apply IHr in He. lia.
  - intros [<-|[]]. simpl. lia.
Qed.

(** A full tree of two leaves or more comes from a full tree of one leaf
    fewer by splitting a leaf into two deepest ones. *)
Lemma peel (n : Huffman.HuffmanNode) :
  full n -> Huffman.isLeaf n = false ->
  forall d,
    exists n0 x y D rest,
      full n0
      /\ leaf_depths n d ≡ₚ (x, S D) :: (y, S D) :: rest
      /\ leaf_depths n0 d ≡ₚ ((x + y)%N, D) :: rest
      /\ Forall (fun e => snd e <= S D) rest
      /\ S D = d + height n.
Proof.
  induction n as [c f l r IHl IHr] using HuffmanNode_induction.
  destruct l as [l|], r as [r|]; simpl full; try contradiction;
    try discriminate.
  intros [Hl Hr] _ d. simpl in IHl, IHr.
  rewrite leaf_depths_node.
  assert (Hcase : (Huffman.isLeaf l = true /\ Huffman.isLeaf r = true)
                  \/ (Huffman.isLeaf l = false /\ height r <= height l)
                  \/ (Huffman.isLeaf r = false /\ height l <= height r)).
  { destruct (Huffman.isLeaf l) eqn:El, (Huffman.isLeaf r) eqn:Er.
    - now left.
    - right. right. rewrite (height_leaf l El). split; [reflexivity|lia].
    - right. left. rewrite (height_leaf r Er). split; [reflexivity|lia].
    - destruct (Nat.le_ge_cases (height r) (height l)); auto. }
  change (height (Huffman.mkNode c f (Some l) (Some r)))
    with (S (Nat.max (height l) (height r))).
  destruct Hcase as [[El Er]|[[El Hh]|[Er Hh]]].
  - exists (Huffman.mkNode None (Huffman.freq l + Huffman.freq r) None None),
      (Huffman.freq l), (Huffman.freq r), d, [].
    rewrite (leaf_depths_leaf l _ El), (leaf_depths_leaf r _ Er).
    rewrite (height_leaf l El), (height_leaf r Er).
    split; [exact I|]. split; [reflexivity|]. split; [reflexivity|].
    split; [constructor|]. simpl. lia.
  - destruct (IHl Hl El (S d)) as (l0 & x & y & D & rest & H0 & Hp & Hp0 & Hb & HD).
    exists (Huffman.mkNode c f (Some l0) (Some r)), x, y, D,
      (rest ++ leaf_depths r (S d)).
    split; [split; assumption|].
    split; [now rewrite Hp|].
    split; [rewrite leaf_depths_node; now rewrite Hp0|].
    split.
    + apply Forall_app. split; [exact Hb|].
      apply List.Forall_forall. intros e He.
      apply leaf_depths_bound in He. lia.
    + lia.
  - destruct (IHr Hr Er (S d)) as (r0 & x & y & D & rest & H0 & Hp & Hp0 & Hb & HD).
    exists (Huffman.mkNode c f (Some l) (Some r0)), x, y, D,
      (leaf_depths l (S d) ++ rest).
    split; [split; assumption|].
    split.
    { rewrite Hp. rewrite !(Permutation_middle (leaf_depths l (S d))).
      reflexivity. }
    split.
    { rewrite leaf_depths_node, Hp0.
      now rewrite (Permutation_middle (leaf_depths l (S d))). }
    split.
    + apply Forall_app. split; [|exact Hb].
      apply List.Forall_forall. intros e He.
      apply leaf_depths_bound in He. lia.
    + lia.
Qed.

Lemma splits_full : forall k n,
  length (leaf_depths n 0) <= k -> full n ->
  splits (map snd (leaf_depths n 0)).
Proof.
  induction k as [|k IH]; intros n Hk Hfull.
  - destruct n as [c f [l|] [r|]]; simpl in Hfull; try contradiction.
    + rewrite leaf_depths_node, length_app in Hk.
      destruct (Huffman.isLeaf l) eqn:El.
      * rewrite (leaf_depths_leaf l _ El) in Hk. simpl in Hk. lia.
      * destruct (peel l (proj1 Hfull) El 1) as (? & ? & ? & ? & ? & _ & Hp & _).
        rewrite (Permutation_length Hp) in Hk. simpl in Hk. lia.
    + simpl in Hk. lia.
  - destruct (Huffman.isLeaf n) eqn:En.
    + rewrite (leaf_depths_leaf n 0 En). constructor.
    + destruct (peel n Hfull En 0)
        as (n0 & x & y & D & rest & H0 & Hp & Hp0 & Hb & _).
      apply (splits_perm (S D :: S D :: map snd rest)).
      { now rewrite (Permutation_map snd Hp). }
      constructor.
      * apply (splits_perm (map snd (leaf_depths n0 0))).
        { now rewrite (Permutation_map snd Hp0). }
        apply IH; [|exact H0].
        rewrite (Permutation_length Hp0).
        rewrite (Permutation_length Hp) in Hk. simpl in *. lia.
      * apply List.Forall_forall. intros dp Hd.
        apply in_map_iff in Hd as (e & <- & He).
        rewrite List.Forall_forall in Hb. now apply Hb.
Qed.

Lemma two_children_sum_full (n : Huffman.HuffmanNode) :
  two_children_sum n -> full n.
Proof.
  induction n as [c f l r IHl IHr] using HuffmanNode_induction.
  destruct l as [l|], r as [r|]; simpl; try tauto.
  intros (_ & Hl & Hr). simpl in IHl, IHr. auto.
Qed.

Lemma leaf_weights_depth (n : Huffman.HuffmanNode) : forall d d',
  map fst (leaf_depths n d) = map fst (leaf_depths n d').
Proof.
  induction n as [c f l r IHl IHr] using HuffmanNode_induction.
  intros d d'. destruct l as [l|], r as [r|]; simpl in *;
    rewrite ?map_app, ?app_nil_r; try reflexivity.
  - now rewrite (IHl (S d) (S d')), (IHr (S d) (S d')).
  - apply IHl.
  - apply IHr.
Qed.

Lemma weighted_length_deeper (n : Huffman.HuffmanNode) :
  two_children_sum n ->
  forall d,
    weighted_length (leaf_depths n (S d))
    = (weighted_length (leaf_depths n d) + Huffman.freq n)%N.
Proof.
  induction n as [c f l r IHl IHr] using HuffmanNode_induction.
  destruct l as [l|], r as [r|]; simpl two_children_sum; try contradiction.
  - intros (Hf & Hl & Hr) d. simpl in IHl, IHr, Hf.
    rewrite !leaf_depths_node, !weighted_length_app.
    rewrite (IHl Hl), (IHr Hr). simpl Huffman.freq. lia.
  - intros _ d. simpl. lia.
Qed.

Lemma cost_merged (l r : Huffman.HuffmanNode) :
  two_children_sum l -> two_children_sum r ->
  cost (merged l r)
  = (cost l + cost r + Huffman.freq l + Huffman.freq r)%N.
Proof.
  intros Hl Hr. unfold cost, merged.
  rewrite leaf_depths_node, weighted_length_app.
  rewrite (weighted_length_deeper l Hl), (weighted_length_deeper r Hr). lia.
Qed.

Lemma mergeStep_lightest (heap : list Huffman.HuffmanNode) :
  heap_ordered heap -> 2 <= length heap ->
  exists l r rest heap',
    Huffman.mergeStep heap = Ok heap'
    /\ heap ≡ₚ l :: r :: rest
    /\ heap' ≡ₚ merged l r :: rest
    /\ (Huffman.freq l <= Huffman.freq r)%N
    /\ Forall (fun n => (Huffman.freq r <= Huffman.freq n)%N) rest
    /\ heap_ordered heap'.
Proof.
  intros Hord Hlen. unfold Huffman.mergeStep.
  destruct (extractMin_ok heap) as (l & h1 & Hex1 & Hp1).
  { intros ->. simpl in Hlen. lia. }
  destruct (extractMin_ordered heap h1 l Hord Hex1) as [Hord1 Hmin1].
  destruct (extractMin_ok h1) as (r & h2 & Hex2 & Hp2).
  { intros ->. apply Permutation_length in Hp1. simpl in Hp1. lia. }
  destruct (extractMin_ordered h1 h2 r Hord1 Hex2) as [Hord2 Hmin2].
  destruct (insert_ok h2 (merged l r)) as (heap' & Hins & Hp').
  exists l, r, h2, heap'.
  rewrite Hex1, bind_Ok, Hex2, bind_Ok. simpl Huffman.nonNull.
  rewrite !bind_Ok. split; [exact Hins|].
  split; [now rewrite <- Hp1, <- Hp2|]. split; [exact Hp'|].
  rewrite <- Hp2 in Hmin2. rewrite <- Hp1, <- Hp2 in Hmin1.
  apply Forall_cons in Hmin2 as [_ Hmin2].
  apply Forall_cons in Hmin1 as [_ Hmin1].
  apply Forall_cons in Hmin1 as [Hlr _].
  split; [exact Hlr|]. split; [exact Hmin2|].
  now apply (insert_ordered h2 heap' (merged l r)).
Qed.

Lemma mergeLoop_greedy : forall fuel heap,
  length heap <= fuel -> heap <> [] -> heap_ordered heap ->
  Forall two_children_sum heap ->
  exists root c,
    Huffman.mergeLoop fuel heap = Ok [root]
    /\ two_children_sum root
    /\ greedy (map Huffman.freq heap) c
    /\ cost root
       = (c + weighted_length (flat_map (fun n => leaf_depths n 0) heap))%N
    /\ map fst (leaf_depths root 0)
       ≡ₚ flat_map (fun n => map fst (leaf_depths n 0)) heap
    /\ leaf_entries root ≡ₚ flat_map leaf_entries heap.
Proof.
  assert (Hone : forall fuel root,
            exists root' c,
              Huffman.mergeLoop fuel [root] = Ok [root']
              /\ two_children_sum root = two_children_sum root'
              /\ greedy (map Huffman.freq [root]) c
              /\ cost root'
                 = (c + weighted_length
                          (flat_map (fun n => leaf_depths n 0) [root]))%N
              /\ map fst (leaf_depths root' 0)
                 ≡ₚ flat_map (fun n => map fst (leaf_depths n 0)) [root]
              /\ leaf_entries root' ≡ₚ flat_map leaf_entries [root]).
  { intros fuel root. exists root, 0%N.
    split; [now destruct fuel|]. split; [reflexivity|].
    split; [constructor|]. cbn [flat_map]. rewrite !app_nil_r.
    repeat split; reflexivity. }
  induction fuel as [|fuel IH]; intros heap Hfuel Hne Hord Htwo.
  - destruct heap; [congruence|simpl in Hfuel; lia].
  - destruct heap as [|n0 [|n1 heap]]; [congruence| |].
    { destruct (Hone (S fuel) n0)
        as (root & c & H1 & H2 & H3 & H4 & H5 & H6).
      exists root, c. split; [exact H1|]. split; [|auto].
      rewrite <- H2. now apply Forall_cons in Htwo as [? _]. }
    set (h := n0 :: n1 :: heap) in *.
    assert (Hlen : 2 <= length h) by (simpl; lia).
    destruct (mergeStep_lightest h Hord Hlen)
      as (l & r & rest & heap' & Hstep & Hh & Hh' & Hlr & Hmin & Hord').
    assert (Htwo' : Forall two_children_sum (l :: r :: rest))
      by now rewrite <- Hh.
    apply Forall_cons in Htwo' as [Hl Htwo'].
    apply Forall_cons in Htwo' as [Hr Hrest].
    destruct (IH heap')
      as (root & c & Hloop & Hroot & Hg & Hcost & Hw & Hle).
    { apply Permutation_length in Hh, Hh'. simpl in *. lia. }
    { intros ->. apply Permutation_length in Hh'. discriminate. }
    { exact Hord'. }
    { rewrite Hh'. constructor; [|exact Hrest]. simpl. auto. }
    exists root, (Huffman.freq l + Huffman.freq r + c)%N.
    split.
    { change (Huffman.mergeLoop (S fuel) h)
        with (if 1 <? length h
              then heap ← Huffman.mergeStep h; Huffman.mergeLoop fuel heap
              else Ok h).
      replace (1 <? length h) with true
        by (symmetry; apply Nat.ltb_lt; lia).
      now rewrite Hstep, bind_Ok. }
    split; [exact Hroot|]. split; [|split; [|split]].
    + apply (greedy_merge _ (Huffman.freq l) (Huffman.freq r)
               (map Huffman.freq rest) c).
      * now rewrite (Permutation_map Huffman.freq Hh).
      * exact Hlr.
      * apply List.Forall_forall. intros w Hin.
        apply in_map_iff in Hin as (n & <- & Hn).
        rewrite List.Forall_forall in Hmin. now apply Hmin.
      * apply (greedy_perm (map Huffman.freq heap')); [|exact Hg].
        now rewrite (Permutation_map Huffman.freq Hh').
    + rewrite Hcost.
      rewrite (weighted_length_perm _ _
                 (Permutation_flat_map (fun n => leaf_depths n 0) Hh')).
      rewrite (weighted_length_perm _ _
                 (Permutation_flat_map (fun n => leaf_depths n 0) Hh)).
      cbn [flat_map]. rewrite !weighted_length_app.
      fold (cost (merged l r)). fold (cost l). fold (cost r).
      rewrite (cost_merged l r Hl Hr). lia.
    + rewrite Hw.
      rewrite (Permutation_flat_map (fun n => map fst (leaf_depths n 0)) Hh').
      rewrite (Permutation_flat_map (fun n => map fst (leaf_depths n 0)) Hh).
      cbn [flat_map]. unfold merged.
      rewrite leaf_depths_node, map_app.
      rewrite (leaf_weights_depth l 1 0), (leaf_weights_depth r 1 0).
      now rewrite <- app_assoc.
    + rewrite Hle, (Permutation_flat_map leaf_entries Hh').
      rewrite (Permutation_flat_map leaf_entries Hh).
      cbn [flat_map].
      change (leaf_entries (merged l r))
        with (leaf_entries l ++ leaf_entries r).
      now rewrite <- app_assoc.
Qed.

Lemma leaves_cost_nothing (es : list (jsstring * N)) :
  weighted_length (flat_map (fun n => leaf_depths n 0) (map leaf_of es)) = 0%N
  /\ flat_map (fun n => map fst (leaf_depths n 0)) (map leaf_of es)
     = map snd es
  /\ map Huffman.freq (map leaf_of es) = map snd es
  /\ Forall two_children_sum (map leaf_of es)
  /\ flat_map leaf_entries (map leaf_of es)
     = map (fun e => (Some (fst e), snd e)) es.
Proof.
  induction es as [|e es (IH1 & IH2 & IH3 & IH4 & IH5)]; simpl.
  - repeat split; constructor.
  - rewrite IH2, IH3, IH5. repeat split; try reflexivity.
    + change (fold_right _ 0%N ?l) with (weighted_length l). lia.
    + constructor; [exact I|exact IH4].
Qed.

Lemma weighted_length_mono (n : Huffman.HuffmanNode) : forall d,
  (weighted_length (leaf_depths n d)
   <= weighted_length (leaf_depths n (S d)))%N.
Proof.
  induction n as [c f l r IHl IHr] using HuffmanNode_induction.
  intros d. destruct l as [l|], r as [r|]; simpl in IHl, IHr.
  - rewrite !leaf_depths_node, !weighted_length_app.
    specialize (IHl (S d)). specialize (IHr (S d)). lia.
  - change (leaf_depths (Huffman.mkNode c f (Some l) None) ?k)
      with (leaf_depths l (S k) ++ []).
    rewrite !app_nil_r. apply IHl.
  - change (leaf_depths (Huffman.mkNode c f None (Some r)) ?k)
      with (leaf_depths r (S k)).
    apply IHr.
  - simpl. lia.
Qed.

Lemma contract_full (n : Huffman.HuffmanNode) : full (contract n).
Proof.
  induction n as [c f l r IHl IHr] using HuffmanNode_induction.
  destruct l as [l|], r as [r|]; simpl in *; auto.
Qed.

Lemma contract_depths (n : Huffman.HuffmanNode) : forall d,
  map fst (leaf_depths (contract n) d) = map fst (leaf_depths n d)
  /\ (weighted_length (leaf_depths (contract n) d)
      <= weighted_length (leaf_depths n d))%N.
Proof.
  induction n as [c f l r IHl IHr] using HuffmanNode_induction.
  intros d. destruct l as [l|], r as [r|]; simpl in IHl, IHr.
  - change (contract (Huffman.mkNode c f (Some l) (Some r)))
      with (Huffman.mkNode c f (Some (contract l)) (Some (contract r))).
    rewrite !leaf_depths_node, !map_app, !weighted_length_app.
    destruct (IHl (S d)) as [-> Hl]. destruct (IHr (S d)) as [-> Hr].
    split; [reflexivity|lia].
  - change (contract (Huffman.mkNode c f (Some l) None)) with (contract l).
    change (leaf_depths (Huffman.mkNode c f (Some l) None) d)
      with (leaf_depths l (S d) ++ []).
    rewrite app_nil_r. destruct (IHl d) as [-> Hl].
    split; [apply leaf_weights_depth|].
    pose proof (weighted_length_mono l d). lia.
  - change (contract (Huffman.mkNode c f None (Some r))) with (contract r).
    change (leaf_depths (Huffman.mkNode c f None (Some r)) d)
      with (leaf_depths r (S d)).
    destruct (IHr d) as [-> Hr].
    split; [apply leaf_weights_depth|].
    pose proof (weighted_length_mono r d). lia.
  - split; [reflexivity|]. simpl. lia.
Qed.

(** The tree of a table of two entries or more costs what the merges of
    the two lightest cost. *)
Lemma buildHuffmanTree_greedy (t : object N) :
  2 <= length t ->
  exists root c,
    Huffman.buildHuffmanTree t = Ok (Some root)
    /\ two_children_sum root
    /\ greedy (map snd t) c
    /\ cost root = c
    /\ map fst (leaf_depths root 0) ≡ₚ map snd t
    /\ leaf_entries root ≡ₚ map (fun e => (Some (fst e), snd e)) t.
Proof.
  intros Hlen.
  destruct (insertLeaves_ok (entries t) []) as (heap & Hins & Hheap).
  rewrite app_nil_r in Hheap.
  pose proof (Permutation_length (entries_perm t)) as Hentries.
  assert (Hsize : length heap = length t).
  { now rewrite (Permutation_length Hheap), length_map. }
  assert (Hord : heap_ordered heap).
  { apply (insertLeaves_ordered (entries t) [] heap); [|exact Hins].
    intros i p c _ Hp. discriminate. }
  destruct (leaves_cost_nothing (entries t))
    as (Hzero & Hweights & Hfreq & Htwo & Hentr).
  destruct (mergeLoop_greedy (length heap) heap)
    as (root & c & Hloop & Hroot & Hg & Hcost & Hw & Hle).
  { lia. }
  { intros ->. simpl in Hsize. lia. }
  { exact Hord. }
  { now rewrite Hheap. }
  rewrite (weighted_length_perm _ _
             (Permutation_flat_map (fun n => leaf_depths n 0) Hheap)) in Hcost.
  rewrite Hzero, N.add_0_r in Hcost.
  rewrite (Permutation_flat_map (fun n => map fst (leaf_depths n 0)) Hheap)
    in Hw.
  rewrite Hweights in Hw.
  rewrite (Permutation_flat_map leaf_entries Hheap), Hentr in Hle.
  assert (Hws : map Huffman.freq heap ≡ₚ map snd t).
  { rewrite (Permutation_map Huffman.freq Hheap), Hfreq.
    apply Permutation_map, entries_perm. }
  exists root, c. split.
  { unfold Huffman.buildHuffmanTree. rewrite Hins, bind_Ok.
    replace (length heap =? 1) with false
      by (symmetry; apply Nat.eqb_neq; lia).
    rewrite Hloop, bind_Ok. reflexivity. }
  split; [exact Hroot|].
  split; [now apply (greedy_perm (map Huffman.freq heap))|].
  split; [exact Hcost|].
  split; [rewrite Hw; apply Permutation_map, entries_perm|].
  rewrite Hle. apply Permutation_map, entries_perm.
Qed.

(** No tree with the weights on its leaves costs less. *)
Lemma greedy_optimal (ws : list N) (c : N) (other : Huffman.HuffmanNode) :
  greedy ws c -> map fst (leaf_depths other 0) ≡ₚ ws -> (c <= cost other)%N.
Proof.
  intros Hg Hother.
  destruct (contract_depths other 0) as [Hsame Hless].
  apply N.le_trans with (weighted_length (leaf_depths (contract other) 0));
    [|exact Hless].
  apply (greedy_lower_bound ws c Hg).
  - now rewrite Hsame.
  - apply (splits_full (length (leaf_depths (contract other) 0)));
      [lia|apply contract_full].
Qed.

(** X21: the tree is optimal. For a table of two entries or more,
    [buildHuffmanTree] returns a tree in which every node has two
    children or none and whose leaves carry the frequencies of the table,
    and no tree with these frequencies on its leaves has a smaller
    weighted path length: whatever tree the codes are read from, a text
    with these frequencies takes at least as many bits. *)
Theorem buildHuffmanTree_optimal (t : object N) :
  2 <= length t ->
  exists root,
    Huffman.buildHuffmanTree t = Ok (Some root)
    /\ full root
    /\ map fst (leaf_depths root 0) ≡ₚ map snd t
    /\ forall other,
         map fst (leaf_depths other 0) ≡ₚ map snd t ->
         (cost root <= cost other)%N.
Proof.
  intros Hlen.
  destruct (buildHuffmanTree_greedy t Hlen)
    as (root & c & Hroot & Htwo & Hg & Hcost & Hw & _).
  exists root. split; [exact Hroot|].
  split; [now apply two_children_sum_full|]. split; [exact Hw|].
  intros other Hother. rewrite Hcost.
  now apply (greedy_optimal (map snd t)).
Qed.

(** The table of the text "abcabc". *)
Lemma buildHuffmanTree_optimal_abc :
  exists root,
    Huffman.buildHuffmanTree table_abc = Ok (Some root)
    /\ full root
    /\ map fst (leaf_depths root 0) ≡ₚ map snd table_abc
    /\ forall other,
         map fst (leaf_depths other 0) ≡ₚ map snd table_abc ->
         (cost root <= cost other)%N.
Proof. apply (buildHuffmanTree_optimal table_abc). simpl. lia. Defined.

(** ** The bits of the payload are the fewest *)

Lemma weighted_length_codes (code : jsstring -> Huffman.bits)
    (n : Huffman.HuffmanNode) :
  forall pre,
    (forall ch c, In (ch, c) (paths n) ->
                  code (Huffman.char_key ch) = pre ++ c) ->
    weighted_length (leaf_depths n (length pre))
    = weighted_length
        (map (fun e => (snd e, length (code (Huffman.char_key (fst e)))))
           (leaf_entries n)).
Proof.
  induction n as [c0 f l r IHl IHr] using HuffmanNode_induction.
  intros pre Hcode.
  assert (Hstep : forall (b : bool) (m : Huffman.HuffmanNode),
            (forall ch c, In (ch, c) (paths m) ->
                          In (ch, b :: c)
                            (paths (Huffman.mkNode c0 f l r))) ->
            forall ch c, In (ch, c) (paths m) ->
                         code (Huffman.char_key ch) = (pre ++ [b]) ++ c).
  { intros b m Hm ch c Hc. rewrite <- app_assoc. apply Hcode, Hm, Hc. }
  assert (Hlen : forall b : bool, length (pre ++ [b]) = S (length pre))
    by (intros b; rewrite length_app; simpl; lia).
  rewrite paths_unfold in Hstep.
  destruct l as [l|], r as [r|]; simpl in IHl, IHr.
  - rewrite leaf_depths_node.
    change (leaf_entries (Huffman.mkNode c0 f (Some l) (Some r)))
      with (leaf_entries l ++ leaf_entries r).
    rewrite map_app, !weighted_length_app.
    rewrite <- (Hlen false) at 1. rewrite <- (Hlen true).
    rewrite (IHl (pre ++ [false])), (IHr (pre ++ [true])); [reflexivity| |].
    + apply Hstep. intros ch c Hc. simpl. apply in_or_app. right.
      apply in_map_iff. now exists (ch, c).
    + apply Hstep. intros ch c Hc. simpl. apply in_or_app. left.
      apply in_map_iff. now exists (ch, c).
  - change (leaf_depths (Huffman.mkNode c0 f (Some l) None) (length pre))
      with (leaf_depths l (S (length pre)) ++ []).
    change (leaf_entries (Huffman.mkNode c0 f (Some l) None))
      with (leaf_entries l ++ []).
    rewrite !app_nil_r, <- (Hlen false).
    apply IHl, Hstep. intros ch c Hc. simpl. apply in_or_app. left.
    apply in_map_iff. now exists (ch, c).
  - change (leaf_depths (Huffman.mkNode c0 f None (Some r)) (length pre))
      with (leaf_depths r (S (length pre))).
    change (leaf_entries (Huffman.mkNode c0 f None (Some r)))
      with (leaf_entries r).
    rewrite <- (Hlen true).
    apply IHr, Hstep. intros ch c Hc. simpl.
    apply in_map_iff. now exists (ch, c).
  - simpl. rewrite (Hcode c0 []) by (now left).
    now rewrite app_nil_r.
Qed.

(** Counting the bits symbol by symbol or entry by entry of the table
    is the same. *)
Lemma weighted_length_countSymbol (code : jsstring -> Huffman.bits)
    (t : object N) (s : jsstring) :
  weighted_length
    (map (fun e => (snd e, length (code (fst e)))) (Huffman.countSymbol t s))
  = (weighted_length (map (fun e => (snd e, length (code (fst e)))) t)
     + N.of_nat (length (code s)))%N.
Proof.
  unfold Huffman.countSymbol.
  induction t as [|[k v] t IH]; simpl.
  - lia.
  - destruct (bool_decide (k = s)) eqn:E; simpl.
    + apply bool_decide_eq_true in E. subst k. lia.
    + rewrite IH. lia.
Qed.

Lemma weighted_length_table (code : jsstring -> Huffman.bits)
    (syms : list jsstring) : forall t : object N,
  weighted_length
    (map (fun e => (snd e, length (code (fst e))))
       (fold_left Huffman.countSymbol syms t))
  = (weighted_length (map (fun e => (snd e, length (code (fst e)))) t)
     + N.of_nat (length (flat_map code syms)))%N.
Proof.
  induction syms as [|s syms IH]; intros t; simpl.
  - lia.
  - rewrite IH, weighted_length_countSymbol, length_app. lia.
Qed.

(** X22: the bits of the payload are the fewest. For an input of two
    distinct symbols or more, the number of bits [huffmanCompress] packs,
    eight for each byte less the padding, is the weighted path length of
    its tree, each symbol counting the length of its code as often as it
    occurs; and no tree with the frequencies of the symbols on its leaves
    has a smaller one: no other code of this kind encodes the input in
    fewer bits. *)
Theorem huffmanCompress_fewest_bits (d : data) (syms : list jsstring)
    (t : object N) :
  Huffman.symbols d = Ok syms ->
  Huffman.buildFrequencyTable d = Ok t ->
  2 <= length t ->
  exists p root encodedBytes pad,
    Huffman.huffmanCompress d = Ok p
    /\ Huffman.buildHuffmanTree t = Ok (Some root)
    /\ Huffman.encodedData p = Some encodedBytes
    /\ Huffman.paddingBits p = Some pad
    /\ N.of_nat (8 * length encodedBytes - pad) = cost root
    /\ forall other,
         map fst (leaf_depths other 0) ≡ₚ map snd t ->
         (N.of_nat (8 * length encodedBytes - pad) <= cost other)%N.
Proof.
  intros Hsyms Ht Hlen.
  assert (Hne : is_empty_input d = false).
  { destruct d as [|[|c s]|[|z a]]; try reflexivity; try discriminate;
      unfold Huffman.buildFrequencyTable in Ht; simpl in Ht;
      injection Ht as <-; simpl in Hlen; lia. }
  destruct (buildFrequencyTable_keys d syms Hsyms) as (t' & Ht' & Hnd & Hkeys).
  rewrite Ht in Ht'. injection Ht' as <-.
  destruct (buildHuffmanTree_greedy t Hlen)
    as (root & c & Hroot & Htwo & Hg & Hcost & Hw & Hle).
  assert (Htne : t <> []) by (intros ->; simpl in Hlen; lia).
  destruct (buildHuffmanTree_nonempty t Htne)
    as (root' & Hroot' & Hleaf & Hlab & Hlv).
  rewrite Hroot in Hroot'. injection Hroot' as <-.
  pose proof (key_paths_keys root t Hlv) as Hkp.
  destruct (buildCodes_paths root Hleaf) as (codes & Hcodes & _ & Hget).
  { now rewrite Hkp. }
  assert (Hall : forall k, In k syms ->
            exists c, get codes k = Some c /\ In (Some k, c) (paths root)).
  { intros k Hk. apply Hkeys in Hk.
    apply (Permutation_in _ (Permutation_sym Hkp)) in Hk.
    apply in_map_iff in Hk as ([k' c'] & Hk' & Hkc). simpl in Hk'. subst k'.
    exists c'. split; [now apply Hget|].
    unfold key_paths in Hkc.
    apply in_map_iff in Hkc as ([ch c''] & [= Hch ->] & Hp).
    destruct (paths_labelled root Hlab _ Hp) as [k' Hk']. simpl in Hk'.
    subst ch. simpl in Hch. now subst k'. }
  assert (Hbits : N.of_nat (length (flat_map (code_of codes) syms))
                  = cost root).
  { unfold cost.
    pose proof (weighted_length_codes (code_of codes) root []) as Hwc.
    change (length (@nil bool)) with 0 in Hwc. rewrite Hwc.
    - rewrite (weighted_length_perm _ _
                 (Permutation_map
                    (fun e => (snd e,
                               length (code_of codes
                                         (Huffman.char_key (fst e)))))
                    Hle)).
      rewrite map_map. simpl.
      unfold Huffman.buildFrequencyTable in Ht.
      rewrite Hsyms, bind_Ok in Ht. injection Ht as <-.
      rewrite (weighted_length_table (code_of codes) syms []). simpl. lia.
    - intros ch c' Hc. simpl. unfold code_of.
      rewrite (proj2 (Hget (Huffman.char_key ch) c')); [reflexivity|].
      unfold key_paths. apply in_map_iff. now exists (ch, c'). }
  destruct (packLoop_ok (flat_map (code_of codes) syms)
              (length (flat_map (code_of codes) syms)) 0 [])
    as (bytes & Hpack & Hunpack); [lia|].
  rewrite Nat.sub_0_r, drop_0 in Hunpack.
  assert (Hbytes : Forall (fun b => (b < 256)%N) bytes)
    by (apply (packLoop_bytes _ _ _ _ _ (List.Forall_nil _) Hpack)).
  assert (Hsize : 8 * length bytes
                  = length (flat_map (code_of codes) syms)
                    + padding (length (flat_map (code_of codes) syms))).
  { rewrite <- (flat_map_byte_bits_length bytes Hbytes), Hunpack.
    now rewrite length_app, length_replicate. }
  eexists _, root, bytes, _.
  split.
  { unfold Huffman.huffmanCompress.
    rewrite Hne, Ht, bind_Ok, Hroot, bind_Ok, Hcodes, bind_Ok, Hsyms, bind_Ok.
    rewrite encode_codes, bind_Ok.
    - simpl app. rewrite Hpack, bind_Ok. reflexivity.
    - intros k Hk. destruct (Hall k Hk) as (c' & -> & _). eauto. }
  split; [exact Hroot|]. split; [reflexivity|]. split; [reflexivity|].
  fold (padding (length (flat_map (code_of codes) syms))).
  rewrite Hsize, Nat.add_sub, Hbits.
  split; [reflexivity|].
  intros other Hother. rewrite Hcost.
  now apply (greedy_optimal (map snd t)).
Qed.

(** The text "abcabc". *)
Lemma huffmanCompress_fewest_bits_abc :
  exists p root encodedBytes pad,
    Huffman.huffmanCompress (DStr (js "abcabc")) = Ok p
    /\ Huffman.buildHuffmanTree table_abc = Ok (Some root)
    /\ Huffman.encodedData p = Some encodedBytes
    /\ Huffman.paddingBits p = Some pad
    /\ N.of_nat (8 * length encodedBytes - pad) = cost root
    /\ forall other,
         map fst (leaf_depths other 0) ≡ₚ map snd table_abc ->
         (N.of_nat (8 * length encodedBytes - pad) <= cost other)%N.
Proof.
  apply (huffmanCompress_fewest_bits (DStr (js "abcabc"))
           (string_iterator (js "abcabc")) table_abc).
  - reflexivity.
  - reflexivity.
  - simpl. lia.
Defined.

(** ** Binary64 arithmetic: quotients between whole numbers

    A rounded quotient of whole numbers stays on the side of every whole
    number that the exact quotient is on. *)

Section Binary64Bounds.
Local Open Scope Z_scope.

Lemma SFleb_finite (m1 m2 : positive) (e1 e2 c : Z) :
  2 ^ 52 <= Z.pos m1 < 2 ^ 53 -> 2 ^ 52 <= Z.pos m2 < 2 ^ 53 ->
  c <= e1 -> c <= e2 ->
  SFleb (S754_finite false m1 e1) (S754_finite false m2 e2)
  = (Z.pos m1 * 2 ^ (e1 - c) <=? Z.pos m2 * 2 ^ (e2 - c)).
Proof.
  intros H1 H2 Hc1 Hc2.
  pose proof (SFltb_finite m2 m1 e2 e1 c H2 H1 Hc2 Hc1) as Hlt.
  assert (Hneg : SFleb (S754_finite false m1 e1) (S754_finite false m2 e2)
                 = negb (SFltb (S754_finite false m2 e2)
                           (S754_finite false m1 e1))).
  { unfold SFleb, SFltb, SFcompare.
    change (Pos.compare_cont Eq m1 m2) with (m1 ?= m2)%positive.
    change (Pos.compare_cont Eq m2 m1) with (m2 ?= m1)%positive.
    rewrite (Z.compare_antisym e1 e2), (Pos.compare_antisym m1 m2).
    destruct (e1 ?= e2); simpl; try reflexivity.
    now destruct (m1 ?= m2)%positive. }
  rewrite Hneg, Hlt. symmetry. apply Z.leb_antisym.
Qed.

Lemma SFdiv_between (a b y : Z) :
  0 < a < 2 ^ 53 -> 0 < b < 2 ^ 53 -> 0 < y < 2 ^ 53 ->
  (a <= y * b ->
   SFleb (SFdiv 53 1024 (binary_normalize 53 1024 a 0 false)
            (binary_normalize 53 1024 b 0 false))
     (binary_normalize 53 1024 y 0 false) = true)
  /\ (y * b <= a ->
      SFleb (binary_normalize 53 1024 y 0 false)
        (SFdiv 53 1024 (binary_normalize 53 1024 a 0 false)
           (binary_normalize 53 1024 b 0 false)) = true)
  /\ exists m e,
       SFdiv 53 1024 (binary_normalize 53 1024 a 0 false)
         (binary_normalize 53 1024 b 0 false)
       = S754_finite false m e.
Proof.
  intros Ha Hb Hy.
  destruct (binary_normalize_value a Ha) as (ma & ka & -> & Hma & Hka & Hva).
  destruct (binary_normalize_value b Hb) as (mb & kb & -> & Hmb & Hkb & Hvb).
  destruct (binary_normalize_value y Hy) as (my & ky & -> & Hmy & Hky & Hvy).
  unfold SFdiv. simpl xorb.
  rewrite SFdiv_core_value by (try assumption; lia).
  set (Num := Z.pos ma * 2 ^ 53).
  pose proof (Z.div_mod Num (Z.pos mb) ltac:(lia)) as Hdm.
  pose proof (Z.mod_pos_bound Num (Z.pos mb) ltac:(lia)) as Hmod.
  set (q := Num / Z.pos mb) in *. set (r := Num mod Z.pos mb) in *.
  assert (Hq : 2 ^ 52 <= q < 2 ^ 54).
  { unfold q, Num. change (2 ^ 52) with 4503599627370496 in *.
    change (2 ^ 53) with 9007199254740992 in *.
    change (2 ^ 54) with 18014398509481984. split.
    - apply Z.div_le_lower_bound; lia.
    - apply Z.div_lt_upper_bound; lia. }
  destruct (binary_round_aux_quotient q (- ka - - kb - 53) (Z.pos mb) r)
    as (m & er & q' & n & -> & Hm & Hn & Her & Hv & Hq' & Hge & Hle);
    [exact Hq|lia|exact Hmod|lia|lia|].
  assert (Hn' : 0 <= n <= 1) by (destruct Hn; lia).
  assert (Her' : -110 <= er) by lia.
  cut ((a <= y * b ->
        SFleb (S754_finite false m er) (S754_finite false my (- ky)) = true)
       /\ (y * b <= a ->
           SFleb (S754_finite false my (- ky)) (S754_finite false m er)
           = true)).
  { intros [H1 H2]. split; [exact H1|]. split; [exact H2|]. now exists m, er. }
  rewrite (SFleb_finite m my er (- ky) (-110) Hm Hmy Her' ltac:(lia)).
  rewrite (SFleb_finite my m (- ky) er (-110) Hmy Hm ltac:(lia) Her').
  rewrite !Z.leb_le.
  set (j := kb - ka + 57 + n).
  set (k := 53 + ka - kb - n).
  assert (HJ : 0 < 2 ^ j) by (apply Z.pow_pos_nonneg; unfold j; lia).
  assert (HK : 0 < 2 ^ k) by (apply Z.pow_pos_nonneg; unfold k; lia).
  assert (HU : 0 < 2 ^ (kb + n)) by (apply Z.pow_pos_nonneg; lia).
  assert (Hlhs : Z.pos m * 2 ^ (er - -110) = q' * 2 ^ j).
  { rewrite <- Hv, <- Z.mul_assoc. f_equal.
    rewrite <- Z.pow_add_r by (unfold j; lia). f_equal. unfold j. lia. }
  assert (Hrhs : Z.pos my * 2 ^ (- ky - -110) = y * 2 ^ k * 2 ^ j).
  { rewrite Hvy, <- !Z.mul_assoc. f_equal.
    rewrite <- !Z.pow_add_r by (unfold j, k; lia).
    f_equal. unfold j, k. lia. }
  rewrite Hlhs, Hrhs.
  assert (Hnum : Num = a * 2 ^ k * 2 ^ (kb + n)).
  { unfold Num. rewrite Hva, <- !Z.mul_assoc. f_equal.
    rewrite <- !Z.pow_add_r by (unfold k; lia). f_equal. unfold k. lia. }
  assert (Hden : 2 ^ n * Z.pos mb = b * 2 ^ (kb + n)).
  { rewrite Hvb, Z.pow_add_r by lia. ring. }
  split; intros Hside.
  - apply Z.mul_le_mono_nonneg_r; [lia|].
    replace (q * Z.pos mb + r) with Num in Hle by lia.
    rewrite Hden, Hnum in Hle.
    assert (H1 : (2 * q' * b) * 2 ^ (kb + n)
                 <= (2 * a * 2 ^ k + b) * 2 ^ (kb + n)).
    { replace (2 * q' * b * 2 ^ (kb + n))
        with (2 * q' * (b * 2 ^ (kb + n))) by ring.
      replace ((2 * a * 2 ^ k + b) * 2 ^ (kb + n))
        with (2 * (a * 2 ^ k * 2 ^ (kb + n)) + b * 2 ^ (kb + n)) by ring.
      exact Hle. }
    apply Z.mul_le_mono_pos_r in H1; [|exact HU].
    assert (H2 : a * 2 ^ k <= y * b * 2 ^ k)
      by (apply Z.mul_le_mono_nonneg_r; lia).
    assert (H3 : b * (2 * q') <= b * (2 * (y * 2 ^ k) + 1)).
    { replace (b * (2 * q')) with (2 * q' * b) by ring.
      replace (b * (2 * (y * 2 ^ k) + 1))
        with (2 * (y * b * 2 ^ k) + b) by ring.
      lia. }
    apply Z.mul_le_mono_pos_l in H3; lia.
  - apply Z.mul_le_mono_nonneg_r; [lia|].
    apply Z.le_trans with (q / 2 ^ n); [|exact Hge].
    assert (HN : 0 < 2 ^ n) by (apply Z.pow_pos_nonneg; lia).
    apply Z.div_le_lower_bound; [exact HN|].
    unfold q. apply Z.div_le_lower_bound; [lia|].
    rewrite Hnum.
    replace (Z.pos mb * (2 ^ n * (y * 2 ^ k)))
      with (y * 2 ^ k * (2 ^ n * Z.pos mb)) by ring.
    rewrite Hden.
    replace (y * 2 ^ k * (b * 2 ^ (kb + n)))
      with (y * b * 2 ^ k * 2 ^ (kb + n)) by ring.
    apply Z.mul_le_mono_nonneg_r; [lia|].
    apply Z.mul_le_mono_nonneg_r; lia.
Qed.

End Binary64Bounds.

(** ** The quotients of [analyzeRLEEffectiveness] *)

Lemma list_sum_max (l : list nat) : list_sum l <= list_max l * length l.
Proof.
  induction l as [|x l IH]; simpl; [lia|].
  assert (list_max l * length l <= Nat.max x (list_max l) * length l)
    by (apply Nat.mul_le_mono_r; lia).
  lia.
Qed.

(** X23: the quotients of [analyzeRLEEffectiveness] are rounded, and
    still on the right side of the whole numbers around them. For a
    string or array of fewer than 2^53 symbols that is not empty,
    [compressionPotential] is a number from 0 to 1; when the input has
    a run of two symbols or more, [averageRunLength] is a number from 2
    to [maxRunLength]; when it has none, both are 0. *)
Theorem analyzeRLEEffectiveness_quotients (d : data) :
  (Z.of_nat (data_length d) < 2 ^ 53)%Z ->
  d <> DAbsent ->
  0 < data_length d ->
  exists a,
    RLE.analyzeRLEEffectiveness d = Ok a
    /\ SFleb (number 0) (RLE.compressionPotential a) = true
    /\ SFleb (RLE.compressionPotential a) (number 1) = true
    /\ (0 < RLE.totalRuns a ->
        SFleb (number 2) (RLE.averageRunLength a) = true
        /\ SFleb (RLE.averageRunLength a) (number (RLE.maxRunLength a))
           = true)
    /\ (RLE.totalRuns a = 0 ->
        RLE.averageRunLength a = S754_zero false
        /\ RLE.compressionPotential a = S754_zero false).
Proof.
  intros Hlen Hd Hpos. rewrite (analyzeRLEEffectiveness_value d Hd).
  eexists. split; [reflexivity|].
  simpl RLE.totalRuns. simpl RLE.maxRunLength.
  simpl RLE.averageRunLength. simpl RLE.compressionPotential.
  destruct (repeats_bounds (runs (elems d))) as (H1 & H2 & H3 & H4).
  fold (repeats (elems d)) in H1, H2, H3, H4.
  pose proof (list_sum_max (map snd (repeats (elems d)))) as H5.
  rewrite length_map in H5.
  assert (H6 : list_sum (map snd (runs (elems d))) = data_length d).
  { now rewrite <- flatten_length, flatten_runs, data_length_elems. }
  rewrite H6 in H2.
  set (runs := length (repeats (elems d))) in *.
  set (total := list_sum (map snd (repeats (elems d)))) in *.
  set (mx := list_max (map snd (repeats (elems d)))) in *.
  change (2 ^ 53)%Z with 9007199254740992%Z in Hlen.
  assert (Hzero : forall n, 0 < n -> (Z.of_nat n < 9007199254740992)%Z ->
            SFdiv 53 1024 (number 0) (number n) = S754_zero false).
  { intros n Hn Hb. unfold number.
    destruct (binary_normalize_value (Z.of_nat n)) as (m & k & -> & _);
      [change (2 ^ 53)%Z with 9007199254740992%Z; lia|reflexivity]. }
  assert (Hpot : SFleb (number 0) (SFdiv 53 1024 (number total)
                                     (number (data_length d))) = true
                 /\ SFleb (SFdiv 53 1024 (number total)
                             (number (data_length d))) (number 1) = true).
  { destruct (Nat.eq_dec total 0) as [->|Ht].
    - rewrite (Hzero _ Hpos Hlen). split; reflexivity.
    - unfold number.
      destruct (SFdiv_between (Z.of_nat total) (Z.of_nat (data_length d)) 1)
        as (Hup & _ & m & e & Hfin);
        try (change (2 ^ 53)%Z with 9007199254740992%Z; lia).
      split; [rewrite Hfin; reflexivity|]. apply Hup. lia. }
  destruct Hpot as [Hp0 Hp1].
  split; [exact Hp0|]. split; [exact Hp1|]. split.
  - intros Hr. replace (0 <? runs) with true
      by (symmetry; apply Nat.ltb_lt; exact Hr).
    unfold number.
    destruct (SFdiv_between (Z.of_nat total) (Z.of_nat runs) 2)
      as (_ & Hlow & _);
      try (change (2 ^ 53)%Z with 9007199254740992%Z; lia).
    destruct (SFdiv_between (Z.of_nat total) (Z.of_nat runs) (Z.of_nat mx))
      as (Hup & _ & _);
      try (change (2 ^ 53)%Z with 9007199254740992%Z; lia).
    split; [apply Hlow; lia|apply Hup; lia].
  - intros Hr. rewrite Hr. split; [reflexivity|].
    assert (total = 0) as -> by lia.
    now apply Hzero.
Qed.

(** The bytes of the examples. *)
Lemma analyzeRLEEffectiveness_quotients_sample :
  exists a,
    RLE.analyzeRLEEffectiveness sample_bytes = Ok a
    /\ SFleb (number 0) (RLE.compressionPotential a) = true
    /\ SFleb (RLE.compressionPotential a) (number 1) = true
    /\ (0 < RLE.totalRuns a ->
        SFleb (number 2) (RLE.averageRunLength a) = true
        /\ SFleb (RLE.averageRunLength a) (number (RLE.maxRunLength a))
           = true)
    /\ (RLE.totalRuns a = 0 ->
        RLE.averageRunLength a = S754_zero false
        /\ RLE.compressionPotential a = S754_zero false).
Proof.
  apply (analyzeRLEEffectiveness_quotients sample_bytes).
  - reflexivity.
  - discriminate.
  - simpl. lia.
Defined.
